(** * RapidGL, demo 27: clustered shading

    A shallow embedding of the clustered-shading pipeline of
    [src/demos/27_clustered_shading]: the compute kernels
    [find_unique_clusters.comp] and [update_cull_lights_indirect_args.comp],
    the cluster lookup and the light loops of [pbr_clustered.frag], and the
    host-side [hsv2rgb], [ClusteredShading::init_app] and
    [ClusteredShading::GeneratePointLights].  The kernels of the pipeline
    that are not among the sources (cluster marking, grid building, light
    culling) are not modelled.

    Further host-side code: the light animation of
    [ClusteredShading::update], the bloom passes of
    [ClusteredShading::render], the lights panel of
    [ClusteredShading::render_gui], [calculateMipmapLevels] and
    [setDirection] of [clustered_shading.h], and the shader loader
    [Util::LoadFile], [Util::LoadShaderIncludes] of [src/core/util.cpp].

    Conventions.
    - A GLSL [uint] (and a C++ [uint32_t]) is a [Z] in [[0, 2^32)]; every
      arithmetic operation on it is followed by [wrap].
    - A buffer (SSBO array, [std::vector]) is a [list]; positions are [nat].
    - [float] is idealised: exact rationals [Q] where the code only uses
      field operations, truncation and comparison (the C++ side), real
      numbers [R] where it takes a logarithm (the shaders).  The
      statements on dispatch sizes keep to integers up to [2^24], which a
      [float] holds exactly; for the slice and the tile of the cluster
      lookup the operations of the device are parameters ([LookupFloat])
      and the statement carries their error bound. *)

From Stdlib Require Import ZArith QArith Qround Qabs Reals Lia Lra Psatz.
From Stdlib Require Ascii String.
From stdpp Require Import base tactics option list gmap sets.

Local Open Scope Z_scope.

(** ** Unsigned 32-bit integers *)

Definition uint_modulus : Z := 2 ^ 32.

Definition wrap (n : Z) : Z := n mod uint_modulus.

Definition is_uint (n : Z) : Prop := 0 <= n < uint_modulus.

Definition uadd (a b : Z) : Z := wrap (a + b).
Definition umul (a b : Z) : Z := wrap (a * b).

(** GLSL [uvec3] and [uvec2]. *)
Record uvec3 : Type := Uvec3 { ux : Z; uy : Z; uz : Z }.
Record uvec2 : Type := Uvec2 { vx : Z; vy : Z }.

(** ** Indirect dispatch sizer: [update_cull_lights_indirect_args.comp] *)

(** [UniqueActiveClustersSSBO]: the counter and the dense list. *)
Record UniqueActiveClustersSSBO : Type := mkUnique {
  unique_clusters_count : Z;
  unique_clusters : list Z
}.

(** [CullLightsDispatchArgsSSBO]. *)
Record CullLightsDispatchArgsSSBO : Type := mkArgs { num_groups : uvec3 }.

Module DispatchSizer.

(** [void main() { num_groups = uvec3(unique_clusters_count, 1, 1); }]
    The single work item reads the counter and overwrites the argument
    buffer. *)
Definition main (u : UniqueActiveClustersSSBO)
    (args : CullLightsDispatchArgsSSBO) : CullLightsDispatchArgsSSBO :=
  mkArgs (Uvec3 (unique_clusters_count u) 1 1).

End DispatchSizer.

(** ** Flat cluster index: [computeClusterIndex1D] of [pbr_clustered.frag] *)

Module Lookup1D.

(** [return cluster_index3D.x +
      (u_grid_dim.x * (cluster_index3D.y + u_grid_dim.y * cluster_index3D.z));]
    in [uint] arithmetic. *)
Definition computeClusterIndex1D (u_grid_dim : uvec3) (cluster_index3D : uvec3) : Z :=
  uadd (ux cluster_index3D)
       (umul (ux u_grid_dim)
             (uadd (uy cluster_index3D)
                   (umul (uy u_grid_dim) (uz cluster_index3D)))).

(** The 3-D index domain of a grid. *)
Definition in_grid (g i : uvec3) : Prop :=
  0 <= ux i < ux g /\ 0 <= uy i < uy g /\ 0 <= uz i < uz g.

Definition cluster_count (g : uvec3) : Z := ux g * uy g * uz g.

(** The inverse map used for surjectivity. *)
Definition unflatten (g : uvec3) (i : Z) : uvec3 :=
  Uvec3 (i mod ux g) ((i / ux g) mod uy g) (i / (ux g * uy g)).

End Lookup1D.


(** ** Active cluster compactor: [find_unique_clusters.comp]

    One invocation per cluster.  An invocation is two shared-memory
    actions: the flag test with the [atomicAdd], and the store into the
    slot the [atomicAdd] returned.  Invocations are interleaved in any
    order; a schedule is the list of the invocations that take their next
    action.  The invocations share nothing but the two buffers, so their
    grouping into work groups of 1024 plays no role. *)

Module Compactor.

(** Where an invocation stands:
    [Start]: before line [if (clusters_flags[cluster_id])];
    [Reserved i]: after [uint i = atomicAdd(unique_clusters_count, 1)];
    [Finished]: after [unique_clusters[i] = cluster_id], or after a
    failed flag test. *)
Inductive pc : Type :=
| Start
| Reserved (i : Z)
| Finished.

#[export] Instance pc_eq_dec : EqDecision pc.
Proof. solve_decision. Defined.

Record state : Type := mkState {
  ssbo : UniqueActiveClustersSSBO;
  threads : list pc
}.

(** [atomicAdd(unique_clusters_count, 1)]: the old value is returned and
    the incremented value, wrapped to 32 bits, is stored. *)
Definition atomicAdd_count (u : UniqueActiveClustersSSBO) : Z * UniqueActiveClustersSSBO :=
  (unique_clusters_count u,
   mkUnique (uadd (unique_clusters_count u) 1) (unique_clusters u)).

(** [unique_clusters[i] = cluster_id]; a store past the end of the
    buffer leaves it unchanged. *)
Definition store_cluster (i cluster_id : Z) (u : UniqueActiveClustersSSBO)
    : UniqueActiveClustersSSBO :=
  mkUnique (unique_clusters_count u)
           (<[Z.to_nat i := cluster_id]> (unique_clusters u)).

(** The next action of invocation [t] (its
    [gl_GlobalInvocationID.x]); an invocation that has finished, or
    that was never dispatched, does nothing. *)
Definition step (clusters_flags : list bool) (t : nat) (s : state) : state :=
  match threads s !! t with
  | Some Start =>
      if (clusters_flags !!! t : bool)
      then let '(i, u) := atomicAdd_count (ssbo s) in
           mkState u (<[t := Reserved i]> (threads s))
      else mkState (ssbo s) (<[t := Finished]> (threads s))
  | Some (Reserved i) =>
      mkState (store_cluster i (Z.of_nat t) (ssbo s))
              (<[t := Finished]> (threads s))
  | Some Finished | None => s
  end.

Definition run (clusters_flags : list bool) (schedule : list nat) (s : state) : state :=
  foldl (fun s t => step clusters_flags t s) s schedule.

(** The frame starts with the counter reset to zero; the list holds
    whatever the previous frame left in it.  One invocation per entry of
    the activation mask. *)
Definition frame_start (clusters_flags : list bool) (stale : list Z) : state :=
  mkState (mkUnique 0 stale) (replicate (length clusters_flags) Start).

Definition finished (s : state) : bool :=
  forallb (fun p => bool_decide (p = Finished)) (threads s).

(** The cluster indices whose activation flag is set. *)
Definition flagged (clusters_flags : list bool) : list nat :=
  filter (fun t => clusters_flags !!! t = true) (seq 0 (length clusters_flags)).

(** The first [unique_clusters_count] entries of the dense list. *)
Definition active_list (u : UniqueActiveClustersSSBO) : list Z :=
  take (Z.to_nat (unique_clusters_count u)) (unique_clusters u).

(** The schedule that runs the invocations one after the other. *)
Definition sequential (n : nat) : list nat :=
  flat_map (fun t => [t; t]) (seq 0 n).

(** The invariant of the interleavings.  The ghost [order] lists the
    invocations in the order in which they performed their [atomicAdd]. *)
Record invariant (clusters_flags : list bool) (s : state) (order : list nat)
  : Prop := mkInv {
  inv_count : unique_clusters_count (ssbo s) = Z.of_nat (length order);
  inv_nodup : NoDup order;
  inv_mem : forall t, t ∈ order <->
              (clusters_flags !!! t = true /\ (t < length clusters_flags)%nat
               /\ threads s !! t <> Some Start);
  inv_slot : forall i t, order !! i = Some t ->
              threads s !! t = Some (Reserved (Z.of_nat i))
              \/ (threads s !! t = Some Finished
                  /\ unique_clusters (ssbo s) !! i = Some (Z.of_nat t));
  inv_reserved : forall t i, threads s !! t = Some (Reserved i) ->
              exists j, i = Z.of_nat j /\ order !! j = Some t;
  inv_threads : length (threads s) = length clusters_flags;
  inv_room : (length clusters_flags <= length (unique_clusters (ssbo s)))%nat
}.
Arguments inv_count {_ _ _} _.
Arguments inv_nodup {_ _ _} _.
Arguments inv_mem {_ _ _} _.
Arguments inv_slot {_ _ _} _.
Arguments inv_reserved {_ _ _} _.
Arguments inv_threads {_ _ _} _.
Arguments inv_room {_ _ _} _.

End Compactor.

(** ** Vectors *)

(** [vec3] over the scalar type [T] ([glm::vec3], GLSL [vec3]). *)
Record vec3 (T : Type) : Type := Vec3 { vec_x : T; vec_y : T; vec_z : T }.
Arguments Vec3 {T} _ _ _.
Arguments vec_x {T} _.
Arguments vec_y {T} _.
Arguments vec_z {T} _.

(** ** Cluster lookup: [computeClusterIndex3D] of [pbr_clustered.frag] *)

Module Lookup.
Local Open Scope R_scope.

(** The uniforms [pbr_clustered.frag] declares. *)
Record Uniforms : Type := mkUniforms {
  u_near_z : R;
  u_grid_dim : uvec3;
  u_cluster_size_ss : uvec2;
  u_log_grid_dim_y : R;
  u_debug_slices : bool
}.

(** [uint(f)] for a float [f]: the fraction is dropped.  GLSL leaves the
    conversion of a negative or too large value undefined; the model
    saturates.  For [0 <= f < 2^32] this is [Int_part f], the floor. *)
Definition float_to_uint (f : R) : Z :=
  Z.max 0 (Z.min (Int_part f) (uint_modulus - 1)).

(** [uint x = uint(screen_pos.x / u_cluster_size_ss.x);
     uint y = uint(screen_pos.y / u_cluster_size_ss.y);
     uint z = uint(log( -view_z / u_near_z ) * u_log_grid_dim_y);
     return uvec3(x, y, z);]
    [log] is the natural logarithm.  The [float] operations are exact
    here; [LookupFloat] below has them as the device computes them. *)
Definition computeClusterIndex3D (u : Uniforms) (screen_pos : R * R) (view_z : R)
    : uvec3 :=
  let x := float_to_uint (fst screen_pos / IZR (vx (u_cluster_size_ss u))) in
  let y := float_to_uint (snd screen_pos / IZR (vy (u_cluster_size_ss u))) in
  let z := float_to_uint (ln (- view_z / u_near_z u) * u_log_grid_dim_y u) in
  Uvec3 x y z.

(** The two calls at the head of the light loops of [main]. *)
Definition cluster_index (u : Uniforms) (screen_pos : R * R) (view_z : R) : Z :=
  Lookup1D.computeClusterIndex1D (u_grid_dim u)
    (computeClusterIndex3D u screen_pos view_z).

End Lookup.

(** ** The cluster lookup in the arithmetic of the device

    [Lookup.computeClusterIndex3D] evaluates the shader's expressions with
    exact operations.  Here the [float] operations of the device are
    parameters: each takes and gives [float] values, seen as real numbers,
    and rounds as the device does.  A negation is exact and is not among
    them. *)

Module LookupFloat.
Local Open Scope R_scope.

Class GpuFloat : Type := {
  (** the conversion of a [uint] operand to [float] *)
  float_of_uint : Z -> R;
  (** [a / b] *)
  fdiv : R -> R -> R;
  (** [log(a)] *)
  flog : R -> R;
  (** [a * b] *)
  fmul : R -> R -> R
}.

(** [uint x = uint(screen_pos.x / u_cluster_size_ss.x);
     uint y = uint(screen_pos.y / u_cluster_size_ss.y);
     uint z = uint(log( -view_z / u_near_z ) * u_log_grid_dim_y);
     return uvec3(x, y, z);] *)
Definition computeClusterIndex3D `{F : GpuFloat} (u : Lookup.Uniforms)
    (screen_pos : R * R) (view_z : R) : uvec3 :=
  let x := Lookup.float_to_uint
             (fdiv (fst screen_pos)
                   (float_of_uint (vx (Lookup.u_cluster_size_ss u)))) in
  let y := Lookup.float_to_uint
             (fdiv (snd screen_pos)
                   (float_of_uint (vy (Lookup.u_cluster_size_ss u)))) in
  let z := Lookup.float_to_uint
             (fmul (flog (fdiv (- view_z) (Lookup.u_near_z u)))
                   (Lookup.u_log_grid_dim_y u)) in
  Uvec3 x y z.

(** Operations that do not round. *)
Definition exact : GpuFloat :=
  {| float_of_uint := IZR; fdiv := Rdiv; flog := ln; fmul := Rmult |}.

(** A device whose quotients and products come out [2^-20] too large. *)
Definition coarse : GpuFloat :=
  {| float_of_uint := IZR;
     fdiv := fun a b => a / b + / 2 ^ 20;
     flog := ln;
     fmul := fun a b => a * b + / 2 ^ 20 |}.

End LookupFloat.

(** ** Host side: the slice parameters of [ClusteredShading::init_app] *)

Module HostSlices.
Local Open Scope R_scope.

(** [std::log2f]. *)
Definition log2f (x : R) : R := ln x / ln 2.

(** [m_camera->NearPlane()], [m_camera->FarPlane()]. *)
Record Camera : Type := mkCamera { NearPlane : R; FarPlane : R }.

(** [float z_near = m_camera->NearPlane();
     float z_far = m_camera->FarPlane();
     float far_near_log = std::log2f(z_far / z_near);
     m_slice_scale = (float)m_grid_size.z / far_near_log;
     m_slice_bias = -((float)m_grid_size.z * std::log2f(z_near) / far_near_log);] *)
Definition init_slice_scale (m_grid_size : uvec3) (m_camera : Camera) : R :=
  let z_near := NearPlane m_camera in
  let z_far := FarPlane m_camera in
  let far_near_log := log2f (z_far / z_near) in
  IZR (uz m_grid_size) / far_near_log.

Definition init_slice_bias (m_grid_size : uvec3) (m_camera : Camera) : R :=
  let z_near := NearPlane m_camera in
  let z_far := FarPlane m_camera in
  let far_near_log := log2f (z_far / z_near) in
  - (IZR (uz m_grid_size) * log2f z_near / far_near_log).

(** [std::make_shared<Camera>(60.0, Window::getAspectRatio(), 0.01, 300.0)]
    and [m_grid_size = { 16, 9, 24 }]. *)
Definition demo_camera : Camera := mkCamera (1 / 100) 300.
Definition demo_grid_size : uvec3 := Uvec3 16 9 24.

(** What [renderLighting] leaves in the uniforms of the clustered PBR
    program.  It sets [u_near_z] and [u_debug_slices]; the other names it
    sets ([u_far_z], [u_slice_scale], [u_slice_bias], ...) are not
    uniforms of [pbr_clustered.frag].  [u_grid_dim], [u_cluster_size_ss]
    and [u_log_grid_dim_y] are never set by the host and keep the value a
    linked program gives its uniforms, zero. *)
Definition renderLighting_uniforms (m_camera : Camera) (m_debug_slices : bool)
    : Lookup.Uniforms :=
  Lookup.mkUniforms (NearPlane m_camera) (Uvec3 0 0 0) (Uvec2 0 0) 0 m_debug_slices.

End HostSlices.

(** The slice formula as the specification words it:
    [floor(log2(viewZ/near) * slice_scale + slice_bias)]. *)
Module SpecSlice.
Local Open Scope R_scope.

Definition slice_index (near slice_scale slice_bias viewZ : R) : Z :=
  Int_part (HostSlices.log2f (viewZ / near) * slice_scale + slice_bias).

End SpecSlice.

(** ** The light loops of [main] in [pbr_clustered.frag] *)

(** [LightGrid]: the range of one cluster in a light index list. *)
Record LightGrid : Type := mkLightGrid { offset : Z; count : Z }.

(** What [pbr_clustered.frag] takes from its include [pbr_lighting.glh]:
    the light and material structures, the fragment's lighting functions,
    and the value a read past the end of a light buffer returns. *)
Class PbrLighting : Type := {
  DirectionalLight : Type;
  PointLight : Type;
  SpotLight : Type;
  MaterialProperties : Type;
  normalize : vec3 R -> vec3 R;
  getMaterialProperties : vec3 R -> MaterialProperties;
  calcDirectionalLight : DirectionalLight -> vec3 R -> MaterialProperties -> vec3 R;
  calcPointLight : PointLight -> vec3 R -> MaterialProperties -> vec3 R;
  calcSpotLight : SpotLight -> vec3 R -> MaterialProperties -> vec3 R;
  indirectLightingIBL : vec3 R -> MaterialProperties -> vec3 R;
  emission : MaterialProperties -> vec3 R;
  unbound_directional : DirectionalLight;
  unbound_point : PointLight;
  unbound_spot : SpotLight
}.

Module Shading.
Section Shading.
Context {L : PbrLighting}.

(** [vec3 + vec3], [vec3(0.0)]. *)
Definition vadd (a b : vec3 R) : vec3 R :=
  Vec3 (vec_x a + vec_x b)%R (vec_y a + vec_y b)%R (vec_z a + vec_z b)%R.
Definition vzero : vec3 R := Vec3 0%R 0%R 0%R.

(** The storage buffers bound to the fragment shader. *)
Record Buffers : Type := mkBuffers {
  dir_lights : list DirectionalLight;
  point_lights : list PointLight;
  spot_lights : list SpotLight;
  point_light_index_list : list Z;
  point_light_grid : list LightGrid;
  spot_light_index_list : list Z;
  spot_light_grid : list LightGrid
}.

(** The inputs of one fragment. *)
Record Fragment : Type := mkFragment {
  gl_FragCoord_xy : R * R;
  in_view_pos : vec3 R;
  in_world_pos : vec3 R;
  in_normal : vec3 R
}.

(** [arr[i]]; a read past the end gives [d]. *)
Definition buffer_read {A : Type} (d : A) (arr : list A) (i : Z) : A :=
  default d (arr !! Z.to_nat i).

(** [for (uint i = 0; i < n; ++i) acc = body(i, acc);] *)
Definition uint_for {A : Type} (n : Z) (body : Z -> A -> A) (acc : A) : A :=
  foldl (fun acc i => body (Z.of_nat i) acc) acc (seq 0 (Z.to_nat n)).

Definition debug_colors : list (vec3 R) :=
  [ Vec3 0 0 0; Vec3 0 0 1; Vec3 0 1 0; Vec3 0 1 1;
    Vec3 1 0 0; Vec3 1 0 1; Vec3 1 1 0; Vec3 1 1 1 ]%R.

(** The local [radiance] of [main] when it reaches the test of
    [u_debug_slices]. *)
Definition radiance (u : Lookup.Uniforms) (b : Buffers) (f : Fragment) : vec3 R :=
  let radiance := vzero in
  let normal := normalize (in_normal f) in
  let material := getMaterialProperties normal in
  (* Calculate the directional lights *)
  let radiance :=
    uint_for (Z.of_nat (length (dir_lights b)))
      (fun i radiance =>
         vadd radiance
           (calcDirectionalLight (buffer_read unbound_directional (dir_lights b) i)
              (in_world_pos f) material))
      radiance in
  (* Locating the cluster we are in *)
  let cluster_index3D :=
    Lookup.computeClusterIndex3D u (gl_FragCoord_xy f) (vec_z (in_view_pos f)) in
  let cluster_index1D :=
    Lookup1D.computeClusterIndex1D (Lookup.u_grid_dim u) cluster_index3D in
  (* Calculate the point lights *)
  let light_index_offset :=
    offset (buffer_read (mkLightGrid 0 0) (point_light_grid b) cluster_index1D) in
  let light_count :=
    count (buffer_read (mkLightGrid 0 0) (point_light_grid b) cluster_index1D) in
  let radiance :=
    uint_for light_count
      (fun i radiance =>
         let light_index :=
           buffer_read 0 (point_light_index_list b) (uadd light_index_offset i) in
         vadd radiance
           (calcPointLight (buffer_read unbound_point (point_lights b) light_index)
              (in_world_pos f) material))
      radiance in
  (* Calculate the spot lights *)
  let light_index_offset :=
    offset (buffer_read (mkLightGrid 0 0) (spot_light_grid b) cluster_index1D) in
  let light_count :=
    count (buffer_read (mkLightGrid 0 0) (spot_light_grid b) cluster_index1D) in
  let radiance :=
    uint_for light_count
      (fun i radiance =>
         let light_index :=
           buffer_read 0 (spot_light_index_list b) (uadd light_index_offset i) in
         vadd radiance
           (calcSpotLight (buffer_read unbound_spot (spot_lights b) light_index)
              (in_world_pos f) material))
      radiance in
  let radiance := vadd radiance (indirectLightingIBL (in_world_pos f) material) in
  vadd radiance (emission material).

(** [main]: the value written to [frag_color]. *)
Definition main (u : Lookup.Uniforms) (b : Buffers) (f : Fragment) : vec3 R * R :=
  if Lookup.u_debug_slices u
  then
    let cluster_index3D :=
      Lookup.computeClusterIndex3D u (gl_FragCoord_xy f) (vec_z (in_view_pos f)) in
    (buffer_read vzero debug_colors (uz cluster_index3D mod 8), 1%R)
  else (radiance u b f, 1%R).

(** The lights a cluster's grid entry selects: the lights whose indices
    stand at positions [offset], ..., [offset + count - 1] of the index
    list. *)
Definition cluster_lights {A : Type} (d : A) (lights : list A)
    (index_list : list Z) (grid : list LightGrid) (cluster : Z) : list A :=
  let g := buffer_read (mkLightGrid 0 0) grid cluster in
  map (fun i => buffer_read d lights
                  (buffer_read 0 index_list (uadd (offset g) (Z.of_nat i))))
      (seq 0 (Z.to_nat (count g))).

(** Adding the contribution of each light of a list, in order. *)
Definition accumulate {A : Type} (calc : A -> vec3 R) (lights : list A)
    (r : vec3 R) : vec3 R :=
  foldl (fun r l => vadd r (calc l)) r lights.

End Shading.
End Shading.

(** ** Host side: [hsv2rgb] and [GeneratePointLights] *)

Record vec4 (T : Type) : Type := Vec4 { v4_x : T; v4_y : T; v4_z : T; v4_w : T }.
Arguments Vec4 {T} _ _ _ _.
Arguments v4_x {T} _.
Arguments v4_y {T} _.
Arguments v4_z {T} _.
Arguments v4_w {T} _.

Module Host.
Local Open Scope Q_scope.

(** [static_cast<int>(f)]: the fraction is dropped, toward zero. *)
Definition float_to_int (f : Q) : Z := Z.quot (Qnum f) (Zpos (Qden f)).

(** [fmodf(x, y)]: [x - n*y], with [n] the quotient [x/y] truncated
    toward zero. *)
Definition fmodf (x y : Q) : Q := x - inject_Z (float_to_int (x / y)) * y.

Definition fabsf (x : Q) : Q := Qabs x.

(** [vec3 + float]: the scalar is added to every component. *)
Definition vec3_add_scalar (v : vec3 Q) (m : Q) : vec3 Q :=
  Vec3 (vec_x v + m) (vec_y v + m) (vec_z v + m).

(** [glm::vec3 hsv2rgb(float H, float S, float V)].  [RGB] is declared
    without an initialiser and the [switch] has no [default]: when no
    case applies the function returns an indeterminate value, [None]. *)
Definition hsv2rgb (H S V : Q) : option (vec3 Q) :=
  let C := V * S in
  let m := V - C in
  let H2 := H / 60 in
  let X := C * (1 - fabsf (fmodf H2 2 - 1)) in
  let RGB :=
    match float_to_int H2 with
    | 0%Z => Some (Vec3 C X 0)
    | 1%Z => Some (Vec3 X C 0)
    | 2%Z => Some (Vec3 0 C X)
    | 3%Z => Some (Vec3 0 X C)
    | 4%Z => Some (Vec3 X 0 C)
    | 5%Z => Some (Vec3 C 0 X)
    | _ => None
    end in
  option_map (fun RGB => vec3_add_scalar RGB m) RGB.

(** A colour whose three components lie in [[0, 1]]. *)
Definition unit_interval (q : Q) : Prop := 0 <= q <= 1.

Definition rgb_in_range (rgb : vec3 Q) : Prop :=
  unit_interval (vec_x rgb) /\ unit_interval (vec_y rgb)
  /\ unit_interval (vec_z rgb).

(** [struct PointLight : BaseLight]. *)
Record PointLight : Type := mkPointLight {
  color : option (vec3 Q);
  intensity : Q;
  position : vec3 Q;
  radius : Q
}.

(** The members of [ClusteredShading] that [GeneratePointLights] reads
    and writes. *)
Record App : Type := mkApp {
  m_point_lights_count : nat;
  m_point_lights_intensity : Q;
  min_max_point_light_radius : Q * Q;
  m_point_lights : list PointLight;
  m_ellipses_radii : list (vec4 Q)
}.

(** A value-initialised element, as [std::vector::resize] makes it. *)
Definition zero_light : PointLight :=
  mkPointLight (Some (Vec3 0 0 0)) 0 (Vec3 0 0 0) 0.
Definition zero_vec4 : vec4 Q := Vec4 0 0 0 0.

(** Computations that draw from the random generator: the state is the
    number of draws made so far. *)
Definition Rand (A : Type) : Type := nat -> A * nat.
Definition ret {A : Type} (a : A) : Rand A := fun n => (a, n).
Definition bind {A B : Type} (c : Rand A) (k : A -> Rand B) : Rand B :=
  fun n => let (a, n') := c n in k a n'.

(** The order in which the three arguments of the call
    [hsv2rgb(glm::linearRand(1.0f, 360.0f), glm::linearRand(0.1f, 1.0f),
             glm::linearRand(0.1f, 1.0f))]
    are evaluated.  C++ leaves it to the compiler (g++ takes them from
    right to left); each name lists the arguments H, S, V in the order of
    their draws. *)
Inductive argument_order : Type := HSV | HVS | SHV | SVH | VHS | VSH.

(** Which of the three draws of the call is the hue's: 0 for the first. *)
Definition hue_draw (order : argument_order) : nat :=
  match order with
  | HSV | HVS => 0
  | SHV | VHS => 1
  | SVH | VSH => 2
  end.

Section Generate.
(** The compiler's order for the arguments of [hsv2rgb]. *)
Variable order : argument_order.

(** The generator: its [k]-th draw, as a fraction in [[0, 1]]. *)
Variable unit_rand : nat -> Q.

(** [glm::cos], [glm::sin]. *)
Variables cosf sinf : Q -> Q.

(** [glm::linearRand(Min, Max)]: the draw scaled to the interval,
    [rand * (Max - Min) + Min]. *)
Definition linearRand (Min Max : Q) : Rand Q :=
  fun n => (unit_rand n * (Max - Min) + Min, S n).

(** The three arguments of the call of [hsv2rgb], drawn in the compiler's
    order. *)
Definition hsv2rgb_arguments : Rand (Q * Q * Q) :=
  let draw_h := linearRand 1 360 in
  let draw_s := linearRand (1 # 10) 1 in
  let draw_v := linearRand (1 # 10) 1 in
  match order with
  | HSV => bind draw_h (fun h => bind draw_s (fun s => bind draw_v (fun v =>
             ret (h, s, v))))
  | HVS => bind draw_h (fun h => bind draw_v (fun v => bind draw_s (fun s =>
             ret (h, s, v))))
  | SHV => bind draw_s (fun s => bind draw_h (fun h => bind draw_v (fun v =>
             ret (h, s, v))))
  | SVH => bind draw_s (fun s => bind draw_v (fun v => bind draw_h (fun h =>
             ret (h, s, v))))
  | VHS => bind draw_v (fun v => bind draw_h (fun h => bind draw_s (fun s =>
             ret (h, s, v))))
  | VSH => bind draw_v (fun v => bind draw_s (fun s => bind draw_h (fun h =>
             ret (h, s, v))))
  end.

(** One round of the loop of [GeneratePointLights]: the light and the
    ellipse entry written at index [i]. *)
Definition generate_one (intensity_ : Q) (min_max : Q * Q)
    : Rand (PointLight * vec4 Q) :=
  let range_x := 11 in
  let range_z := 6 in
  bind (linearRand (- range_x) range_x) (fun rand_x =>
  bind (linearRand (- range_z) range_z) (fun rand_z =>
  bind hsv2rgb_arguments (fun hsv =>
  let p_color := hsv2rgb (fst (fst hsv)) (snd (fst hsv)) (snd hsv) in
  let p_intensity := intensity_ in
  bind (linearRand (1 # 2) 12) (fun p_position_y =>
  bind (linearRand (fst min_max) (snd min_max)) (fun p_radius =>
  bind (linearRand (1 # 2) 2) (fun speed =>
  let e := Vec4 rand_x rand_z speed 0 in
  let p_position_x := v4_x e * cosf ((1 # 100) * v4_z e) in
  let p_position_z := v4_y e * sinf ((1 # 100) * v4_z e) in
  ret (mkPointLight p_color p_intensity
         (Vec3 p_position_x p_position_y p_position_z) p_radius,
       e))))))).

(** The loop [for (uint32_t i = 0; i < m_point_lights.size(); ++i)],
    from index [i] for [rounds] rounds. *)
Fixpoint generate_loop (rounds i : nat) (app : App) : Rand App :=
  match rounds with
  | O => ret app
  | S rounds' =>
      bind (generate_one (m_point_lights_intensity app)
              (min_max_point_light_radius app))
           (fun pe =>
              generate_loop rounds' (S i)
                (mkApp (m_point_lights_count app)
                       (m_point_lights_intensity app)
                       (min_max_point_light_radius app)
                       (<[i := fst pe]> (m_point_lights app))
                       (<[i := snd pe]> (m_ellipses_radii app))))
  end.

(** [void ClusteredShading::GeneratePointLights()]:
    both vectors are cleared and resized to [m_point_lights_count], then
    every element is filled in. *)
Definition GeneratePointLights (app : App) : Rand App :=
  let app :=
    mkApp (m_point_lights_count app) (m_point_lights_intensity app)
          (min_max_point_light_radius app)
          (replicate (m_point_lights_count app) zero_light)
          (replicate (m_point_lights_count app) zero_vec4) in
  generate_loop (length (m_point_lights app)) 0 app.

End Generate.

(** What every generated light satisfies. *)
Definition generated (app : App) (p : PointLight) : Prop :=
  intensity p = m_point_lights_intensity app
  /\ (1 # 2) <= vec_y (position p) <= 12
  /\ (fst (min_max_point_light_radius app) <= snd (min_max_point_light_radius app) ->
      fst (min_max_point_light_radius app) <= radius p
        <= snd (min_max_point_light_radius app))
  /\ (snd (min_max_point_light_radius app) <= fst (min_max_point_light_radius app) ->
      snd (min_max_point_light_radius app) <= radius p
        <= fst (min_max_point_light_radius app)).

(** The members' initial values in [clustered_shading.h]. *)
Definition initial_app : App :=
  mkApp 50 1 (10, 300) [] [].

End Host.

(** ** Host side: the lights and their ellipses, the panel, the
    animation dispatch *)

Module HostLights.
Local Open Scope Q_scope.

(** How [GeneratePointLights] ties a light to its entry of
    [m_ellipses_radii]: the light starts on the ellipse with radii
    [e.x] and [e.y], at the angle [0.01 * e.z]. *)
Definition on_ellipse (cosf sinf : Q -> Q) (p : Host.PointLight) (e : vec4 Q)
    : Prop :=
  vec_x (Host.position p) = v4_x e * cosf ((1 # 100) * v4_z e)
  /\ vec_z (Host.position p) = v4_y e * sinf ((1 # 100) * v4_z e)
  /\ - (11) <= v4_x e <= 11
  /\ - (6) <= v4_y e <= 6
  /\ (1 # 2) <= v4_z e <= 2
  /\ v4_w e = 0.

(** A light with an assigned colour, inside the colour cube and with a
    component of at least 0.1. *)
Definition visible_colour (p : Host.PointLight) : Prop :=
  exists rgb,
    Host.color p = Some rgb /\ Host.rgb_in_range rgb
    /\ ((1 # 10) <= vec_x rgb \/ (1 # 10) <= vec_y rgb \/ (1 # 10) <= vec_z rgb).

End HostLights.

(** ** Host side: the "Lights Generator" panel of [render_gui] *)

Module LightsPanel.
Local Open Scope Q_scope.

(** The members the panel reads and writes. *)
Record Members : Type := mkMembers {
  app : Host.App;
  m_debug_slices : bool;
  m_animate_lights : bool;
  m_animation_speed : Q
}.

(** What the user does to the panel in one frame.  A widget is given a
    pointer to a member; when the user edits it, it stores the new value
    there and returns [true] ([None]: the widget is left alone and returns
    [false]). *)
Record Frame : Type := mkFrame {
  header_open : bool;                 (* ImGui::CollapsingHeader *)
  debug_slices : option bool;         (* Checkbox "Show Debug Z Tiles" *)
  animate_lights : option bool;       (* Checkbox "Animate Lights" *)
  animation_speed : option Q;         (* SliderFloat "Animation Speed" *)
  point_lights_count : option nat;    (* InputScalar "Point Lights Count" *)
  min_radius : option Q;              (* InputFloat "Min Point Lights Radius" *)
  max_radius : option Q;              (* InputFloat "Max Point Lights Radius" *)
  intensity : option Q;               (* SliderFloat "Point Lights Intensity" *)
  generate : bool                     (* Button "Generate Lights" *)
}.

Definition widget {A : Type} (edit : option A) (member : A) : A * bool :=
  match edit with
  | Some v => (v, true)
  | None => (member, false)
  end.

(** [if (ImGui::InputFloat(..., &r, ...)) { if (r < 0.0) { r = 0.0f; } }] *)
Definition input_radius (edit : option Q) (r : Q) : Q :=
  let (r, edited) := widget edit r in
  if edited then (if negb (Qle_bool 0 r) then 0 else r) else r.

Section Panel.
Variable order : Host.argument_order.
Variable unit_rand : nat -> Q.
Variables cosf sinf : Q -> Q.

(** The block [if (ImGui::CollapsingHeader("Lights Generator", ...))] of
    [render_gui].  [UpdateLightsSSBOs], called after
    [GeneratePointLights], only uploads the lists to the device. *)
Definition lights_generator (fr : Frame) (m : Members) : Host.Rand Members :=
  if header_open fr then
    let debug := fst (widget (debug_slices fr) (m_debug_slices m)) in
    let animate := fst (widget (animate_lights fr) (m_animate_lights m)) in
    let speed := fst (widget (animation_speed fr) (m_animation_speed m)) in
    let count_ :=
      fst (widget (point_lights_count fr) (Host.m_point_lights_count (app m))) in
    let x := input_radius (min_radius fr)
               (fst (Host.min_max_point_light_radius (app m))) in
    let y := input_radius (max_radius fr)
               (snd (Host.min_max_point_light_radius (app m))) in
    let intensity_ :=
      fst (widget (intensity fr) (Host.m_point_lights_intensity (app m))) in
    let app1 :=
      Host.mkApp count_ intensity_ (x, y)
        (Host.m_point_lights (app m)) (Host.m_ellipses_radii (app m)) in
    if generate fr
    then Host.bind (Host.GeneratePointLights order unit_rand cosf sinf app1)
           (fun app2 => Host.ret (mkMembers app2 debug animate speed))
    else Host.ret (mkMembers app1 debug animate speed)
  else Host.ret m.

(** The panel over successive frames. *)
Fixpoint frames (frs : list Frame) (m : Members) : Host.Rand Members :=
  match frs with
  | [] => Host.ret m
  | fr :: rest => Host.bind (lights_generator fr m) (frames rest)
  end.

End Panel.

(** The two radius bounds are not negative, and neither is the radius of
    any light. *)
Definition radii_not_negative (m : Members) : Prop :=
  0 <= fst (Host.min_max_point_light_radius (app m))
  /\ 0 <= snd (Host.min_max_point_light_radius (app m))
  /\ Forall (fun p => 0 <= Host.radius p) (Host.m_point_lights (app m)).

(** The members as the class initialises them. *)
Definition initial : Members := mkMembers Host.initial_app false false 1.

End LightsPanel.

(** ** Host side: the animation dispatch of [update] *)

Module Animation.
Local Open Scope Q_scope.

(** [std::ceilf]. *)
Definition ceilf (x : Q) : Q := inject_Z (Qceiling x).

(** What one call of [update] does to the lights: the new value of the
    static [time_accum] and, when the lights are animated, the value of
    [u_time] and the work-group counts of the dispatch of
    [update_lights.comp].  The group count, a [float], is converted to
    [GLuint]. *)
Definition update (m_animate_lights : bool) (m_animation_speed : Q)
    (m_point_lights_count : Z) (delta_time : Q) (time_accum : Q)
    : Q * option (Q * uvec3) :=
  if m_animate_lights
  then
    let time_accum := time_accum + delta_time * m_animation_speed in
    (time_accum,
     Some (time_accum,
           Uvec3 (wrap (Host.float_to_int
                          (ceilf (inject_Z m_point_lights_count / 1024))))
                 1 1))
  else (time_accum, None).

End Animation.

(** ** [Texture2DRenderTarget::calculateMipmapLevels] *)

Module RenderTarget.

Definition m_downscale_limit : Z := 10.
Definition m_max_iterations : nat := 16.

(** [uint8_t] arithmetic. *)
Definition wrap8 (n : Z) : Z := n mod 256.

(** What [printf("%d", x)] shows for a [uint32_t] [x]: the 32 bits read
    as an [int], negative from [2^31] on. *)
Definition printf_d (x : Z) : Z := if x <? 2 ^ 31 then x else x - 2 ^ 32.

(** The loop
    [for (uint8_t i = 0; i < m_max_iterations; ++i)
     { width = width / 2; height = height / 2;
       if (width < m_downscale_limit || height < m_downscale_limit) break;
       ++mip_levels; printf(...); }]
    with the lines it prints, each a level and its size as [%d] shows
    it. *)
Fixpoint mip_loop (iterations : nat) (width height mip_levels : Z)
    (printed : list (Z * Z * Z)) : Z * list (Z * Z * Z) :=
  match iterations with
  | O => (mip_levels, printed)
  | S iterations' =>
      let width := width / 2 in
      let height := height / 2 in
      if (width <? m_downscale_limit) || (height <? m_downscale_limit)
      then (mip_levels, printed)
      else
        let mip_levels := wrap8 (mip_levels + 1) in
        mip_loop iterations' width height mip_levels
          (printed ++ [(mip_levels, printf_d width, printf_d height)])
  end.

(** [uint8_t calculateMipmapLevels()]: the number of levels and the
    printed lines.  [m_width] and [m_height] are [GLuint]s. *)
Definition calculateMipmapLevels (m_width m_height : Z) : Z * list (Z * Z * Z) :=
  let width := m_width / 2 in
  let height := m_height / 2 in
  let mip_levels := 1 in
  let printed :=
    [(0, printf_d m_width, printf_d m_height);
     (mip_levels, printf_d width, printf_d height)] in
  let (mip_levels, printed) :=
    mip_loop m_max_iterations width height mip_levels printed in
  (wrap8 (mip_levels + 1), printed).

End RenderTarget.

(** ** [DirectionalLight::setDirection], [SpotLight::setDirection] *)

Module LightDirection.
Local Open Scope R_scope.

(** [glm::radians]. *)
Definition radians (degrees : R) : R := degrees * (PI / 180).

Definition dot (a b : vec3 R) : R :=
  vec_x a * vec_x b + vec_y a * vec_y b + vec_z a * vec_z b.

(** [glm::normalize(v)]: [v * inversesqrt(dot(v, v))]. *)
Definition normalize (v : vec3 R) : vec3 R :=
  let s := / sqrt (dot v v) in
  Vec3 (vec_x v * s) (vec_y v * s) (vec_z v * s).

Definition neg (v : vec3 R) : vec3 R := Vec3 (- vec_x v) (- vec_y v) (- vec_z v).

(** [float az = glm::radians(azimuth); float el = glm::radians(elevation);
     direction.x = glm::sin(el) * glm::cos(az);
     direction.y = glm::cos(el);
     direction.z = glm::sin(el) * glm::sin(az);
     direction = glm::normalize(-direction);] *)
Definition setDirection (azimuth elevation : R) : vec3 R :=
  let az := radians azimuth in
  let el := radians elevation in
  let direction := Vec3 (sin el * cos az) (cos el) (sin el * sin az) in
  normalize (neg direction).

End LightDirection.

(** * Shader sources: [Util::LoadFile] and [Util::LoadShaderIncludes]

    [src/core/util.cpp].  A [std::string] is the list of its characters, a
    [size_t] a [Z] in [[0, 2^64)].  The file system is a parameter. *)

Module Util.
Import Ascii.AsciiSyntax String.StringSyntax.

Definition std_string : Type := list Ascii.ascii.

Definition lit (s : String.string) : std_string :=
  String.list_ascii_of_string s.
Arguments lit s%_string_scope.

#[global] Instance ascii_eq_dec : EqDecision Ascii.ascii := Ascii.ascii_dec.

Definition newline : Ascii.ascii := Ascii.ascii_of_nat 10.

Definition size_modulus : Z := 2 ^ 64.
Definition size_wrap (n : Z) : Z := n mod size_modulus.

Definition size (s : std_string) : Z := Z.of_nat (length s).

(** [s.substr(pos, count)]: [std::out_of_range] ([None]) when
    [pos > size()]; otherwise the characters [[pos, pos + rcount)] with
    [rcount = min(count, size() - pos)]. *)
Definition substr (s : std_string) (pos count : Z) : option std_string :=
  if size s <? pos then None
  else Some (take (Z.to_nat (Z.min count (size s - pos)))
               (drop (Z.to_nat pos) s)).

(** [line.substr(0, phrase.size()) == phrase]. *)
Definition starts_with (phrase line : std_string) : bool :=
  bool_decide (substr line 0 (size phrase) = Some phrase).

(** The lines that the loop [while (getline(stream, line))] sees.  One
    call of [std::getline] takes the characters up to the next newline,
    which it consumes and drops, or up to the end of the stream; it fails,
    and the loop ends, when the stream is at its end before any character
    was taken.  [line] holds the characters taken so far by the call that
    is under way. *)
Fixpoint getline_from (line stream : std_string) : list std_string :=
  match stream with
  | [] => match line with [] => [] | _ :: _ => [line] end
  | c :: stream' =>
      if decide (c = newline) then line :: getline_from [] stream'
      else getline_from (line ++ [c]) stream'
  end.

Definition getlines (stream : std_string) : list std_string :=
  getline_from [] stream.

(** The text that a loop of [text.append(line + "\n")] builds from the
    strings it is given. *)
Definition unlines (lines : list std_string) : std_string :=
  concat (map (fun line => line ++ [newline]) lines).

(** The file system, as the two functions use it. *)
Class Files := {
  path : Type;
  (** [filename.empty()] *)
  path_empty : path -> bool;
  (** [FileSystem::getRootPath() / filename] *)
  root_path : path -> path;
  (** [std::ifstream inFile(filepath)]: the characters of the file, [None]
      when the stream cannot be opened *)
  ifstream : path -> option std_string;
  (** [dir / include_file_name] *)
  path_append : path -> std_string -> path
}.

Definition skip_begin_phrase : std_string := lit "#ifdef __cplusplus".
Definition skip_end_phrase : std_string := lit "#endif".
Definition include_phrase : std_string := lit "#include".

(** The loop of [LoadFile] over the lines of the file. *)
Fixpoint LoadFile_loop (lines : list std_string) (skip : bool)
    (filetext : std_string) : std_string :=
  match lines with
  | [] => filetext
  | line :: lines' =>
      let skip := if starts_with skip_begin_phrase line then true else skip in
      let filetext :=
        if negb skip then filetext ++ (line ++ [newline]) else filetext in
      let skip := if starts_with skip_end_phrase line then false else skip in
      LoadFile_loop lines' skip filetext
  end.

(** [Util::LoadFile].  The message on [stderr] for a file that cannot be
    opened is not part of the model. *)
Definition LoadFile `{F : Files} (filename : path) : std_string :=
  if path_empty filename then []
  else
    match ifstream (root_path filename) with
    | None => []
    | Some inFile => LoadFile_loop (getlines inFile) false []
    end.

(** The loop of [LoadShaderIncludes] over the lines of the shader: the
    new shader code and the [included] flag, or [None] when [substr]
    throws [std::out_of_range]. *)
Fixpoint LoadShaderIncludes_loop `{F : Files} (dir : path)
    (lines : list std_string) (new_shader_code : std_string)
    (included : bool) : option (std_string * bool) :=
  match lines with
  | [] => Some (new_shader_code, included)
  | line :: lines' =>
      if starts_with include_phrase line then
        match substr line (size include_phrase + 2)
                (size_wrap (size line - size include_phrase - 3)) with
        | None => None
        | Some include_file_name =>
            let line := LoadFile (path_append dir include_file_name) in
            LoadShaderIncludes_loop dir lines'
              (new_shader_code ++ (line ++ [newline])) true
        end
      else
        LoadShaderIncludes_loop dir lines'
          (new_shader_code ++ (line ++ [newline])) included
  end.

Inductive outcome : Type :=
  | Returned (new_shader_code : std_string)
  | OutOfRange
  | OutOfFuel.

(** [Util::LoadShaderIncludes].  The function calls itself on its result
    as long as a pass has replaced an include line; [fuel] bounds the
    number of passes. *)
Fixpoint LoadShaderIncludes `{F : Files} (fuel : nat) (shader_code : std_string)
    (dir : path) : outcome :=
  match fuel with
  | O => OutOfFuel
  | S fuel' =>
      match LoadShaderIncludes_loop dir (getlines shader_code) [] false with
      | None => OutOfRange
      | Some (new_shader_code, included) =>
          if included then LoadShaderIncludes fuel' new_shader_code dir
          else Returned new_shader_code
      end
  end.

End Util.

(** A shader directory with three files: a header shared with the C++
    side, a header that includes it, and a header that includes itself. *)
Module ShaderFiles.
Import Ascii.AsciiSyntax String.StringSyntax.
Import Util.

Definition quote : Ascii.ascii := Ascii.ascii_of_nat 34.

(** The line [#include "name"]. *)
Definition include_line (name : std_string) : std_string :=
  lit "#include " ++ [quote] ++ name ++ [quote].

Definition shared_structs : std_string :=
  unlines [ lit "#ifdef __cplusplus";
         lit "#pragma once";
         lit "#endif";
         lit "struct PointLight { vec3 position; float radius; };" ].

(** No newline after the last line. *)
Definition pbr_lighting : std_string :=
  unlines [ include_line (lit "shared-structs.glh") ]
  ++ lit "vec3 fresnel(vec3 f0, float c);".

Definition loop_glh : std_string :=
  unlines [ lit "float one();"; include_line (lit "loop.glh") ].

Definition files : Files :=
  {| path := std_string;
     path_empty := fun p => bool_decide (p = []);
     root_path := fun p => lit "/" ++ p;
     ifstream := fun p =>
       if decide (p = lit "/shaders/shared-structs.glh")
       then Some shared_structs
       else if decide (p = lit "/shaders/pbr_lighting.glh")
       then Some pbr_lighting
       else if decide (p = lit "/shaders/loop.glh")
       then Some loop_glh
       else None;
     path_append := fun dir name => dir ++ lit "/" ++ name |}.

Definition shaders : std_string := lit "shaders".

Definition pbr_lighting_glh : std_string := lit "shaders/pbr_lighting.glh".

Definition space : Ascii.ascii := Ascii.ascii_of_nat 32.
Definition shared_structs_name : std_string := lit "shared-structs.glh".
Definition version_line : std_string := lit "#version 460 core".
Definition main_line : std_string := lit "void main() {}".

Definition fragment_shader : std_string :=
  unlines [ lit "#version 460 core";
         include_line (lit "pbr_lighting.glh");
         lit "void main() {}" ].

Definition plain_shader : std_string :=
  unlines [ lit "#version 460 core" ] ++ lit "void main() {}".

Definition truncated_shader : std_string :=
  unlines [ lit "#version 460 core"; lit "#include"; lit "void main() {}" ].

Definition structs_shader : std_string :=
  unlines [ version_line; include_line shared_structs_name; main_line ].

Definition include_loop : std_string := include_line (lit "loop.glh").

Definition looping_shader : std_string :=
  unlines [ include_line (lit "loop.glh") ].

End ShaderFiles.

(** ** Host side: the bloom passes of [ClusteredShading::render] *)

Module Bloom.

(** One compute pass over the tone-mapping target: the uniform
    [u_mip_level], the [mip_size] whose inverse is [u_texel_size], the mip
    level bound to [IMAGE_UNIT_WRITE] and the work-group counts of
    [glDispatchCompute]. *)
Record pass : Type := Pass {
  u_mip_level : Z;
  mip_size : uvec2;
  image_level : Z;
  num_groups_x : Z;
  num_groups_y : Z
}.

(** [glm::ceil(float(size) / 8)], converted to [GLuint].  The conversion
    [float(size)] is taken as exact, which it is up to [2^24]; the
    statements about [groups] keep to that range. *)
Definition groups (size : Z) : Z :=
  wrap (Host.float_to_int (Animation.ceilf (inject_Z size / 8))).

(** The loop
    [for (uint8_t i = 0; i < m_mip_levels - 1; ++i)
     { ...; bindImageForWrite(IMAGE_UNIT_WRITE, i + 1);
       glDispatchCompute(...); mip_size = mip_size / 2u; ... }]. *)
Fixpoint downscale_loop (fuel : nat) (m_mip_levels : Z) (i : Z)
    (mip_size : uvec2) : list pass :=
  match fuel with
  | O => []
  | S fuel' =>
      if i <? m_mip_levels - 1 then
        Pass i mip_size (i + 1) (groups (vx mip_size)) (groups (vy mip_size))
        :: downscale_loop fuel' m_mip_levels (RenderTarget.wrap8 (i + 1))
             (Uvec2 (vx mip_size / 2) (vy mip_size / 2))
      else []
  end.

(** [glm::max(1.0, glm::floor(float(size) / glm::pow(2.0, i - 1)))],
    stored in a [uint]; [float(size)] is taken as exact, as for
    [groups]. *)
Definition upscale_size (size : Z) (i : Z) : Z :=
  let x := inject_Z (Qfloor (inject_Z size / inject_Z (2 ^ (i - 1)))) in
  wrap (Host.float_to_int (if negb (Qle_bool x 1) then x else 1%Q)).

(** The loop
    [for (uint8_t i = m_mip_levels - 1; i >= 1; --i)
     { mip_size.x = ...; mip_size.y = ...;
       bindImageForReadWrite(IMAGE_UNIT_WRITE, i - 1);
       glDispatchCompute(...); ... }]. *)
Fixpoint upscale_loop (fuel : nat) (m_width m_height : Z) (i : Z)
    : list pass :=
  match fuel with
  | O => []
  | S fuel' =>
      if 1 <=? i then
        let mip_size :=
          Uvec2 (upscale_size m_width i) (upscale_size m_height i) in
        Pass i mip_size (i - 1) (groups (vx mip_size)) (groups (vy mip_size))
        :: upscale_loop fuel' m_width m_height (RenderTarget.wrap8 (i - 1))
      else []
  end.

(** The compute passes of one call of [render], in order.  A [uint8_t]
    counter takes 256 values: no loop over one that ends runs longer. *)
Definition render (m_bloom_enabled : bool) (m_width m_height m_mip_levels : Z)
    : list pass :=
  if m_bloom_enabled then
    downscale_loop 256 m_mip_levels 0 (Uvec2 (m_width / 2) (m_height / 2))
    ++ upscale_loop 256 m_width m_height (RenderTarget.wrap8 (m_mip_levels - 1))
  else [].

End Bloom.

(** ** Small scenes, used to run the definitions *)

Module Scenes.

(** A generator that alternates between its two extreme values. *)
Definition alternating (k : nat) : Q := if Nat.even k then 0%Q else 1%Q.

End Scenes.

(** ** A lighting model and buffers to run the fragment shader on *)

Module ShadingScene.

(** Every light is represented by the radiance it contributes; the
    material is the surface normal. *)
Definition constant_lighting : PbrLighting :=
  {| DirectionalLight := vec3 R;
     PointLight := vec3 R;
     SpotLight := vec3 R;
     MaterialProperties := vec3 R;
     normalize := fun n => n;
     getMaterialProperties := fun n => n;
     calcDirectionalLight := fun l _ _ => l;
     calcPointLight := fun l _ _ => l;
     calcSpotLight := fun l _ _ => l;
     indirectLightingIBL := fun _ _ => Vec3 0%R 0%R 0%R;
     emission := fun _ => Vec3 0%R 0%R 0%R;
     unbound_directional := Vec3 0%R 0%R 0%R;
     unbound_point := Vec3 0%R 0%R 0%R;
     unbound_spot := Vec3 0%R 0%R 0%R |}.

(** One cluster (a grid of 1 x 1 x 1), one directional light, two point
    lights of which the cluster's range selects the second. *)
Definition uniforms (debug : bool) : Lookup.Uniforms :=
  Lookup.mkUniforms 1%R (Uvec3 1 1 1) (Uvec2 800 600) 0%R debug.

Definition buffers (index_list : list Z) : @Shading.Buffers constant_lighting :=
  @Shading.mkBuffers constant_lighting
    [Vec3 1%R 1%R 1%R]
    [Vec3 1%R 0%R 0%R; Vec3 0%R 1%R 0%R]
    []
    index_list
    [mkLightGrid 1 1]
    []
    [mkLightGrid 0 0].

Definition fragment : Shading.Fragment :=
  Shading.mkFragment (10%R, 10%R) (Vec3 0%R 0%R (- 2)%R)
    (Vec3 0%R 0%R 0%R) (Vec3 0%R 1%R 0%R).

End ShadingScene.
(** * Proofs *)

(** ** Unsigned arithmetic *)

Lemma wrap_small n : is_uint n -> wrap n = n.
Proof. intros H. unfold wrap. apply Z.mod_small. exact H. Qed.

Lemma wrap_is_uint n : is_uint (wrap n).
Proof. unfold is_uint, wrap, uint_modulus. apply Z.mod_pos_bound. lia. Qed.


(** C4: for every value of the active-cluster counter the sizer writes
    [(active_count, 1, 1)] into the dispatch-arguments buffer, whatever the
    buffer held before; a zero counter gives zero work groups in X. *)
Theorem C4_dispatch_sizer_writes_count :
  forall (u : UniqueActiveClustersSSBO) (args : CullLightsDispatchArgsSSBO),
    num_groups (DispatchSizer.main u args) = Uvec3 (unique_clusters_count u) 1 1
    /\ (unique_clusters_count u = 0 ->
        ux (num_groups (DispatchSizer.main u args)) = 0).
Proof.
  intros u args. split.
  - reflexivity.
  - intros H. simpl. exact H.
Qed.

Section FlatIndex.
Import Lookup1D.

Lemma flat_index_exact g i :
  0 <= ux g -> 0 <= uy g -> 0 <= uz g -> cluster_count g <= uint_modulus ->
  in_grid g i ->
  computeClusterIndex1D g i = ux i + ux g * (uy i + uy g * uz i).
Proof.
  intros Hx Hy Hz Hfit (Hi & Hj & Hk).
  unfold cluster_count in Hfit.
  unfold computeClusterIndex1D, uadd, umul.
  assert (Hyz : 0 <= uy g * uz i <= uy g * uz g - uy g) by nia.
  assert (Hin : 0 <= uy i + uy g * uz i <= uy g * uz g - 1) by nia.
  assert (Hgyz : uy g * uz g <= ux g * uy g * uz g) by nia.
  assert (Hout : 0 <= ux g * (uy i + uy g * uz i) <= ux g * uy g * uz g - ux g) by nia.
  rewrite (wrap_small (uy g * uz i)) by (unfold is_uint; lia).
  rewrite (wrap_small (uy i + uy g * uz i)) by (unfold is_uint; lia).
  rewrite (wrap_small (ux g * _)) by (unfold is_uint; lia).
  apply wrap_small. unfold is_uint. lia.
Qed.

Lemma flat_formula_range g i :
  in_grid g i ->
  0 <= ux i + ux g * (uy i + uy g * uz i) < cluster_count g.
Proof.
  intros (Hi & Hj & Hk). unfold cluster_count.
  assert (Hin : 0 <= uy i + uy g * uz i <= uy g * uz g - 1) by nia.
  split; nia.
Qed.

Lemma flat_formula_inj g i j :
  in_grid g i -> in_grid g j ->
  ux i + ux g * (uy i + uy g * uz i) = ux j + ux g * (uy j + uy g * uz j) ->
  i = j.
Proof.
  intros (Hi & Hj & Hk) (Hi' & Hj' & Hk') E.
  destruct (Z.div_mod_unique (ux g) (uy i + uy g * uz i) (uy j + uy g * uz j)
              (ux i) (ux j)) as [E1 E2]; [lia | lia | lia |].
  destruct (Z.div_mod_unique (uy g) (uz i) (uz j) (uy i) (uy j))
    as [E3 E4]; [lia | lia | lia |].
  destruct i, j; simpl in *; congruence.
Qed.

Lemma unflatten_in_grid g n :
  0 <= ux g -> 0 <= uy g -> 0 <= n < cluster_count g ->
  in_grid g (unflatten g n)
  /\ ux (unflatten g n) + ux g * (uy (unflatten g n) + uy g * uz (unflatten g n)) = n.
Proof.
  intros Hx Hy Hn. unfold cluster_count in Hn.
  assert (Hx' : 0 < ux g).
  { destruct (Z.eq_dec (ux g) 0) as [e | ne]; [rewrite e in Hn |]; lia. }
  assert (Hy' : 0 < uy g).
  { destruct (Z.eq_dec (uy g) 0) as [e | ne]; [rewrite e in Hn |]; lia. }
  unfold in_grid, unflatten; simpl.
  pose proof (Z.mod_pos_bound n (ux g) Hx').
  pose proof (Z.mod_pos_bound (n / ux g) (uy g) Hy').
  assert (0 <= n / (ux g * uy g)) by (apply Z.div_pos; nia).
  assert (n / (ux g * uy g) < uz g) by (apply Z.div_lt_upper_bound; nia).
  repeat split; try lia.
  rewrite <- Z.div_div by lia.
  pose proof (Z.div_mod n (ux g)) as E1.
  pose proof (Z.div_mod (n / ux g) (uy g)) as E2.
  replace ((n / ux g) mod uy g + uy g * (n / ux g / uy g)) with (n / ux g) by lia.
  lia.
Qed.

End FlatIndex.

(** C5 (as amended): on a grid whose cluster count [Gx*Gy*Gz] fits the
    32-bit index, the flat index of every in-range 3-D index is
    [x + Gx*(y + Gy*z)], and the map is a bijection from the 3-D index
    domain onto [[0, Gx*Gy*Gz)]. *)
Theorem C5_flat_index_bijection :
  forall g : uvec3,
    0 <= ux g -> 0 <= uy g -> 0 <= uz g ->
    Lookup1D.cluster_count g <= uint_modulus ->
    (forall i, Lookup1D.in_grid g i ->
       Lookup1D.computeClusterIndex1D g i = ux i + ux g * (uy i + uy g * uz i)
       /\ 0 <= Lookup1D.computeClusterIndex1D g i < Lookup1D.cluster_count g)
    /\ (forall i j, Lookup1D.in_grid g i -> Lookup1D.in_grid g j ->
          Lookup1D.computeClusterIndex1D g i = Lookup1D.computeClusterIndex1D g j ->
          i = j)
    /\ (forall n, 0 <= n < Lookup1D.cluster_count g ->
          Lookup1D.in_grid g (Lookup1D.unflatten g n)
          /\ Lookup1D.computeClusterIndex1D g (Lookup1D.unflatten g n) = n).
Proof.
  intros g Hx Hy Hz Hfit. split; [| split].
  - intros i Hi. rewrite flat_index_exact by assumption.
    split; [reflexivity | now apply flat_formula_range].
  - intros i j Hi Hj E.
    rewrite !flat_index_exact in E by assumption.
    now apply (flat_formula_inj g).
  - intros n Hn.
    destruct (unflatten_in_grid g n Hx Hy Hn) as [Hin E].
    split; [exact Hin |].
    rewrite flat_index_exact by assumption. exact E.
Qed.

(** The 16 x 9 x 24 grid of the demo ([m_grid_size]). *)
Lemma C5_flat_index_bijection_witness :
  (0 <= 16 /\ 0 <= 9 /\ 0 <= 24
   /\ Lookup1D.cluster_count (Uvec3 16 9 24) <= uint_modulus)
  /\ (forall i, Lookup1D.in_grid (Uvec3 16 9 24) i ->
       Lookup1D.computeClusterIndex1D (Uvec3 16 9 24) i = ux i + 16 * (uy i + 9 * uz i)
       /\ 0 <= Lookup1D.computeClusterIndex1D (Uvec3 16 9 24) i
            < Lookup1D.cluster_count (Uvec3 16 9 24)).
Proof.
  assert (Hfit : Lookup1D.cluster_count (Uvec3 16 9 24) <= uint_modulus)
    by (vm_compute; discriminate).
  split.
  - repeat split; first [exact Hfit | lia].
  - apply (C5_flat_index_bijection (Uvec3 16 9 24)); simpl; first [exact Hfit | lia].
Defined.

(** A grid of 65536 x 65536 x 2 clusters has 2^33 cells: the 32-bit flat
    index of cell (0,0,1) wraps to 0, the flat index of cell (0,0,0). *)
Lemma C5_flat_index_wraps :
  Lookup1D.in_grid (Uvec3 65536 65536 2) (Uvec3 0 0 1)
  /\ Lookup1D.in_grid (Uvec3 65536 65536 2) (Uvec3 0 0 0)
  /\ Lookup1D.computeClusterIndex1D (Uvec3 65536 65536 2) (Uvec3 0 0 1) = 0
  /\ Lookup1D.computeClusterIndex1D (Uvec3 65536 65536 2) (Uvec3 0 0 0) = 0
  /\ 0 + 65536 * (0 + 65536 * 1) = 4294967296.
Proof.
  unfold Lookup1D.in_grid; simpl. repeat split; try lia; reflexivity.
Qed.

(** ** The compactor: an invariant over every interleaving *)

Section CompactorProofs.
Import Compactor.

Variable clusters_flags : list bool.
Abbreviation N := (length clusters_flags).
Abbreviation inv := (Compactor.invariant clusters_flags).
Hypothesis N_fits : Z.of_nat N < uint_modulus.

Lemma order_length s order : inv s order -> (length order <= N)%nat.
Proof.
  intros I.
  assert (Hsub : order ⊆+ seq 0 N).
  { apply NoDup_submseteq; [apply (inv_nodup I) |].
    intros t Ht. apply (inv_mem I) in Ht. apply elem_of_seq. lia. }
  apply submseteq_length in Hsub. rewrite length_seq in Hsub. exact Hsub.
Qed.

Lemma inv_frame_start stale :
  (N <= length stale)%nat -> inv (frame_start clusters_flags stale) [].
Proof.
  intros Hroom. constructor; simpl.
  - reflexivity.
  - constructor.
  - intros t. split.
    + intros Ht. inversion Ht.
    + intros (_ & Hlt & Hne). exfalso. apply Hne.
      apply lookup_replicate. split; [reflexivity | exact Hlt].
  - intros i t Hi. discriminate.
  - intros t i Ht. apply lookup_replicate in Ht. destruct Ht; discriminate.
  - apply length_replicate.
  - exact Hroom.
Qed.

Lemma step_threads_length t s :
  length (threads (step clusters_flags t s)) = length (threads s).
Proof.
  unfold step. destruct (threads s !! t) as [[| i |] |]; simpl; try reflexivity.
  - destruct (clusters_flags !!! t : bool); simpl; apply length_insert.
  - apply length_insert.
Qed.

Lemma step_other t t' s :
  t <> t' -> threads (step clusters_flags t s) !! t' = threads s !! t'.
Proof.
  intros Hne. unfold step.
  destruct (threads s !! t) as [[| i |] |]; simpl; try reflexivity.
  - destruct (clusters_flags !!! t : bool); simpl;
      apply list_lookup_insert_ne; exact Hne.
  - apply list_lookup_insert_ne; exact Hne.
Qed.

(** An invocation that takes its flag test while the flag is set
    appends itself to the ghost order. *)
Lemma inv_step_reserve s order t :
  inv s order -> threads s !! t = Some Start -> clusters_flags !!! t = true ->
  inv (step clusters_flags t s) (order ++ [t]).
Proof.
  intros I Ht Hflag.
  assert (HtN : (t < N)%nat).
  { rewrite <- (inv_threads I). eapply lookup_lt_Some; exact Ht. }
  assert (Hnotin : t ∉ order).
  { intros Hin. apply (inv_mem I) in Hin. destruct Hin as (_ & _ & Hne).
    apply Hne. exact Ht. }
  assert (Hnd : NoDup (order ++ [t])).
  { apply NoDup_app. split; [apply (inv_nodup I) |]. split.
    - intros x Hx Hx'. apply list_elem_of_singleton in Hx'. subst x. auto.
    - apply NoDup_singleton. }
  assert (Hlen : (length (order ++ [t]) <= N)%nat).
  { assert (Hsub : order ++ [t] ⊆+ seq 0 N).
    { apply NoDup_submseteq; [exact Hnd |].
      intros x Hx. apply elem_of_seq. apply elem_of_app in Hx.
      destruct Hx as [Hx | Hx].
      - apply (inv_mem I) in Hx. lia.
      - apply list_elem_of_singleton in Hx. subst x. lia. }
    apply submseteq_length in Hsub. rewrite length_seq in Hsub. exact Hsub. }
  rewrite length_app in Hlen. simpl in Hlen.
  unfold step. rewrite Ht, Hflag. simpl.
  constructor; simpl.
  - rewrite (inv_count I). unfold uadd. rewrite length_app. simpl.
    rewrite wrap_small; [lia | unfold is_uint; lia].
  - exact Hnd.
  - intros x. rewrite elem_of_app, list_elem_of_singleton. split.
    + intros [Hx | ->].
      * pose proof Hx as Hx'. apply (inv_mem I) in Hx'.
        destruct Hx' as (Hf & Hl & Hne). repeat split; try assumption.
        rewrite list_lookup_insert_ne; [exact Hne |].
        intros ->. auto.
      * repeat split; try assumption.
        rewrite list_lookup_insert_eq; [discriminate |].
        rewrite (inv_threads I). exact HtN.
    + intros (Hf & Hl & Hne).
      destruct (decide (x = t)) as [-> | Hxt]; [right; reflexivity | left].
      apply (inv_mem I). repeat split; try assumption.
      rewrite list_lookup_insert_ne in Hne; [exact Hne | auto].
  - intros i x Hi. apply lookup_app_Some in Hi.
    destruct Hi as [Hi | [Hge Hi]].
    + assert (x <> t).
      { intros ->. apply Hnotin. eapply list_elem_of_lookup_2; exact Hi. }
      rewrite list_lookup_insert_ne by auto.
      apply (inv_slot I). exact Hi.
    + apply list_lookup_singleton_Some in Hi. destruct Hi as [Hi ->].
      left. rewrite list_lookup_insert_eq
        by (rewrite (inv_threads I); exact HtN).
      f_equal. f_equal. rewrite (inv_count I). lia.
  - intros x i Hx.
    destruct (decide (x = t)) as [-> | Hxt].
    + rewrite list_lookup_insert_eq in Hx
        by (rewrite (inv_threads I); exact HtN).
      injection Hx as <-. exists (length order). split.
      * apply (inv_count I).
      * rewrite lookup_app_r by lia. rewrite Nat.sub_diag. reflexivity.
    + rewrite list_lookup_insert_ne in Hx by auto.
      destruct (inv_reserved I _ _ Hx) as (j & -> & Hj).
      exists j. split; [reflexivity |].
      apply lookup_app_l_Some. exact Hj.
  - rewrite length_insert. apply (inv_threads I).
  - apply (inv_room I).
Qed.

(** An invocation whose flag is clear finishes at once. *)
Lemma inv_step_skip s order t :
  inv s order -> threads s !! t = Some Start -> clusters_flags !!! t = false ->
  inv (step clusters_flags t s) order.
Proof.
  intros I Ht Hflag.
  assert (HtN : (t < length (threads s))%nat)
    by (eapply lookup_lt_Some; exact Ht).
  assert (Hnotin : t ∉ order).
  { intros Hin. apply (inv_mem I) in Hin. destruct Hin as (Hf & _).
    congruence. }
  unfold step. rewrite Ht, Hflag. simpl.
  constructor; simpl.
  - apply (inv_count I).
  - apply (inv_nodup I).
  - intros x. rewrite (inv_mem I x). split.
    + intros (Hf & Hl & Hne). repeat split; try assumption.
      rewrite list_lookup_insert_ne; [exact Hne | congruence].
    + intros (Hf & Hl & Hne). repeat split; try assumption.
      rewrite list_lookup_insert_ne in Hne; [exact Hne | congruence].
  - intros i x Hi.
    assert (x <> t).
    { intros ->. apply Hnotin. eapply list_elem_of_lookup_2; exact Hi. }
    rewrite list_lookup_insert_ne by auto.
    apply (inv_slot I). exact Hi.
  - intros x i Hx.
    destruct (decide (x = t)) as [-> | Hxt].
    + rewrite list_lookup_insert_eq in Hx by exact HtN. discriminate.
    + rewrite list_lookup_insert_ne in Hx by auto.
      apply (inv_reserved I _ _ Hx).
  - rewrite length_insert. apply (inv_threads I).
  - apply (inv_room I).
Qed.

(** The store lands in the slot the invocation reserved and in no
    other. *)
Lemma inv_step_store s order t i :
  inv s order -> threads s !! t = Some (Reserved i) ->
  inv (step clusters_flags t s) order.
Proof.
  intros I Ht.
  assert (HtN : (t < length (threads s))%nat)
    by (eapply lookup_lt_Some; exact Ht).
  destruct (inv_reserved I _ _ Ht) as (j & -> & Hj).
  pose proof (order_length _ _ I) as Hlen.
  assert (Hjlen : (j < length order)%nat)
    by (eapply lookup_lt_Some; exact Hj).
  pose proof (inv_room I) as Hroom.
  unfold step. rewrite Ht. unfold store_cluster. simpl. rewrite Nat2Z.id.
  constructor; simpl.
  - apply (inv_count I).
  - apply (inv_nodup I).
  - intros x. rewrite (inv_mem I x). split.
    + intros (Hf & Hl & Hne). repeat split; try assumption.
      destruct (decide (x = t)) as [-> | Hxt].
      * rewrite list_lookup_insert_eq by exact HtN. discriminate.
      * rewrite list_lookup_insert_ne; [exact Hne | auto].
    + intros (Hf & Hl & Hne). repeat split; try assumption.
      destruct (decide (x = t)) as [-> | Hxt].
      * rewrite Ht. discriminate.
      * rewrite list_lookup_insert_ne in Hne; [exact Hne | auto].
  - intros i x Hi.
    destruct (decide (i = j)) as [-> | Hij].
    + assert (x = t) by congruence. subst x. right. split.
      * apply list_lookup_insert_eq. exact HtN.
      * apply list_lookup_insert_eq. lia.
    + assert (x <> t).
      { intros ->. apply Hij.
        eapply NoDup_lookup; [apply (inv_nodup I) | exact Hi | exact Hj]. }
      rewrite !list_lookup_insert_ne by auto.
      apply (inv_slot I). exact Hi.
  - intros x i Hx.
    destruct (decide (x = t)) as [-> | Hxt].
    + rewrite list_lookup_insert_eq in Hx by exact HtN. discriminate.
    + rewrite list_lookup_insert_ne in Hx by auto.
      apply (inv_reserved I _ _ Hx).
  - rewrite length_insert. apply (inv_threads I).
  - rewrite length_insert. exact Hroom.
Qed.

Lemma inv_step s order t :
  inv s order -> exists order', inv (step clusters_flags t s) order'.
Proof.
  intros I.
  destruct (threads s !! t) as [[| i |] |] eqn:Ht.
  - destruct (clusters_flags !!! t : bool) eqn:Hflag.
    + exists (order ++ [t]). now apply inv_step_reserve.
    + exists order. now apply inv_step_skip.
  - exists order. now apply (inv_step_store s order t i).
  - exists order. unfold step. rewrite Ht. exact I.
  - exists order. unfold step. rewrite Ht. exact I.
Qed.

Lemma inv_run schedule : forall s order,
  inv s order -> exists order', inv (run clusters_flags schedule s) order'.
Proof.
  induction schedule as [| t schedule IH]; intros s order I; simpl.
  - exists order. exact I.
  - destruct (inv_step s order t I) as (order' & I').
    apply (IH _ _ I').
Qed.

Lemma finished_lookup s t :
  finished s = true -> (t < length (threads s))%nat ->
  threads s !! t = Some Finished.
Proof.
  unfold finished. intros Hfin Hlt.
  destruct (lookup_lt_is_Some_2 _ _ Hlt) as [p Hp].
  rewrite forallb_forall in Hfin.
  specialize (Hfin p). rewrite Hp. f_equal.
  apply (bool_decide_eq_true_1 (p = Finished)). apply Hfin.
  apply list_elem_of_In. eapply list_elem_of_lookup_2. exact Hp.
Qed.

Lemma flagged_spec t :
  t ∈ flagged clusters_flags <-> clusters_flags !!! t = true /\ (t < N)%nat.
Proof.
  unfold flagged. rewrite list_elem_of_filter, elem_of_seq.
  intuition lia.
Qed.

Lemma flagged_nodup : NoDup (flagged clusters_flags).
Proof. unfold flagged. apply NoDup_filter. apply NoDup_seq. Qed.

(** When every invocation has finished, the dense list is the ghost
    order, and the ghost order is a permutation of the flagged
    clusters. *)
Lemma inv_finished s order :
  inv s order -> finished s = true ->
  active_list (ssbo s) = Z.of_nat <$> order
  /\ order ≡ₚ flagged clusters_flags.
Proof.
  intros I Hfin.
  pose proof (order_length _ _ I) as Hlen.
  pose proof (inv_room I) as Hroom.
  assert (Hdone : forall t, (t < N)%nat -> threads s !! t = Some Finished).
  { intros t Ht. apply finished_lookup; [exact Hfin |].
    rewrite (inv_threads I). exact Ht. }
  split.
  - unfold active_list. rewrite (inv_count I), Nat2Z.id.
    apply list_eq. intros i.
    rewrite list_lookup_fmap.
    destruct (decide (i < length order)%nat) as [Hi | Hi].
    + rewrite lookup_take_lt by exact Hi.
      destruct (lookup_lt_is_Some_2 _ _ Hi) as [t Ht].
      rewrite Ht. simpl.
      destruct (inv_slot I _ _ Ht) as [Hres | [_ Hbuf]]; [| exact Hbuf].
      assert (t ∈ order) as Hin by (eapply list_elem_of_lookup_2; exact Ht).
      apply (inv_mem I) in Hin. destruct Hin as (_ & HtN & _).
      rewrite (Hdone t HtN) in Hres. discriminate.
    + rewrite lookup_take_ge by lia.
      rewrite (lookup_ge_None_2 order i) by lia. reflexivity.
  - apply NoDup_Permutation.
    + apply (inv_nodup I).
    + apply flagged_nodup.
    + intros t. rewrite flagged_spec, (inv_mem I t). split.
      * intros (Hf & Hl & _). auto.
      * intros (Hf & Hl). repeat split; try assumption.
        rewrite (Hdone t Hl). discriminate.
Qed.

(** Taking two actions in a row finishes an invocation. *)
Lemma step_twice t s :
  (t < length (threads s))%nat ->
  threads (step clusters_flags t (step clusters_flags t s)) !! t = Some Finished.
Proof.
  intros Hlt.
  destruct (lookup_lt_is_Some_2 _ _ Hlt) as [p Hp].
  assert (Hstep : forall s', (t < length (threads s'))%nat ->
            threads s' !! t = Some Finished
            \/ (exists i, threads s' !! t = Some (Reserved i)) ->
            threads (step clusters_flags t s') !! t = Some Finished).
  { intros s' Hlt' [Hf | [i Hi]]; unfold step.
    - rewrite Hf. exact Hf.
    - rewrite Hi. simpl. apply list_lookup_insert_eq. exact Hlt'. }
  apply Hstep; [rewrite step_threads_length; exact Hlt |].
  unfold step. rewrite Hp. destruct p as [| i |]; simpl.
  - destruct (clusters_flags !!! t : bool); simpl.
    + right. eexists. apply list_lookup_insert_eq. exact Hlt.
    + left. apply list_lookup_insert_eq. exact Hlt.
  - left. apply list_lookup_insert_eq. exact Hlt.
  - left. exact Hp.
Qed.

Lemma run_threads_length schedule : forall s,
  length (threads (run clusters_flags schedule s)) = length (threads s).
Proof.
  induction schedule as [| t schedule IH]; intros s; simpl; [reflexivity |].
  rewrite IH. apply step_threads_length.
Qed.

Lemma run_sequential n : forall a s,
  (a + n <= length (threads s))%nat ->
  (forall t, (t < a)%nat -> threads s !! t = Some Finished) ->
  forall t, (t < a + n)%nat ->
    threads (run clusters_flags (flat_map (fun t => [t; t]) (seq a n)) s) !! t
    = Some Finished.
Proof.
  induction n as [| n IH]; intros a s Hlen Hdone t Ht; simpl.
  - apply Hdone. lia.
  - apply (IH (S a)).
    + rewrite !step_threads_length. lia.
    + intros t' Ht'. destruct (decide (t' = a)) as [-> | Hne].
      * apply step_twice. lia.
      * rewrite !step_other by auto. apply Hdone. lia.
    + lia.
Qed.

(** The compactor terminates: the sequential schedule finishes every
    invocation. *)
Lemma sequential_finished stale :
  finished (run clusters_flags (sequential N) (frame_start clusters_flags stale)) = true.
Proof.
  unfold finished. apply forallb_forall. intros p Hp.
  apply bool_decide_eq_true_2.
  apply list_elem_of_In, list_elem_of_lookup in Hp. destruct Hp as [t Hp].
  pose proof (lookup_lt_Some _ _ _ Hp) as Hlt.
  rewrite run_threads_length in Hlt. simpl in Hlt.
  rewrite length_replicate in Hlt.
  unfold sequential in Hp.
  rewrite (run_sequential N 0) in Hp.
  - congruence.
  - simpl. rewrite length_replicate. lia.
  - intros t' Ht'. lia.
  - exact Hlt.
Qed.

Lemma compaction_result stale schedule :
  (N <= length stale)%nat ->
  finished (run clusters_flags schedule (frame_start clusters_flags stale)) = true ->
  let s := run clusters_flags schedule (frame_start clusters_flags stale) in
  unique_clusters_count (ssbo s) = Z.of_nat (length (flagged clusters_flags))
  /\ active_list (ssbo s) ≡ₚ Z.of_nat <$> flagged clusters_flags.
Proof.
  intros Hroom Hfin s.
  destruct (inv_run schedule _ _ (inv_frame_start stale Hroom)) as (order & I).
  destruct (inv_finished _ _ I Hfin) as [Hact Hperm].
  fold s in I. split.
  - rewrite (inv_count I). f_equal. apply Permutation_length. exact Hperm.
  - subst s. rewrite Hact. apply fmap_Permutation. exact Hperm.
Qed.

End CompactorProofs.

(** An interleaving on a mask of four clusters: invocation 3 reserves
    slot 0, invocation 0 slot 1, invocation 2 slot 2; cluster 1 is not
    flagged.  The stale entries past the counter stay. *)
Example compactor_interleaved :
  let s := Compactor.run [true; false; true; true] [3; 0; 2; 3; 0; 1; 2]%nat
             (Compactor.frame_start [true; false; true; true] [9; 9; 9; 9; 9]) in
  Compactor.finished s = true
  /\ unique_clusters_count (Compactor.ssbo s) = 3
  /\ unique_clusters (Compactor.ssbo s) = [3; 0; 2; 9; 9].
Proof. repeat split. Qed.

(** C2: from the frame's start state (counter reset to zero, a dense list
    with room for every cluster) the compactor terminates, and after every
    interleaving of its invocations that runs them all to completion, the
    first [unique_clusters_count] entries of the dense list hold, as a
    set, exactly the indices of the flagged clusters, each once, and
    [unique_clusters_count] is the number of flagged clusters. *)
Theorem C2_compaction_correct :
  forall (clusters_flags : list bool) (stale : list Z),
    Z.of_nat (length clusters_flags) < uint_modulus ->
    (length clusters_flags <= length stale)%nat ->
    Compactor.finished
      (Compactor.run clusters_flags (Compactor.sequential (length clusters_flags))
         (Compactor.frame_start clusters_flags stale)) = true
    /\ forall schedule : list nat,
        let s := Compactor.run clusters_flags schedule
                   (Compactor.frame_start clusters_flags stale) in
        Compactor.finished s = true ->
        (list_to_set (Compactor.active_list (Compactor.ssbo s)) : gset Z)
          = list_to_set (Z.of_nat <$> Compactor.flagged clusters_flags)
        /\ unique_clusters_count (Compactor.ssbo s)
           = Z.of_nat (length (Compactor.flagged clusters_flags))
        /\ NoDup (Compactor.active_list (Compactor.ssbo s)).
Proof.
  intros clusters_flags stale Hfits Hroom. split.
  - apply sequential_finished.
  - intros schedule s Hfin.
    destruct (compaction_result clusters_flags Hfits stale schedule Hroom Hfin)
      as [Hcount Hperm].
    fold s in Hperm, Hcount.
    split; [| split].
    + apply list_to_set_perm_L. exact Hperm.
    + exact Hcount.
    + rewrite Hperm. apply NoDup_fmap_2; [apply Nat2Z.inj' | apply flagged_nodup].
Qed.

Lemma C2_compaction_correct_witness :
  (Z.of_nat (length [true; false; true; true]) < uint_modulus
   /\ (length [true; false; true; true] <= length [9; 9; 9; 9; 9])%nat)
  /\ forall schedule : list nat,
       let s := Compactor.run [true; false; true; true] schedule
                  (Compactor.frame_start [true; false; true; true] [9; 9; 9; 9; 9]) in
       Compactor.finished s = true ->
       (list_to_set (Compactor.active_list (Compactor.ssbo s)) : gset Z)
         = list_to_set (Z.of_nat <$> Compactor.flagged [true; false; true; true])
       /\ unique_clusters_count (Compactor.ssbo s)
          = Z.of_nat (length (Compactor.flagged [true; false; true; true]))
       /\ NoDup (Compactor.active_list (Compactor.ssbo s)).
Proof.
  assert (H1 : Z.of_nat (length [true; false; true; true]) < uint_modulus)
    by reflexivity.
  assert (H2 : (length [true; false; true; true] <= length [9; 9; 9; 9; 9])%nat)
    by (simpl; lia).
  split; [split; assumption |].
  apply (C2_compaction_correct [true; false; true; true] [9; 9; 9; 9; 9] H1 H2).
Defined.

(** ** The depth slice of the cluster lookup *)

Section SliceProofs.
Local Open Scope R_scope.

Lemma Int_part_iff (r : R) (n : Z) :
  Int_part r = n <-> IZR n <= r < IZR n + 1.
Proof.
  split.
  - intros <-. destruct (base_Int_part r) as [Hle Hgt]. lra.
  - intros [Hle Hlt]. symmetry. apply Int_part_spec. lra.
Qed.

Lemma float_to_uint_floor (f : R) :
  0 <= f < IZR uint_modulus -> Lookup.float_to_uint f = Int_part f.
Proof.
  intros [Hlo Hhi]. unfold Lookup.float_to_uint.
  destruct (base_Int_part f) as [Hle Hgt].
  assert (H0 : (-1 < Int_part f)%Z) by (apply lt_IZR; lra).
  assert (H1 : (Int_part f < uint_modulus)%Z).
  { apply lt_IZR. lra. }
  lia.
Qed.

(** A saturated conversion that lands strictly inside the range is the
    floor itself. *)
Lemma float_to_uint_inside (f : R) (n : Z) :
  (0 < n < uint_modulus - 1)%Z ->
  Lookup.float_to_uint f = n -> Int_part f = n.
Proof. unfold Lookup.float_to_uint. lia. Qed.

Lemma float_to_uint_lower (f : R) (n : Z) :
  (0 <= n < uint_modulus)%Z -> IZR n <= f -> (n <= Lookup.float_to_uint f)%Z.
Proof.
  intros Hn Hle. unfold Lookup.float_to_uint.
  destruct (base_Int_part f) as [_ Hgt].
  assert (n < Int_part f + 1)%Z.
  { apply lt_IZR. rewrite plus_IZR. lra. }
  lia.
Qed.

Lemma exp_le (x y : R) : x <= y -> exp x <= exp y.
Proof.
  intros [Hlt | ->]; [left; now apply exp_increasing | right; reflexivity].
Qed.

Lemma exp_le_inv (x y : R) : exp x <= exp y -> x <= y.
Proof.
  intros H. destruct (Rle_or_lt x y) as [Hle | Hlt]; [exact Hle |].
  apply exp_increasing in Hlt. lra.
Qed.

(** Slice [n] of the lookup is the depth interval
    [[near * e^(n/k), near * e^((n+1)/k))]. *)
Lemma slice_interval (near k depth : R) (n : Z) :
  0 < near -> 0 < k -> 0 < depth ->
  Int_part (ln (depth / near) * k) = n
  <-> near * exp (IZR n / k) <= depth < near * exp ((IZR n + 1) / k).
Proof.
  intros Hnear Hk Hdepth.
  assert (Hq : 0 < depth / near) by (apply Rdiv_lt_0_compat; assumption).
  assert (Hd : depth = near * exp (ln (depth / near))).
  { rewrite exp_ln by exact Hq. field. lra. }
  set (L := ln (depth / near)) in *.
  rewrite Int_part_iff.
  assert (Ha : IZR n <= L * k <-> IZR n / k <= L).
  { split; intros H.
    - apply Rmult_le_reg_r with k; [exact Hk |].
      replace (IZR n / k * k) with (IZR n) by (field; lra). exact H.
    - replace (IZR n) with (IZR n / k * k) by (field; lra).
      apply Rmult_le_compat_r; lra. }
  assert (Hb : L * k < IZR n + 1 <-> L < (IZR n + 1) / k).
  { split; intros H.
    - apply Rmult_lt_reg_r with k; [exact Hk |].
      replace ((IZR n + 1) / k * k) with (IZR n + 1) by (field; lra). exact H.
    - replace (IZR n + 1) with ((IZR n + 1) / k * k) by (field; lra).
      apply Rmult_lt_compat_r; lra. }
  rewrite Ha, Hb. clearbody L.
  split; intros [H1 H2]; split.
  - rewrite Hd. apply Rmult_le_compat_l; [lra | now apply exp_le].
  - rewrite Hd. apply Rmult_lt_compat_l; [lra | now apply exp_increasing].
  - apply exp_le_inv. apply Rmult_le_reg_l with near; [assumption | lra].
  - apply exp_lt_inv. apply Rmult_lt_reg_l with near; [assumption | lra].
Qed.

(** Logarithms of the demo's constants, over [ln 2], [ln 3], [ln 5]. *)
Lemma ln_4 : ln 4 = 2 * ln 2.
Proof. replace 4 with (2 * 2) by lra. rewrite ln_mult by lra. lra. Qed.

Lemma ln_100 : ln 100 = 2 * ln 2 + 2 * ln 5.
Proof.
  replace 100 with (2 * 2 * (5 * 5)) by lra.
  rewrite !ln_mult by lra. lra.
Qed.

Lemma ln_30000 : ln 30000 = ln 3 + 4 * ln 2 + 4 * ln 5.
Proof.
  replace 30000 with (3 * (100 * 100)) by lra.
  rewrite !ln_mult by lra. rewrite ln_100. lra.
Qed.

Lemma ln_pow_lt (a b : R) (m n : nat) :
  0 < a -> 0 < b -> a ^ m < b ^ n -> INR m * ln a < INR n * ln b.
Proof.
  intros Ha Hb H. rewrite <- !ln_pow by assumption.
  apply ln_increasing; [apply pow_lt; exact Ha | exact H].
Qed.

Lemma ln_2_pos : 0 < ln 2.
Proof. rewrite <- ln_1. apply ln_increasing; lra. Qed.

Lemma ln_3_upper : ln 3 < 2 * ln 2.
Proof. pose proof (ln_pow_lt 3 2 1 2) as H. simpl in H. lra. Qed.

Lemma ln_3_lower : 11 * ln 2 < 7 * ln 3.
Proof. pose proof (ln_pow_lt 2 3 11 7) as H. simpl in H. lra. Qed.

Lemma ln_5_upper : ln 5 < 3 * ln 2.
Proof. pose proof (ln_pow_lt 5 2 1 3) as H. simpl in H. lra. Qed.

Lemma ln_5_lower : 9 * ln 2 < 4 * ln 5.
Proof. pose proof (ln_pow_lt 2 5 9 4) as H. simpl in H. lra. Qed.

(** The specification's formula with the host's parameters, at a depth
    of [2^j] times the near plane. *)
Lemma spec_slice_demo (j : R) (viewZ : R) :
  ln (viewZ / (1 / 100)) = j * ln 2 ->
  HostSlices.log2f (viewZ / (1 / 100))
    * HostSlices.init_slice_scale HostSlices.demo_grid_size HostSlices.demo_camera
    + HostSlices.init_slice_bias HostSlices.demo_grid_size HostSlices.demo_camera
  = 24 * ((j + 2) * ln 2 + 2 * ln 5) / (ln 3 + 4 * ln 2 + 4 * ln 5).
Proof.
  intros Hj.
  unfold HostSlices.init_slice_scale, HostSlices.init_slice_bias,
    HostSlices.log2f. simpl.
  replace (300 / (1 / 100)) with 30000 by lra.
  replace (1 / 100) with (/ 100) by lra.
  replace (viewZ / / 100) with (viewZ / (1 / 100)) by (f_equal; lra).
  rewrite Hj, ln_Rinv by lra. rewrite ln_30000, ln_100.
  pose proof ln_2_pos. pose proof ln_3_lower. pose proof ln_5_lower.
  field. split; lra.
Qed.

Lemma spec_slice_near_times_2 :
  SpecSlice.slice_index (1 / 100)
    (HostSlices.init_slice_scale HostSlices.demo_grid_size HostSlices.demo_camera)
    (HostSlices.init_slice_bias HostSlices.demo_grid_size HostSlices.demo_camera)
    (1 / 50) = 12%Z.
Proof.
  unfold SpecSlice.slice_index.
  rewrite (spec_slice_demo 1).
  2:{ replace (1 / 50 / (1 / 100)) with 2 by lra. lra. }
  pose proof ln_2_pos. pose proof ln_3_lower. pose proof ln_3_upper.
  pose proof ln_5_lower. pose proof ln_5_upper.
  set (c := ln 3 + 4 * ln 2 + 4 * ln 5).
  assert (Hc : 0 < c) by (unfold c; lra).
  apply Int_part_iff. simpl. split.
  - apply Rmult_le_reg_r with c; [exact Hc |].
    replace (24 * ((1 + 2) * ln 2 + 2 * ln 5) / c * c)
      with (24 * ((1 + 2) * ln 2 + 2 * ln 5)) by (field; lra).
    unfold c. lra.
  - apply Rmult_lt_reg_r with c; [exact Hc |].
    replace (24 * ((1 + 2) * ln 2 + 2 * ln 5) / c * c)
      with (24 * ((1 + 2) * ln 2 + 2 * ln 5)) by (field; lra).
    unfold c. lra.
Qed.

Lemma spec_slice_near_times_4 :
  SpecSlice.slice_index (1 / 100)
    (HostSlices.init_slice_scale HostSlices.demo_grid_size HostSlices.demo_camera)
    (HostSlices.init_slice_bias HostSlices.demo_grid_size HostSlices.demo_camera)
    (1 / 25) = 13%Z.
Proof.
  unfold SpecSlice.slice_index.
  rewrite (spec_slice_demo 2).
  2:{ replace (1 / 25 / (1 / 100)) with 4 by lra. apply ln_4. }
  pose proof ln_2_pos. pose proof ln_3_lower. pose proof ln_3_upper.
  pose proof ln_5_lower. pose proof ln_5_upper.
  set (c := ln 3 + 4 * ln 2 + 4 * ln 5).
  assert (Hc : 0 < c) by (unfold c; lra).
  apply Int_part_iff. simpl. split.
  - apply Rmult_le_reg_r with c; [exact Hc |].
    replace (24 * ((2 + 2) * ln 2 + 2 * ln 5) / c * c)
      with (24 * ((2 + 2) * ln 2 + 2 * ln 5)) by (field; lra).
    unfold c. lra.
  - apply Rmult_lt_reg_r with c; [exact Hc |].
    replace (24 * ((2 + 2) * ln 2 + 2 * ln 5) / c * c)
      with (24 * ((2 + 2) * ln 2 + 2 * ln 5)) by (field; lra).
    unfold c. lra.
Qed.

(** Whatever the scale uniform, the lookup cannot give slice 12 at twice
    the near depth and slice 13 at four times the near depth: doubling
    the ratio doubles the scaled logarithm. *)
Lemma lookup_doubles (u : Lookup.Uniforms) (screen_pos : R * R) :
  Lookup.u_near_z u = 1 / 100 ->
  uz (Lookup.computeClusterIndex3D u screen_pos (- (1 / 50))) = 12%Z ->
  (24 <= uz (Lookup.computeClusterIndex3D u screen_pos (- (1 / 25))))%Z.
Proof.
  intros Hnear. unfold Lookup.computeClusterIndex3D. simpl. rewrite Hnear.
  replace (- - (1 / 50) / (1 / 100)) with 2 by lra.
  replace (- - (1 / 25) / (1 / 100)) with 4 by lra.
  rewrite ln_4. intros H12.
  apply float_to_uint_inside in H12; [| unfold uint_modulus; simpl; lia].
  apply Int_part_iff in H12. simpl in H12.
  apply float_to_uint_lower; [unfold uint_modulus; simpl; lia |].
  simpl. lra.
Qed.

(** A value within [delta] of an exact one that keeps [delta] away from
    the integers around it has the floor of the exact one. *)
Lemma float_to_uint_robust (computed exact delta : R) (n : Z) :
  Rabs (computed - exact) <= delta ->
  (0 <= n < uint_modulus)%Z ->
  IZR n + delta <= exact < IZR n + 1 - delta ->
  Lookup.float_to_uint computed = n /\ Int_part exact = n.
Proof.
  intros Hacc Hn [Hlo Hhi].
  assert (Hab : - delta <= computed - exact <= delta).
  { unfold Rabs in Hacc. destruct (Rcase_abs (computed - exact)); lra. }
  assert (Hc : IZR n <= computed < IZR n + 1) by lra.
  assert (Hup : IZR n + 1 <= IZR uint_modulus).
  { rewrite <- plus_IZR. apply IZR_le. lia. }
  assert (H0 : 0 <= IZR n) by (apply IZR_le; lia).
  split.
  - rewrite float_to_uint_floor by lra. apply Int_part_iff. exact Hc.
  - apply Int_part_iff. lra.
Qed.

(** The scaled logarithm of the depth ratio lies in [[a, b)] exactly when
    the depth lies in [[near * e^(a/k), near * e^(b/k))]. *)
Lemma scaled_log_interval (near k depth a b : R) :
  0 < near -> 0 < k -> 0 < depth ->
  a <= ln (depth / near) * k < b
  <-> near * exp (a / k) <= depth < near * exp (b / k).
Proof.
  intros Hnear Hk Hdepth.
  assert (Hq : 0 < depth / near) by (apply Rdiv_lt_0_compat; assumption).
  assert (Hd : depth = near * exp (ln (depth / near))).
  { rewrite exp_ln by exact Hq. field. lra. }
  set (L := ln (depth / near)) in *.
  assert (Ha : a <= L * k <-> a / k <= L).
  { split; intros H.
    - apply Rmult_le_reg_r with k; [exact Hk |].
      replace (a / k * k) with a by (field; lra). exact H.
    - replace a with (a / k * k) by (field; lra).
      apply Rmult_le_compat_r; lra. }
  assert (Hb : L * k < b <-> L < b / k).
  { split; intros H.
    - apply Rmult_lt_reg_r with k; [exact Hk |].
      replace (b / k * k) with b by (field; lra). exact H.
    - replace b with (b / k * k) by (field; lra).
      apply Rmult_lt_compat_r; lra. }
  rewrite Ha, Hb. clearbody L.
  split; intros [H1 H2]; split.
  - rewrite Hd. apply Rmult_le_compat_l; [lra | now apply exp_le].
  - rewrite Hd. apply Rmult_lt_compat_l; [lra | now apply exp_increasing].
  - apply exp_le_inv. apply Rmult_le_reg_l with near; [assumption | lra].
  - apply exp_lt_inv. apply Rmult_lt_reg_l with near; [assumption | lra].
Qed.

(** With operations that do not round, the lookup in the device's
    arithmetic is the exact one. *)
Lemma exact_lookup (u : Lookup.Uniforms) (screen_pos : R * R) (view_z : R) :
  LookupFloat.computeClusterIndex3D (F := LookupFloat.exact) u screen_pos view_z
  = Lookup.computeClusterIndex3D u screen_pos view_z.
Proof. reflexivity. Qed.

(** [ln 2] between 1/500 and 1, and the logarithm just above 2. *)
Lemma ln_2_bounds : 1 / 500 <= ln 2 < 1.
Proof.
  split.
  - apply exp_le_inv. rewrite exp_ln by lra.
    pose proof (exp_ineq1_le (- (1 / 500))) as H.
    assert (He : exp (1 / 500) * exp (- (1 / 500)) = 1).
    { rewrite <- exp_plus. replace (1 / 500 + - (1 / 500)) with 0 by lra.
      apply exp_0. }
    pose proof (exp_pos (1 / 500)) as Hp. nra.
  - pose proof (exp_ineq1 1 ltac:(lra)) as H.
    apply exp_lt_inv. rewrite exp_ln by lra. lra.
Qed.

Lemma ln_above (q e : R) : 0 < q -> 0 <= e -> ln q <= ln (q + e) <= ln q + e / q.
Proof.
  intros Hq He.
  assert (Hx : 0 <= e / q) by (apply Rle_mult_inv_pos; assumption).
  replace (q + e) with (q * (1 + e / q)) by (field; lra).
  rewrite ln_mult by lra.
  assert (H0 : 0 <= ln (1 + e / q)).
  { rewrite <- ln_1. destruct Hx as [Hx | <-].
    - left. apply ln_increasing; lra.
    - rewrite Rplus_0_r. lra. }
  assert (H1 : ln (1 + e / q) <= e / q).
  { apply exp_le_inv. rewrite exp_ln by lra. apply exp_ineq1_le. }
  lra.
Qed.

End SliceProofs.

(** C1 (as amended): for a fragment at or beyond the near plane, the Z
    component of the cluster index is what the device computes for
    [log(-view_z / u_near_z) * u_log_grid_dim_y], truncated: the natural
    logarithm of the depth ratio times the one uniform [u_log_grid_dim_y],
    with no bias term; the host's [m_slice_scale] and [m_slice_bias] are not
    inputs of the lookup.  When the device's value is within [delta] of the
    exact one [L = ln(-view_z / u_near_z) * u_log_grid_dim_y] and [L] lies
    in [[n + delta, n + 1 - delta)], the component is [n], the floor of [L].
    Depth slices grow geometrically: for a positive scale [k] these are the
    depths in [[near * e^((n + delta)/k), near * e^((n + 1 - delta)/k))]. *)
Theorem C1_slice_is_scaled_log :
  forall (F : LookupFloat.GpuFloat) (u : Lookup.Uniforms) (screen_pos : R * R)
      (view_z delta : R) (n : Z),
    let near := Lookup.u_near_z u in
    let k := Lookup.u_log_grid_dim_y u in
    let L := (ln (- view_z / near) * k)%R in
    (0 < near)%R ->
    (near <= - view_z)%R ->
    (Rabs (LookupFloat.fmul
             (LookupFloat.flog (LookupFloat.fdiv (- view_z) near)) k - L)
       <= delta)%R ->
    0 <= n < uint_modulus ->
    (IZR n + delta <= L < IZR n + 1 - delta)%R ->
    uz (LookupFloat.computeClusterIndex3D u screen_pos view_z) = n
    /\ Int_part L = n
    /\ ((0 < k)%R ->
        (near * exp ((IZR n + delta) / k) <= - view_z
           < near * exp ((IZR n + 1 - delta) / k))%R)
    /\ ((0 < k)%R ->
        forall depth : R,
          (0 < depth)%R ->
          ((IZR n + delta <= ln (depth / near) * k < IZR n + 1 - delta)%R
           <-> (near * exp ((IZR n + delta) / k) <= depth
                < near * exp ((IZR n + 1 - delta) / k))%R)).
Proof.
  intros F u screen_pos view_z delta n near k L Hnear Hdepth Hacc Hn HL.
  destruct (float_to_uint_robust _ L delta n Hacc Hn HL) as [Hz Hfloor].
  split; [exact Hz |]. split; [exact Hfloor |].
  split.
  - intros Hk. apply scaled_log_interval; [exact Hnear | exact Hk | lra |].
    exact HL.
  - intros Hk depth Hd. apply scaled_log_interval; assumption.
Qed.

(** Near plane 1/2, scale 1/2, a fragment at depth 1, on a device whose
    quotients and products are [2^-20] too large: slice 0. *)
Lemma C1_slice_is_scaled_log_witness :
  ((0 < 1 / 2)%R /\ (1 / 2 <= - - (1))%R
   /\ (Rabs (LookupFloat.fmul (GpuFloat := LookupFloat.coarse)
               (LookupFloat.flog (GpuFloat := LookupFloat.coarse)
                  (LookupFloat.fdiv (GpuFloat := LookupFloat.coarse)
                     (- - (1)) (1 / 2)))
               (1 / 2)
             - ln (- - (1) / (1 / 2)) * (1 / 2)) <= 1 / 1000)%R
   /\ 0 <= 0 < uint_modulus
   /\ (IZR 0 + 1 / 1000 <= ln (- - (1) / (1 / 2)) * (1 / 2)
        < IZR 0 + 1 - 1 / 1000)%R)
  /\ uz (LookupFloat.computeClusterIndex3D (F := LookupFloat.coarse)
           (Lookup.mkUniforms (1 / 2) (Uvec3 16 9 24) (Uvec2 80 80) (1 / 2) false)
           (0%R, 0%R) (- (1))) = 0.
Proof.
  assert (E : (- - (1) / (1 / 2) = 2)%R) by lra.
  pose proof ln_2_bounds as [Hlo Hhi].
  pose proof (ln_above 2 (/ 2 ^ 20)) as Habove.
  assert (Heps : (0 < / 2 ^ 20 < 1 / 1000000)%R).
  { split; [apply Rinv_0_lt_compat; lra |].
    apply Rmult_lt_reg_r with (2 ^ 20)%R; [lra |].
    rewrite Rinv_l by lra. lra. }
  specialize (Habove ltac:(lra) ltac:(lra)).
  assert (H1 : (0 < 1 / 2)%R) by lra.
  assert (H2 : (1 / 2 <= - - (1))%R) by lra.
  assert (H3 : (Rabs (LookupFloat.fmul (GpuFloat := LookupFloat.coarse)
               (LookupFloat.flog (GpuFloat := LookupFloat.coarse)
                  (LookupFloat.fdiv (GpuFloat := LookupFloat.coarse)
                     (- - (1)) (1 / 2)))
               (1 / 2)
             - ln (- - (1) / (1 / 2)) * (1 / 2)) <= 1 / 1000)%R).
  { unfold LookupFloat.fmul, LookupFloat.flog, LookupFloat.fdiv,
      LookupFloat.coarse.
    rewrite E. set (eps := (/ 2 ^ 20)%R) in *. apply Rabs_le. lra. }
  assert (H4 : 0 <= 0 < uint_modulus) by (unfold uint_modulus; lia).
  assert (H5 : (IZR 0 + 1 / 1000 <= ln (- - (1) / (1 / 2)) * (1 / 2)
                < IZR 0 + 1 - 1 / 1000)%R).
  { rewrite E. lra. }
  split; [exact (conj H1 (conj H2 (conj H3 (conj H4 H5)))) |].
  exact (proj1 (C1_slice_is_scaled_log LookupFloat.coarse
                  (Lookup.mkUniforms (1 / 2) (Uvec3 16 9 24) (Uvec2 80 80)
                     (1 / 2) false)
                  (0%R, 0%R) (- (1))%R (1 / 1000)%R 0 H1 H2 H3 H4 H5)).
Defined.

(** With the host's camera (near 0.01, far 300) and grid (24 slices), the
    specification's formula gives slice 12 at depth 0.02 and slice 13 at
    depth 0.04.  The lookup, with the uniforms [renderLighting] leaves,
    gives slice 0 at depth 0.02; and with any value of [u_log_grid_dim_y]
    it cannot give 12 at depth 0.02 and 13 at depth 0.04, because it has no
    bias term. *)
Lemma C1_lookup_differs_from_spec_formula :
  ((1 / 100 < 1 / 50 < 300)%R /\ (1 / 100 < 1 / 25 < 300)%R)
  /\ SpecSlice.slice_index (1 / 100)
       (HostSlices.init_slice_scale HostSlices.demo_grid_size HostSlices.demo_camera)
       (HostSlices.init_slice_bias HostSlices.demo_grid_size HostSlices.demo_camera)
       (1 / 50) = 12
  /\ SpecSlice.slice_index (1 / 100)
       (HostSlices.init_slice_scale HostSlices.demo_grid_size HostSlices.demo_camera)
       (HostSlices.init_slice_bias HostSlices.demo_grid_size HostSlices.demo_camera)
       (1 / 25) = 13
  /\ uz (Lookup.computeClusterIndex3D
           (HostSlices.renderLighting_uniforms HostSlices.demo_camera false)
           (0%R, 0%R) (- (1 / 50))) = 0
  /\ (forall (u : Lookup.Uniforms) (screen_pos : R * R),
        Lookup.u_near_z u = (1 / 100)%R ->
        uz (Lookup.computeClusterIndex3D u screen_pos (- (1 / 50))) = 12 ->
        24 <= uz (Lookup.computeClusterIndex3D u screen_pos (- (1 / 25)))).
Proof.
  split; [split; lra |].
  split; [apply spec_slice_near_times_2 |].
  split; [apply spec_slice_near_times_4 |].
  split.
  - unfold Lookup.computeClusterIndex3D, HostSlices.renderLighting_uniforms.
    simpl. rewrite Rmult_0_r.
    rewrite float_to_uint_floor by (unfold uint_modulus; simpl; lra).
    apply Int_part_iff. simpl. lra.
  - apply lookup_doubles.
Qed.

(** ** The light loops of the fragment shader *)

Section ShadingProofs.
Context {L : PbrLighting}.
Import Shading.

Lemma foldl_map_fuse {A B C : Type} (f : C -> B -> C) (g : A -> B) (l : list A) :
  forall c, foldl f c (map g l) = foldl (fun c a => f c (g a)) c l.
Proof. induction l as [| a l IH]; intros c; simpl; [reflexivity | apply IH]. Qed.

(** A counted loop that adds one light per round is the accumulation
    over the lights it reads. *)
Lemma uint_for_accumulate {A : Type} (calc : A -> vec3 R) (read : Z -> A)
    (n : Z) (r : vec3 R) :
  uint_for n (fun i r => vadd r (calc (read i))) r
  = accumulate calc (map (fun i => read (Z.of_nat i)) (seq 0 (Z.to_nat n))) r.
Proof.
  unfold uint_for, accumulate. rewrite foldl_map_fuse. reflexivity.
Qed.

(** Reading a buffer at every position gives the buffer. *)
Lemma read_all {A : Type} (d : A) (l : list A) :
  map (fun i => buffer_read d l (Z.of_nat i))
      (seq 0 (Z.to_nat (Z.of_nat (length l)))) = l.
Proof.
  rewrite Nat2Z.id. apply list_eq. intros i.
  change (map ?f ?k) with (f <$> k).
  rewrite list_lookup_fmap.
  destruct (decide (i < length l)%nat) as [Hi | Hi].
  - rewrite lookup_seq_lt by exact Hi. simpl.
    unfold buffer_read. rewrite Nat2Z.id.
    destruct (lookup_lt_is_Some_2 _ _ Hi) as [x Hx]. rewrite Hx. reflexivity.
  - rewrite lookup_seq_ge by lia. simpl.
    symmetry. apply lookup_ge_None_2. lia.
Qed.

End ShadingProofs.

(** C6: for every fragment, whatever cluster it falls into and whatever
    the light grids and index lists hold, the radiance of the shading
    stage is the sum, in this order, of the contribution of every light of
    the directional-light buffer, of the point lights in the index range
    of the fragment's cluster, of the spot lights in the index range of
    the fragment's cluster, of the image-based term and of the emission;
    outside the slice-debug mode this radiance is the fragment's colour. *)
Theorem C6_directional_lights_unculled :
  forall (L : PbrLighting) (u : Lookup.Uniforms) (b : Shading.Buffers)
         (f : Shading.Fragment),
    let material := getMaterialProperties (normalize (Shading.in_normal f)) in
    let cluster :=
      Lookup.cluster_index u (Shading.gl_FragCoord_xy f)
        (vec_z (Shading.in_view_pos f)) in
    let directional :=
      Shading.accumulate
        (fun l => calcDirectionalLight l (Shading.in_world_pos f) material)
        (Shading.dir_lights b) Shading.vzero in
    let with_point :=
      Shading.accumulate
        (fun l => calcPointLight l (Shading.in_world_pos f) material)
        (Shading.cluster_lights unbound_point (Shading.point_lights b)
           (Shading.point_light_index_list b) (Shading.point_light_grid b) cluster)
        directional in
    let with_spot :=
      Shading.accumulate
        (fun l => calcSpotLight l (Shading.in_world_pos f) material)
        (Shading.cluster_lights unbound_spot (Shading.spot_lights b)
           (Shading.spot_light_index_list b) (Shading.spot_light_grid b) cluster)
        with_point in
    Shading.radiance u b f
    = Shading.vadd
        (Shading.vadd with_spot
           (indirectLightingIBL (Shading.in_world_pos f) material))
        (emission material)
    /\ (Lookup.u_debug_slices u = false ->
        Shading.main u b f = (Shading.radiance u b f, 1%R)).
Proof.
  intros L u b f material cluster directional with_point with_spot.
  split.
  - unfold Shading.radiance.
    rewrite (uint_for_accumulate
               (fun l => calcDirectionalLight l (Shading.in_world_pos f) material)
               (Shading.buffer_read unbound_directional (Shading.dir_lights b))).
    rewrite read_all.
    rewrite (uint_for_accumulate
               (fun l => calcPointLight l (Shading.in_world_pos f) material)
               (fun i => Shading.buffer_read unbound_point (Shading.point_lights b)
                  (Shading.buffer_read 0 (Shading.point_light_index_list b)
                     (uadd (offset (Shading.buffer_read (mkLightGrid 0 0)
                                      (Shading.point_light_grid b) cluster)) i)))).
    rewrite (uint_for_accumulate
               (fun l => calcSpotLight l (Shading.in_world_pos f) material)
               (fun i => Shading.buffer_read unbound_spot (Shading.spot_lights b)
                  (Shading.buffer_read 0 (Shading.spot_light_index_list b)
                     (uadd (offset (Shading.buffer_read (mkLightGrid 0 0)
                                      (Shading.spot_light_grid b) cluster)) i)))).
    reflexivity.
  - intros Hdebug. unfold Shading.main. rewrite Hdebug. reflexivity.
Qed.

(** ** [hsv2rgb] *)

Section HostProofs.
Import Host.
Local Open Scope Q_scope.

Lemma float_to_int_floor (q : Q) : 0 <= q -> float_to_int q = Qfloor q.
Proof.
  destruct q as [n d]. unfold Qle, float_to_int. simpl. intros H.
  apply Z.quot_div_nonneg; lia.
Qed.

Lemma float_to_int_bounds (q : Q) :
  0 <= q -> inject_Z (float_to_int q) <= q < inject_Z (float_to_int q) + 1.
Proof.
  intros H. rewrite float_to_int_floor by exact H. split.
  - apply Qfloor_le.
  - pose proof (Qlt_floor q) as Hlt. rewrite inject_Z_plus in Hlt. exact Hlt.
Qed.

Lemma float_to_int_range (q : Q) (n : Z) :
  0 <= q -> q < inject_Z n -> (0 <= float_to_int q < n)%Z.
Proof.
  intros H0 Hn. destruct (float_to_int_bounds q H0) as [Hlo Hhi].
  split.
  - rewrite float_to_int_floor by exact H0.
    change 0%Z with (Qfloor 0). apply Qfloor_resp_le. exact H0.
  - rewrite Zlt_Qlt. lra.
Qed.

(** For a non-negative argument, [fmodf(x, 2)] lies in [[0, 2)]. *)
Lemma fmodf_2_range (x : Q) : 0 <= x -> 0 <= fmodf x 2 < 2.
Proof.
  intros Hx. unfold fmodf.
  assert (Hhalf : 0 <= x / 2) by (apply Qle_shift_div_l; lra).
  destruct (float_to_int_bounds (x / 2) Hhalf) as [Hlo Hhi].
  set (k := inject_Z (float_to_int (x / 2))) in *.
  assert (E : x == 2 * (x / 2)) by (field).
  split; lra.
Qed.

(** The chroma ramp [1 - |fmodf(H2, 2) - 1|] lies in [[0, 1]]. *)
Lemma ramp_range (x : Q) : 0 <= x -> 0 <= 1 - fabsf (fmodf x 2 - 1) <= 1.
Proof.
  intros Hx. destruct (fmodf_2_range x Hx) as [Hlo Hhi].
  unfold fabsf. split.
  - assert (Qabs (fmodf x 2 - 1) <= 1) by (apply Qabs_Qle_condition; lra).
    lra.
  - pose proof (Qabs_nonneg (fmodf x 2 - 1)). lra.
Qed.

Lemma hsv2rgb_in_range (H S V : Q) :
  0 <= H -> H < 360 -> 0 <= S <= 1 -> 0 <= V <= 1 ->
  (0 <= float_to_int (H / 60) <= 5)%Z
  /\ exists rgb, hsv2rgb H S V = Some rgb /\ rgb_in_range rgb.
Proof.
  intros H0 H360 HS HV.
  assert (Hh2 : 0 <= H / 60) by (apply Qle_shift_div_l; lra).
  assert (Hh2' : H / 60 < inject_Z 6).
  { apply Qlt_shift_div_r; [reflexivity |].
    change (inject_Z 6 * 60) with (360 # 1)%Q. exact H360. }
  pose proof (float_to_int_range _ 6 Hh2 Hh2') as Hn.
  split; [lia |].
  pose proof (ramp_range (H / 60) Hh2) as Hw.
  unfold hsv2rgb.
  set (w := 1 - fabsf (fmodf (H / 60) 2 - 1)) in *.
  assert (HC : 0 <= V * S <= V) by (split; nra).
  assert (HX : 0 <= V * S * w <= V * S) by (split; nra).
  assert (Hcase : (float_to_int (H / 60) = 0 \/ float_to_int (H / 60) = 1
                   \/ float_to_int (H / 60) = 2 \/ float_to_int (H / 60) = 3
                   \/ float_to_int (H / 60) = 4 \/ float_to_int (H / 60) = 5)%Z)
    by lia.
  destruct Hcase as [E | [E | [E | [E | [E | E]]]]]; rewrite E; simpl;
    eexists; (split; [reflexivity |]);
    unfold rgb_in_range, unit_interval; simpl; repeat split; lra.
Qed.

Lemma hsv2rgb_360 (S V : Q) : hsv2rgb 360 S V = None.
Proof. reflexivity. Qed.

End HostProofs.

(** ** [GeneratePointLights] *)

Section GenerateProofs.
Import Host.
Local Open Scope Q_scope.

Variable order : Host.argument_order.
Variable unit_rand : nat -> Q.
Variables cosf sinf : Q -> Q.
Hypothesis unit_rand_range : forall k, 0 <= unit_rand k <= 1.

Abbreviation generate_one := (Host.generate_one order unit_rand cosf sinf).
Abbreviation generate_loop := (Host.generate_loop order unit_rand cosf sinf).

Lemma linearRand_between (Min Max : Q) (n : nat) :
  (Min <= Max -> Min <= fst (linearRand unit_rand Min Max n) <= Max)
  /\ (Max <= Min -> Max <= fst (linearRand unit_rand Min Max n) <= Min).
Proof.
  unfold linearRand. simpl. pose proof (unit_rand_range n) as Hu.
  split; intros Hle; split; nra.
Qed.

Lemma generate_one_generated (app : App) (n : nat) :
  generated app
    (fst (fst (generate_one (m_point_lights_intensity app)
                 (min_max_point_light_radius app) n))).
Proof.
  pose proof (unit_rand_range (S (S (S (S (S n)))))) as Hy.
  pose proof (unit_rand_range (S (S (S (S (S (S n))))))) as Hr.
  unfold generated, Host.generate_one, hsv2rgb_arguments.
  destruct order; unfold bind, ret, linearRand; simpl;
    (split; [reflexivity |]);
    (split; [split; lra |]);
    split; intros Hle; split; nra.
Qed.

(** The loop keeps the two lengths, and every entry it has passed
    satisfies [generated]. *)
Lemma generate_loop_spec (rounds : nat) : forall (i : nat) (app : App) (n : nat),
  length (m_point_lights app) = (i + rounds)%nat ->
  length (m_ellipses_radii app) = (i + rounds)%nat ->
  Forall (generated app) (take i (m_point_lights app)) ->
  let app' := fst (generate_loop rounds i app n) in
  length (m_point_lights app') = (i + rounds)%nat
  /\ length (m_ellipses_radii app') = (i + rounds)%nat
  /\ m_point_lights_count app' = m_point_lights_count app
  /\ Forall (generated app) (m_point_lights app').
Proof.
  induction rounds as [| rounds IH]; intros i app n Hl He Hdone; simpl.
  - rewrite Nat.add_0_r in *. repeat split; try assumption.
    rewrite <- Hl in Hdone. rewrite firstn_all in Hdone. exact Hdone.
  - destruct (generate_one (m_point_lights_intensity app)
                (min_max_point_light_radius app) n) as [pe n'] eqn:Hone.
    pose proof (generate_one_generated app n) as Hp.
    rewrite Hone in Hp. simpl in Hp.
    set (app1 := mkApp (m_point_lights_count app) (m_point_lights_intensity app)
                   (min_max_point_light_radius app)
                   (<[i := fst pe]> (m_point_lights app))
                   (<[i := snd pe]> (m_ellipses_radii app))).
    assert (Hstep : bind (generate_one (m_point_lights_intensity app)
                            (min_max_point_light_radius app))
                      (fun pe => generate_loop rounds (S i)
                         (mkApp (m_point_lights_count app)
                            (m_point_lights_intensity app)
                            (min_max_point_light_radius app)
                            (<[i := fst pe]> (m_point_lights app))
                            (<[i := snd pe]> (m_ellipses_radii app)))) n
                    = generate_loop rounds (S i) app1 n').
    { unfold bind at 1. rewrite Hone. reflexivity. }
    rewrite Hstep.
    destruct (IH (S i) app1 n') as (H1 & H2 & H3 & H4).
    + unfold app1. simpl. rewrite length_insert. lia.
    + unfold app1. simpl. rewrite length_insert. lia.
    + unfold app1. simpl.
      rewrite (take_S_r _ i (fst pe))
        by (apply list_lookup_insert_eq; lia).
      rewrite take_insert_ge by lia.
      apply Forall_app. split; [exact Hdone |].
      apply Forall_singleton. exact Hp.
    + split; [etransitivity; [exact H1 | lia] |].
      split; [etransitivity; [exact H2 | lia] |].
      split; [exact H3 | exact H4].
Qed.

Lemma GeneratePointLights_spec (app : App) (n : nat) :
  let app' := fst (GeneratePointLights order unit_rand cosf sinf app n) in
  length (m_point_lights app') = m_point_lights_count app
  /\ length (m_ellipses_radii app') = m_point_lights_count app
  /\ Forall (generated app) (m_point_lights app').
Proof.
  unfold GeneratePointLights. simpl. rewrite length_replicate.
  set (app0 := mkApp (m_point_lights_count app) (m_point_lights_intensity app)
                 (min_max_point_light_radius app)
                 (replicate (m_point_lights_count app) zero_light)
                 (replicate (m_point_lights_count app) zero_vec4)).
  destruct (generate_loop_spec (m_point_lights_count app) 0 app0 n)
    as (H1 & H2 & H3 & H4).
  - unfold app0. simpl. apply length_replicate.
  - unfold app0. simpl. apply length_replicate.
  - simpl. constructor.
  - repeat split; assumption.
Qed.

End GenerateProofs.

(** Values of [hsv2rgb]: pure red, pure green, and the hue 360 that no
    case of the [switch] takes. *)
Example hsv2rgb_red : Host.hsv2rgb 0 1 1 = Some (Vec3 1 (0 # 60) 0)%Q.
Proof. reflexivity. Qed.

Example hsv2rgb_green : Host.hsv2rgb 120 1 1 = Some (Vec3 0 1 (0 # 60))%Q.
Proof. reflexivity. Qed.

Example hsv2rgb_hue_360 : Host.hsv2rgb 360 1 1 = None.
Proof. reflexivity. Qed.

(** C9: for a hue in [[0, 360)] and saturation and value in [[0, 1]],
    [hsv2rgb] takes one of the six cases of its [switch] and returns a
    colour whose three components lie in [[0, 1]].  [GeneratePointLights]
    draws the hue from [[1, 360]]; the bound 360 is drawn when the generator
    returns its largest value, and for the hue 360 no case applies: in
    whichever order the compiler evaluates the arguments of the call, when
    the draw that feeds the hue is 1 the light's colour is left
    indeterminate. *)
Theorem C9_hsv2rgb_cases_and_range :
  forall H S V : Q,
    (0 <= H)%Q -> (H < 360)%Q -> (0 <= S <= 1)%Q -> (0 <= V <= 1)%Q ->
    ((0 <= Host.float_to_int (H / 60) <= 5)
     /\ exists rgb, Host.hsv2rgb H S V = Some rgb /\ Host.rgb_in_range rgb)
    /\ (forall (unit_rand : nat -> Q) (n : nat),
          (0 <= unit_rand n <= 1)%Q ->
          (1 <= fst (Host.linearRand unit_rand 1 360 n) <= 360)%Q)
    /\ (forall (order : Host.argument_order) (unit_rand : nat -> Q)
               (cosf sinf : Q -> Q) (intensity_ : Q) (min_max : Q * Q)
               (n : nat),
          unit_rand (2 + Host.hue_draw order + n)%nat = 1%Q ->
          fst (Host.linearRand unit_rand 1 360 (2 + Host.hue_draw order + n)%nat)
          = 360%Q
          /\ Host.color
               (fst (fst (Host.generate_one order unit_rand cosf sinf
                            intensity_ min_max n)))
             = None)
    /\ Host.hsv2rgb 360 S V = None.
Proof.
  intros H S V H0 H360 HS HV.
  split; [now apply hsv2rgb_in_range |].
  split.
  { intros unit_rand n Hu. unfold Host.linearRand. simpl. split; lra. }
  split; [| reflexivity].
  intros order unit_rand cosf sinf intensity_ min_max n Hu.
  unfold Host.generate_one, Host.hsv2rgb_arguments.
  destruct order; unfold Host.bind, Host.ret, Host.linearRand;
    simpl in *; rewrite Hu; split; reflexivity.
Qed.

Lemma C9_hsv2rgb_cases_and_range_witness :
  ((0 <= 200)%Q /\ (200 < 360)%Q /\ (0 <= 1 # 2 <= 1)%Q /\ (0 <= 3 # 4 <= 1)%Q)
  /\ (0 <= Host.float_to_int (200 / 60) <= 5)
  /\ exists rgb, Host.hsv2rgb 200 (1 # 2) (3 # 4) = Some rgb /\ Host.rgb_in_range rgb.
Proof.
  assert (H1 : (0 <= 200)%Q) by (unfold Qle; simpl; lia).
  assert (H2 : (200 < 360)%Q) by reflexivity.
  assert (H3 : (0 <= 1 # 2 <= 1)%Q) by (split; unfold Qle; simpl; lia).
  assert (H4 : (0 <= 3 # 4 <= 1)%Q) by (split; unfold Qle; simpl; lia).
  split; [split; [exact H1 | split; [exact H2 | split; [exact H3 | exact H4]]] |].
  exact (proj1 (C9_hsv2rgb_cases_and_range 200 (1 # 2) (3 # 4) H1 H2 H3 H4)).
Defined.

(** C10 (as amended): after [GeneratePointLights] returns, the point-light
    list and the ellipse-radii list both have [m_point_lights_count]
    elements, and every generated light has the intensity
    [m_point_lights_intensity], a height [position.y] in [[0.5, 12]] and a
    radius between the two bounds of [min_max_point_light_radius]: in
    [[x, y]] when [x <= y], in [[y, x]] when [y <= x]. *)
Theorem C10_generated_lights :
  forall (order : Host.argument_order) (unit_rand : nat -> Q)
      (cosf sinf : Q -> Q) (app : Host.App) (n : nat),
    (forall k, 0 <= unit_rand k <= 1)%Q ->
    let app' :=
      fst (Host.GeneratePointLights order unit_rand cosf sinf app n) in
    length (Host.m_point_lights app') = Host.m_point_lights_count app
    /\ length (Host.m_ellipses_radii app') = Host.m_point_lights_count app
    /\ Forall (Host.generated app) (Host.m_point_lights app').
Proof.
  intros order unit_rand cosf sinf app n Hrand.
  apply GeneratePointLights_spec. exact Hrand.
Qed.

(** The demo's initial members (50 lights, intensity 1, radii 10 to 300)
    and a generator that alternates between its extreme values. *)
Lemma C10_generated_lights_witness :
  (forall k, 0 <= Scenes.alternating k <= 1)%Q
  /\ forall (order : Host.argument_order) (cosf sinf : Q -> Q),
       let app' :=
         fst (Host.GeneratePointLights order Scenes.alternating cosf sinf
                Host.initial_app 0%nat) in
       length (Host.m_point_lights app') = 50%nat
       /\ length (Host.m_ellipses_radii app') = 50%nat
       /\ Forall (Host.generated Host.initial_app) (Host.m_point_lights app').
Proof.
  assert (H : (forall k, 0 <= Scenes.alternating k <= 1)%Q).
  { intros k. unfold Scenes.alternating. destruct (Nat.even k); split; discriminate. }
  split; [exact H |].
  intros order cosf sinf.
  exact (C10_generated_lights order Scenes.alternating cosf sinf
           Host.initial_app 0%nat H).
Defined.

(** The panel of [render_gui] sets the two radius bounds independently
    (each is only kept from going negative).  With the minimum at 500 and
    the maximum at 300 and a generator at its midpoint, the generated
    light has radius 400: below [min_max_point_light_radius.x] and above
    [min_max_point_light_radius.y]. *)
Lemma C10_radius_outside_inverted_bounds :
  (0 <= 1 # 2 <= 1)%Q
  /\ forall (order : Host.argument_order) (cosf sinf : Q -> Q),
       exists p,
         Host.m_point_lights
           (fst (Host.GeneratePointLights order (fun _ => 1 # 2)%Q cosf sinf
                   (Host.mkApp 1%nat 1%Q (500, 300)%Q [] []) 0%nat)) = [p]
         /\ (Host.radius p == 400)%Q
         /\ (Host.radius p < 500)%Q
         /\ (300 < Host.radius p)%Q.
Proof.
  split; [split; discriminate |].
  intros order cosf sinf.
  destruct order; (eexists; split; [reflexivity |]); simpl; repeat split.
Qed.

(** ** The compactor at every point of a schedule *)

Section CompactorSafety.
Import Compactor.

Variable clusters_flags : list bool.
Variable stale : list Z.
Hypothesis N_fits : Z.of_nat (length clusters_flags) < uint_modulus.
Hypothesis room : (length clusters_flags <= length stale)%nat.

Abbreviation inv := (Compactor.invariant clusters_flags).
Abbreviation start := (Compactor.frame_start clusters_flags stale).

(** Past the slots handed out so far, the dense list is as the frame
    found it. *)
Abbreviation untouched :=
  (fun (s : state) (order : list nat) =>
     forall i, (length order <= i)%nat ->
       unique_clusters (ssbo s) !! i = stale !! i).

Lemma untouched_step s order t :
  inv s order -> untouched s order ->
  exists order', inv (step clusters_flags t s) order'
                 /\ untouched (step clusters_flags t s) order'.
Proof.
  intros I U.
  destruct (threads s !! t) as [[| i |] |] eqn:Ht.
  - destruct (clusters_flags !!! t : bool) eqn:Hflag.
    + exists (order ++ [t]). split; [now apply inv_step_reserve |].
      intros j Hj. rewrite length_app in Hj. simpl in Hj.
      unfold step. rewrite Ht, Hflag. simpl. apply U. lia.
    + exists order. split; [now apply inv_step_skip |].
      intros j Hj. unfold step. rewrite Ht, Hflag. simpl. apply U. exact Hj.
  - exists order. split; [now apply (inv_step_store clusters_flags s order t i) |].
    destruct (inv_reserved I _ _ Ht) as (k & -> & Hk).
    pose proof (lookup_lt_Some _ _ _ Hk) as Hlt.
    intros j Hj. unfold step. rewrite Ht. unfold store_cluster. simpl.
    rewrite Nat2Z.id. rewrite list_lookup_insert_ne by lia. apply U. exact Hj.
  - exists order. unfold step. rewrite Ht. split; assumption.
  - exists order. unfold step. rewrite Ht. split; assumption.
Qed.

Lemma untouched_run schedule : forall s order,
  inv s order -> untouched s order ->
  exists order', inv (run clusters_flags schedule s) order'
                 /\ untouched (run clusters_flags schedule s) order'.
Proof.
  induction schedule as [| t schedule IH]; intros s order I U; simpl.
  - exists order. split; assumption.
  - destruct (untouched_step s order t I U) as (order' & I' & U').
    apply (IH _ _ I' U').
Qed.

Lemma reachable schedule :
  exists order, inv (run clusters_flags schedule start) order
                /\ untouched (run clusters_flags schedule start) order.
Proof.
  apply (untouched_run schedule start []).
  - apply inv_frame_start. exact room.
  - intros i _. reflexivity.
Qed.

Lemma order_within_flagged s order :
  inv s order -> (length order <= length (flagged clusters_flags))%nat.
Proof.
  intros I. apply submseteq_length. apply NoDup_submseteq.
  - apply (inv_nodup I).
  - intros t Ht. apply flagged_spec. apply (inv_mem I) in Ht. tauto.
Qed.

Lemma run_buffer_length schedule : forall s,
  length (unique_clusters (ssbo (run clusters_flags schedule s)))
  = length (unique_clusters (ssbo s)).
Proof.
  induction schedule as [| t schedule IH]; intros s; simpl; [reflexivity |].
  rewrite IH. unfold step.
  destruct (threads s !! t) as [[| i |] |]; simpl; try reflexivity.
  - destruct (clusters_flags !!! t : bool); reflexivity.
  - apply length_insert.
Qed.

Lemma safety schedule :
  let s := run clusters_flags schedule start in
  0 <= unique_clusters_count (ssbo s)
    <= Z.of_nat (length (flagged clusters_flags))
  /\ length (unique_clusters (ssbo s)) = length stale
  /\ forall t i, threads s !! t = Some (Reserved i) ->
       0 <= i < unique_clusters_count (ssbo s)
       /\ (Z.to_nat i < length (unique_clusters (ssbo s)))%nat.
Proof.
  intros s. destruct (reachable schedule) as (order & I & _). fold s in I.
  pose proof (order_within_flagged _ _ I) as Hfl.
  pose proof (order_length _ _ _ I) as HN.
  pose proof (inv_room I) as Hroom.
  split; [rewrite (inv_count I); lia |].
  split; [apply (run_buffer_length schedule start) |].
  intros t i Ht. destruct (inv_reserved I _ _ Ht) as (k & -> & Hk).
  pose proof (lookup_lt_Some _ _ _ Hk) as Hlt.
  rewrite (inv_count I), Nat2Z.id. lia.
Qed.

Lemma frame schedule i :
  let s := run clusters_flags schedule start in
  (Z.to_nat (unique_clusters_count (ssbo s)) <= i)%nat ->
  unique_clusters (ssbo s) !! i = stale !! i.
Proof.
  intros s Hi. destruct (reachable schedule) as (order & I & U).
  fold s in I, U. apply U. rewrite (inv_count I), Nat2Z.id in Hi. exact Hi.
Qed.

Lemma nothing_flagged schedule :
  flagged clusters_flags = [] ->
  ssbo (run clusters_flags schedule start) = mkUnique 0 stale.
Proof.
  intros Hnone. destruct (reachable schedule) as (order & I & U).
  pose proof (order_within_flagged _ _ I) as Hfl.
  rewrite Hnone in Hfl. simpl in Hfl.
  assert (Hlen : length order = 0%nat) by lia.
  pose proof (inv_count I) as Hc. rewrite Hlen in Hc. simpl in Hc.
  assert (Hl : unique_clusters (ssbo (run clusters_flags schedule start)) = stale).
  { apply list_eq. intros i. apply U. lia. }
  destruct (ssbo (run clusters_flags schedule start)) as [c l].
  simpl in Hc, Hl. rewrite Hc, Hl. reflexivity.
Qed.

End CompactorSafety.

(** X1: at every point of every interleaving, from the frame's start
    state, the counter is between 0 and the number of flagged clusters, the
    dense list keeps its length, and every slot an invocation has reserved
    and not yet written lies below the counter and inside the dense list:
    the compactor never stores out of bounds. *)
Theorem X1_compactor_stores_in_bounds :
  forall (clusters_flags : list bool) (stale : list Z),
    Z.of_nat (length clusters_flags) < uint_modulus ->
    (length clusters_flags <= length stale)%nat ->
    forall schedule : list nat,
      let s := Compactor.run clusters_flags schedule
                 (Compactor.frame_start clusters_flags stale) in
      0 <= unique_clusters_count (Compactor.ssbo s)
        <= Z.of_nat (length (Compactor.flagged clusters_flags))
      /\ length (unique_clusters (Compactor.ssbo s)) = length stale
      /\ forall t i, Compactor.threads s !! t = Some (Compactor.Reserved i) ->
           0 <= i < unique_clusters_count (Compactor.ssbo s)
           /\ (Z.to_nat i < length (unique_clusters (Compactor.ssbo s)))%nat.
Proof.
  intros clusters_flags stale Hfits Hroom schedule.
  apply safety; assumption.
Qed.

(** Invocations 3 and 0 have reserved, none has stored yet. *)
Lemma X1_compactor_stores_in_bounds_witness :
  (Z.of_nat (length [true; false; true; true]) < uint_modulus
   /\ (length [true; false; true; true] <= length [9; 9; 9; 9; 9])%nat)
  /\ let s := Compactor.run [true; false; true; true] [3; 0]%nat
                (Compactor.frame_start [true; false; true; true] [9; 9; 9; 9; 9]) in
     0 <= unique_clusters_count (Compactor.ssbo s)
       <= Z.of_nat (length (Compactor.flagged [true; false; true; true]))
     /\ length (unique_clusters (Compactor.ssbo s)) = length [9; 9; 9; 9; 9]
     /\ forall t i, Compactor.threads s !! t = Some (Compactor.Reserved i) ->
          0 <= i < unique_clusters_count (Compactor.ssbo s)
          /\ (Z.to_nat i < length (unique_clusters (Compactor.ssbo s)))%nat.
Proof.
  assert (H1 : Z.of_nat (length [true; false; true; true]) < uint_modulus)
    by reflexivity.
  assert (H2 : (length [true; false; true; true] <= length [9; 9; 9; 9; 9])%nat)
    by (simpl; lia).
  split; [split; assumption |].
  exact (X1_compactor_stores_in_bounds [true; false; true; true] [9; 9; 9; 9; 9]
           H1 H2 [3; 0]%nat).
Defined.

(** X2: at every point of every interleaving, the entries of the dense
    list at positions from the counter's value on are the ones the frame
    started with: the compactor writes only slots it has counted. *)
Theorem X2_compactor_keeps_stale_tail :
  forall (clusters_flags : list bool) (stale : list Z),
    Z.of_nat (length clusters_flags) < uint_modulus ->
    (length clusters_flags <= length stale)%nat ->
    forall (schedule : list nat) (i : nat),
      let s := Compactor.run clusters_flags schedule
                 (Compactor.frame_start clusters_flags stale) in
      (Z.to_nat (unique_clusters_count (Compactor.ssbo s)) <= i)%nat ->
      unique_clusters (Compactor.ssbo s) !! i = stale !! i.
Proof.
  intros clusters_flags stale Hfits Hroom schedule i.
  apply frame; assumption.
Qed.

Lemma X2_compactor_keeps_stale_tail_witness :
  (Z.of_nat (length [true; false; true; true]) < uint_modulus
   /\ (length [true; false; true; true] <= length [9; 8; 7; 6; 5])%nat
   /\ (Z.to_nat (unique_clusters_count
                   (Compactor.ssbo
                      (Compactor.run [true; false; true; true]
                         [3; 0; 2; 3; 0; 1; 2]%nat
                         (Compactor.frame_start [true; false; true; true]
                            [9; 8; 7; 6; 5]%Z)))) <= 3)%nat)
  /\ unique_clusters
       (Compactor.ssbo
          (Compactor.run [true; false; true; true] [3; 0; 2; 3; 0; 1; 2]%nat
             (Compactor.frame_start [true; false; true; true] [9; 8; 7; 6; 5])))
     !! 3%nat
     = [9; 8; 7; 6; 5] !! 3%nat.
Proof.
  assert (H1 : Z.of_nat (length [true; false; true; true]) < uint_modulus)
    by reflexivity.
  assert (H2 : (length [true; false; true; true] <= length [9; 8; 7; 6; 5])%nat)
    by (simpl; lia).
  assert (H3 : (Z.to_nat (unique_clusters_count
                   (Compactor.ssbo
                      (Compactor.run [true; false; true; true]
                         [3; 0; 2; 3; 0; 1; 2]%nat
                         (Compactor.frame_start [true; false; true; true]
                            [9; 8; 7; 6; 5]%Z)))) <= 3)%nat)
    by (vm_compute; lia).
  split; [split; [exact H1 | split; [exact H2 | exact H3]] |].
  exact (X2_compactor_keeps_stale_tail [true; false; true; true] [9; 8; 7; 6; 5]
           H1 H2 [3; 0; 2; 3; 0; 1; 2]%nat 3%nat H3).
Defined.

(** X3: the compactor followed by the dispatch sizer.  After every
    interleaving that runs all invocations to completion, the sizer writes
    one culling work group per flagged cluster; and when no flag is set,
    the compactor leaves the counter at zero and the dense list untouched at
    every point of every interleaving, so the sizer writes zero work
    groups. *)
Theorem X3_compactor_then_sizer :
  forall (clusters_flags : list bool) (stale : list Z),
    Z.of_nat (length clusters_flags) < uint_modulus ->
    (length clusters_flags <= length stale)%nat ->
    forall (schedule : list nat) (args : CullLightsDispatchArgsSSBO),
      let s := Compactor.run clusters_flags schedule
                 (Compactor.frame_start clusters_flags stale) in
      (Compactor.finished s = true ->
       num_groups (DispatchSizer.main (Compactor.ssbo s) args)
       = Uvec3 (Z.of_nat (length (Compactor.flagged clusters_flags))) 1 1)
      /\ (Compactor.flagged clusters_flags = [] ->
          Compactor.ssbo s = mkUnique 0 stale
          /\ num_groups (DispatchSizer.main (Compactor.ssbo s) args)
             = Uvec3 0 1 1).
Proof.
  intros clusters_flags stale Hfits Hroom schedule args s. split.
  - intros Hfin.
    destruct (compaction_result clusters_flags Hfits stale schedule Hroom Hfin)
      as [Hcount _].
    unfold DispatchSizer.main. simpl. fold s in Hcount. rewrite Hcount. reflexivity.
  - intros Hnone.
    pose proof (nothing_flagged clusters_flags stale Hfits Hroom schedule Hnone) as E.
    fold s in E. rewrite E. split; reflexivity.
Qed.

(** A mask with no flag set. *)
Lemma X3_compactor_then_sizer_witness :
  (Z.of_nat (length [false; false; false]) < uint_modulus
   /\ (length [false; false; false] <= length [9; 8; 7])%nat)
  /\ forall (schedule : list nat) (args : CullLightsDispatchArgsSSBO),
       let s := Compactor.run [false; false; false] schedule
                  (Compactor.frame_start [false; false; false] [9; 8; 7]) in
       (Compactor.finished s = true ->
        num_groups (DispatchSizer.main (Compactor.ssbo s) args)
        = Uvec3 (Z.of_nat (length (Compactor.flagged [false; false; false]))) 1 1)
       /\ (Compactor.flagged [false; false; false] = [] ->
           Compactor.ssbo s = mkUnique 0 [9; 8; 7]
           /\ num_groups (DispatchSizer.main (Compactor.ssbo s) args)
              = Uvec3 0 1 1).
Proof.
  assert (H1 : Z.of_nat (length [false; false; false]) < uint_modulus)
    by reflexivity.
  assert (H2 : (length [false; false; false] <= length [9; 8; 7])%nat)
    by (simpl; lia).
  split; [split; assumption |].
  exact (X3_compactor_then_sizer [false; false; false] [9; 8; 7] H1 H2).
Defined.

(** ** More on the cluster lookup *)

Section LookupMore.
Local Open Scope R_scope.



Lemma depth_ratio_ge_1 (near depth : R) : 0 < near -> near <= depth -> 1 <= depth / near.
Proof.
  intros Hnear Hd. apply Rmult_le_reg_r with near; [exact Hnear |].
  replace (depth / near * near) with depth by (field; lra). lra.
Qed.

Lemma ln_le (x y : R) : 0 < x -> x <= y -> ln x <= ln y.
Proof.
  intros Hx [Hlt | ->]; [left; now apply ln_increasing | right; reflexivity].
Qed.

(** A position between [n + delta] and [n + 1 - delta] cells. *)
Lemma within_cells (pos size a b : R) :
  0 < size -> a * size <= pos < b * size -> a <= pos / size < b.
Proof.
  intros Hsize [H1 H2].
  assert (E : pos = pos / size * size) by (field; lra).
  split.
  - apply Rmult_le_reg_r with size; [exact Hsize |]. rewrite <- E. exact H1.
  - apply Rmult_lt_reg_r with size; [exact Hsize |]. rewrite <- E. exact H2.
Qed.

End LookupMore.

(** X4: the X and Y components of the cluster index tile the screen
    linearly, up to the rounding of the division.  For a positive cell
    size, when the quotient the device computes is within [delta] of the
    exact one and the position lies in
    [[(n + delta) * size, (n + 1 - delta) * size)], the component is [n],
    whatever the depth. *)
Theorem X4_lookup_tiles :
  forall (F : LookupFloat.GpuFloat) (u : Lookup.Uniforms) (screen_pos : R * R)
      (view_z delta : R) (n m : Z),
    let size_x := vx (Lookup.u_cluster_size_ss u) in
    let size_y := vy (Lookup.u_cluster_size_ss u) in
    (0 < IZR size_x)%R -> (0 < IZR size_y)%R ->
    (Rabs (LookupFloat.fdiv (fst screen_pos) (LookupFloat.float_of_uint size_x)
           - fst screen_pos / IZR size_x) <= delta)%R ->
    (Rabs (LookupFloat.fdiv (snd screen_pos) (LookupFloat.float_of_uint size_y)
           - snd screen_pos / IZR size_y) <= delta)%R ->
    0 <= n < uint_modulus -> 0 <= m < uint_modulus ->
    ((IZR n + delta) * IZR size_x <= fst screen_pos
       < (IZR n + 1 - delta) * IZR size_x)%R ->
    ((IZR m + delta) * IZR size_y <= snd screen_pos
       < (IZR m + 1 - delta) * IZR size_y)%R ->
    ux (LookupFloat.computeClusterIndex3D u screen_pos view_z) = n
    /\ uy (LookupFloat.computeClusterIndex3D u screen_pos view_z) = m.
Proof.
  intros F u screen_pos view_z delta n m size_x size_y
    Hsx Hsy Hax Hay Hn Hm Hx Hy.
  unfold LookupFloat.computeClusterIndex3D. simpl.
  split.
  - apply (float_to_uint_robust _ (fst screen_pos / IZR size_x) delta n);
      [exact Hax | exact Hn |].
    apply within_cells; assumption.
  - apply (float_to_uint_robust _ (snd screen_pos / IZR size_y) delta m);
      [exact Hay | exact Hm |].
    apply within_cells; assumption.
Qed.

(** Cells of 80 x 80 pixels on a device whose quotients are [2^-20] too
    large: the pixel (200.5, 90.5) is in tile (2, 1). *)
Lemma X4_lookup_tiles_witness :
  ux (LookupFloat.computeClusterIndex3D (F := LookupFloat.coarse)
        (Lookup.mkUniforms (1 / 100) (Uvec3 16 9 24) (Uvec2 80 80) 1 false)
        (401 / 2, 181 / 2)%R (- (1))) = 2
  /\ uy (LookupFloat.computeClusterIndex3D (F := LookupFloat.coarse)
           (Lookup.mkUniforms (1 / 100) (Uvec3 16 9 24) (Uvec2 80 80) 1 false)
           (401 / 2, 181 / 2)%R (- (1))) = 1.
Proof.
  assert (Heps : (0 < / 2 ^ 20 < 1 / 1000000)%R).
  { split; [apply Rinv_0_lt_compat; lra |].
    apply Rmult_lt_reg_r with (2 ^ 20)%R; [lra |].
    rewrite Rinv_l by lra. lra. }
  apply (X4_lookup_tiles LookupFloat.coarse
           (Lookup.mkUniforms (1 / 100) (Uvec3 16 9 24) (Uvec2 80 80) 1 false)
           (401 / 2, 181 / 2)%R (- (1))%R (1 / 1000)%R 2 1);
    cbn [Lookup.u_cluster_size_ss vx vy fst snd].
  - lra.
  - lra.
  - unfold LookupFloat.fdiv, LookupFloat.float_of_uint, LookupFloat.coarse.
    set (eps := (/ 2 ^ 20)%R) in *. apply Rabs_le. lra.
  - unfold LookupFloat.fdiv, LookupFloat.float_of_uint, LookupFloat.coarse.
    set (eps := (/ 2 ^ 20)%R) in *. apply Rabs_le. lra.
  - unfold uint_modulus. lia.
  - unfold uint_modulus. lia.
  - lra.
  - lra.
Defined.



(** ** What the fragment shader reads *)

Section ShadingMore.
Context {L : PbrLighting}.
Import Shading.

(** The radiance as three accumulations. *)
Lemma radiance_accumulated (u : Lookup.Uniforms) (b : Buffers) (f : Fragment) :
  let material := getMaterialProperties (normalize (in_normal f)) in
  let cluster := Lookup.cluster_index u (gl_FragCoord_xy f) (vec_z (in_view_pos f)) in
  radiance u b f
  = vadd
      (vadd
         (accumulate (fun l => calcSpotLight l (in_world_pos f) material)
            (cluster_lights unbound_spot (spot_lights b) (spot_light_index_list b)
               (spot_light_grid b) cluster)
            (accumulate (fun l => calcPointLight l (in_world_pos f) material)
               (cluster_lights unbound_point (point_lights b)
                  (point_light_index_list b) (point_light_grid b) cluster)
               (accumulate
                  (fun l => calcDirectionalLight l (in_world_pos f) material)
                  (dir_lights b) vzero)))
         (indirectLightingIBL (in_world_pos f) material))
      (emission material).
Proof.
  intros material cluster. unfold radiance.
  rewrite (uint_for_accumulate
             (fun l => calcDirectionalLight l (in_world_pos f) material)
             (buffer_read unbound_directional (dir_lights b))).
  rewrite read_all.
  rewrite (uint_for_accumulate
             (fun l => calcPointLight l (in_world_pos f) material)
             (fun i => buffer_read unbound_point (point_lights b)
                (buffer_read 0 (point_light_index_list b)
                   (uadd (offset (buffer_read (mkLightGrid 0 0)
                                    (point_light_grid b) cluster)) i)))).
  rewrite (uint_for_accumulate
             (fun l => calcSpotLight l (in_world_pos f) material)
             (fun i => buffer_read unbound_spot (spot_lights b)
                (buffer_read 0 (spot_light_index_list b)
                   (uadd (offset (buffer_read (mkLightGrid 0 0)
                                    (spot_light_grid b) cluster)) i)))).
  reflexivity.
Qed.

(** Two index lists that agree on a cluster's range select the same
    lights. *)
Lemma cluster_lights_agree {A : Type} (d : A) (lights : list A)
    (list1 list2 : list Z) (grid1 grid2 : list LightGrid) (cluster : Z) :
  buffer_read (mkLightGrid 0 0) grid1 cluster
    = buffer_read (mkLightGrid 0 0) grid2 cluster ->
  (forall i, 0 <= i < count (buffer_read (mkLightGrid 0 0) grid2 cluster) ->
     buffer_read 0 list1
       (uadd (offset (buffer_read (mkLightGrid 0 0) grid2 cluster)) i)
     = buffer_read 0 list2
         (uadd (offset (buffer_read (mkLightGrid 0 0) grid2 cluster)) i)) ->
  cluster_lights d lights list1 grid1 cluster
  = cluster_lights d lights list2 grid2 cluster.
Proof.
  intros Hgrid Hrange. unfold cluster_lights. rewrite Hgrid.
  apply map_ext_in. intros i Hi. apply in_seq in Hi.
  rewrite Hrange; [reflexivity |]. lia.
Qed.

Lemma debug_colour_in_table (z : Z) :
  buffer_read vzero debug_colors (z mod 8) ∈ debug_colors.
Proof.
  pose proof (Z.mod_pos_bound z 8 ltac:(lia)) as Hz.
  assert (Hcase : z mod 8 = 0 \/ z mod 8 = 1 \/ z mod 8 = 2 \/ z mod 8 = 3
                  \/ z mod 8 = 4 \/ z mod 8 = 5 \/ z mod 8 = 6 \/ z mod 8 = 7)
    by lia.
  clear Hz. unfold debug_colors.
  destruct Hcase as [E | [E | [E | [E | [E | [E | [E | E]]]]]]]; rewrite E;
    unfold buffer_read; simpl; apply list_elem_of_In; simpl; tauto.
Qed.

End ShadingMore.

(** X6: the radiance of a fragment depends on the light grids only through
    the entry of the fragment's cluster, and on the light index lists only
    through the positions [offset], ..., [offset + count - 1] of that entry:
    two sets of buffers with the same lights that agree there give the same
    radiance. *)
Theorem X6_shading_reads_only_cluster_range :
  forall (L : PbrLighting) (u : Lookup.Uniforms) (b b' : Shading.Buffers)
         (f : Shading.Fragment),
    let cluster :=
      Lookup.cluster_index u (Shading.gl_FragCoord_xy f)
        (vec_z (Shading.in_view_pos f)) in
    let point_entry :=
      Shading.buffer_read (mkLightGrid 0 0) (Shading.point_light_grid b) cluster in
    let spot_entry :=
      Shading.buffer_read (mkLightGrid 0 0) (Shading.spot_light_grid b) cluster in
    Shading.dir_lights b' = Shading.dir_lights b ->
    Shading.point_lights b' = Shading.point_lights b ->
    Shading.spot_lights b' = Shading.spot_lights b ->
    Shading.buffer_read (mkLightGrid 0 0) (Shading.point_light_grid b') cluster
      = point_entry ->
    Shading.buffer_read (mkLightGrid 0 0) (Shading.spot_light_grid b') cluster
      = spot_entry ->
    (forall i, 0 <= i < count point_entry ->
       Shading.buffer_read 0 (Shading.point_light_index_list b')
         (uadd (offset point_entry) i)
       = Shading.buffer_read 0 (Shading.point_light_index_list b)
           (uadd (offset point_entry) i)) ->
    (forall i, 0 <= i < count spot_entry ->
       Shading.buffer_read 0 (Shading.spot_light_index_list b')
         (uadd (offset spot_entry) i)
       = Shading.buffer_read 0 (Shading.spot_light_index_list b)
           (uadd (offset spot_entry) i)) ->
    Shading.radiance u b' f = Shading.radiance u b f.
Proof.
  intros L u b b' f cluster point_entry spot_entry Hd Hp Hs Hpg Hsg Hpl Hsl.
  rewrite !radiance_accumulated. rewrite Hd, Hp, Hs.
  rewrite (cluster_lights_agree unbound_point (Shading.point_lights b)
             (Shading.point_light_index_list b') (Shading.point_light_index_list b)
             (Shading.point_light_grid b') (Shading.point_light_grid b)
             (Lookup.cluster_index u (Shading.gl_FragCoord_xy f)
                (vec_z (Shading.in_view_pos f))) Hpg Hpl).
  rewrite (cluster_lights_agree unbound_spot (Shading.spot_lights b)
             (Shading.spot_light_index_list b') (Shading.spot_light_index_list b)
             (Shading.spot_light_grid b') (Shading.spot_light_grid b)
             (Lookup.cluster_index u (Shading.gl_FragCoord_xy f)
                (vec_z (Shading.in_view_pos f))) Hsg Hsl).
  reflexivity.
Qed.

(** X7: in the slice-debug mode the fragment's colour is one of the eight
    debug colours, the one at position [z mod 8] for the fragment's depth
    slice [z] (the read is always inside the table), and no light buffer
    has any influence on it. *)
Theorem X7_debug_slices_colour :
  forall (L : PbrLighting) (u : Lookup.Uniforms) (b b' : Shading.Buffers)
         (f : Shading.Fragment),
    Lookup.u_debug_slices u = true ->
    Shading.main u b f = Shading.main u b' f
    /\ fst (Shading.main u b f) ∈ Shading.debug_colors
    /\ Some (fst (Shading.main u b f))
       = Shading.debug_colors
           !! Z.to_nat
                (uz (Lookup.computeClusterIndex3D u (Shading.gl_FragCoord_xy f)
                       (vec_z (Shading.in_view_pos f))) mod 8)
    /\ snd (Shading.main u b f) = 1%R.
Proof.
  intros L u b b' f Hdebug. unfold Shading.main. rewrite Hdebug.
  set (z := uz (Lookup.computeClusterIndex3D u (Shading.gl_FragCoord_xy f)
                  (vec_z (Shading.in_view_pos f)))).
  cbv zeta. cbn [fst snd].
  split; [reflexivity |].
  split; [apply debug_colour_in_table |].
  split; [| reflexivity].
  unfold Shading.buffer_read.
  pose proof (Z.mod_pos_bound z 8 ltac:(lia)) as Hz.
  destruct (Shading.debug_colors !! Z.to_nat (z mod 8)) as [c |] eqn:E.
  - reflexivity.
  - apply lookup_ge_None_1 in E. simpl in E. lia.
Qed.

(** A fragment of the one-cluster scene in the slice-debug mode. *)
Lemma X7_debug_slices_colour_witness :
  Lookup.u_debug_slices (ShadingScene.uniforms true) = true
  /\ @Shading.main ShadingScene.constant_lighting (ShadingScene.uniforms true)
       (ShadingScene.buffers [7; 1]) ShadingScene.fragment
     = @Shading.main ShadingScene.constant_lighting (ShadingScene.uniforms true)
         (ShadingScene.buffers []) ShadingScene.fragment.
Proof.
  assert (H : Lookup.u_debug_slices (ShadingScene.uniforms true) = true)
    by reflexivity.
  split; [exact H |].
  exact (proj1 (X7_debug_slices_colour ShadingScene.constant_lighting
                  (ShadingScene.uniforms true) (ShadingScene.buffers [7; 1])
                  (ShadingScene.buffers []) ShadingScene.fragment H)).
Defined.

(** The fragment of the one-cluster scene falls into cluster 0. *)
Lemma scene_cluster :
  Lookup.cluster_index (ShadingScene.uniforms false)
    (Shading.gl_FragCoord_xy ShadingScene.fragment)
    (vec_z (Shading.in_view_pos ShadingScene.fragment)) = 0.
Proof.
  unfold Lookup.cluster_index, Lookup.computeClusterIndex3D. simpl.
  assert (H0 : forall r : R, (0 <= r < 1)%R -> Lookup.float_to_uint r = 0).
  { intros r Hr. rewrite float_to_uint_floor by (unfold uint_modulus; simpl; lra).
    apply Int_part_iff. simpl. lra. }
  rewrite (H0 (10 / 800)%R) by lra.
  rewrite (H0 (10 / 600)%R) by lra.
  rewrite Rmult_0_r. rewrite (H0 0%R) by lra.
  reflexivity.
Qed.

(** Two index lists that differ outside the cluster's range [1, 2). *)
Lemma X6_shading_reads_only_cluster_range_witness :
  (forall i,
     0 <= i < count (Shading.buffer_read (mkLightGrid 0 0)
                       (Shading.point_light_grid (ShadingScene.buffers [7; 1]))
                       (Lookup.cluster_index (ShadingScene.uniforms false)
                          (Shading.gl_FragCoord_xy ShadingScene.fragment)
                          (vec_z (Shading.in_view_pos ShadingScene.fragment)))) ->
     i = 0)
  /\ @Shading.radiance ShadingScene.constant_lighting (ShadingScene.uniforms false)
       (ShadingScene.buffers [9; 1; 5]) ShadingScene.fragment
     = @Shading.radiance ShadingScene.constant_lighting (ShadingScene.uniforms false)
         (ShadingScene.buffers [7; 1]) ShadingScene.fragment.
Proof.
  assert (Hrange : forall i,
     0 <= i < count (Shading.buffer_read (mkLightGrid 0 0)
                       (Shading.point_light_grid (ShadingScene.buffers [7; 1]))
                       (Lookup.cluster_index (ShadingScene.uniforms false)
                          (Shading.gl_FragCoord_xy ShadingScene.fragment)
                          (vec_z (Shading.in_view_pos ShadingScene.fragment)))) ->
     i = 0).
  { intros i. rewrite scene_cluster. simpl. lia. }
  split; [exact Hrange |].
  apply (X6_shading_reads_only_cluster_range ShadingScene.constant_lighting
           (ShadingScene.uniforms false) (ShadingScene.buffers [7; 1])
           (ShadingScene.buffers [9; 1; 5]) ShadingScene.fragment);
    try reflexivity.
  intros i Hi. rewrite (Hrange i Hi). rewrite scene_cluster. reflexivity.
Defined.

(** ** The slice parameters of [init_app] *)

Section SliceParameters.
Local Open Scope R_scope.

Lemma ln_ratio (near far : R) : 0 < near -> 0 < far -> ln (far / near) = ln far - ln near.
Proof.
  intros Hn Hf. unfold Rdiv. rewrite ln_mult; [| exact Hf | now apply Rinv_0_lt_compat].
  rewrite ln_Rinv by exact Hn. lra.
Qed.

(** With the host's scale and bias, [log2(z) * scale + bias] is the
    logarithmic position of [z] between the planes, times the number of
    slices. *)
Lemma slice_position (grid : uvec3) (cam : HostSlices.Camera) (z : R) :
  0 < HostSlices.NearPlane cam -> HostSlices.NearPlane cam < HostSlices.FarPlane cam ->
  HostSlices.log2f z * HostSlices.init_slice_scale grid cam
    + HostSlices.init_slice_bias grid cam
  = IZR (uz grid) * (ln z - ln (HostSlices.NearPlane cam))
    / (ln (HostSlices.FarPlane cam) - ln (HostSlices.NearPlane cam)).
Proof.
  intros Hn Hnf.
  unfold HostSlices.init_slice_scale, HostSlices.init_slice_bias, HostSlices.log2f.
  cbv zeta. rewrite ln_ratio by lra.
  pose proof ln_2_pos.
  assert (ln (HostSlices.NearPlane cam) < ln (HostSlices.FarPlane cam))
    by (apply ln_increasing; lra).
  field. split; lra.
Qed.

End SliceParameters.

(** X8: for a camera with [0 < near < far], the slice scale and bias that
    [init_app] computes place the near plane at slice position 0 and the far
    plane at slice position [m_grid_size.z] under [log2(z) * scale + bias],
    and every depth between the planes at a position between 0 and
    [m_grid_size.z]. *)
Theorem X8_init_app_slice_parameters :
  forall (m_grid_size : uvec3) (m_camera : HostSlices.Camera),
    (0 < HostSlices.NearPlane m_camera)%R ->
    (HostSlices.NearPlane m_camera < HostSlices.FarPlane m_camera)%R ->
    0 <= uz m_grid_size ->
    (HostSlices.log2f (HostSlices.NearPlane m_camera)
       * HostSlices.init_slice_scale m_grid_size m_camera
     + HostSlices.init_slice_bias m_grid_size m_camera = 0)%R
    /\ (HostSlices.log2f (HostSlices.FarPlane m_camera)
          * HostSlices.init_slice_scale m_grid_size m_camera
        + HostSlices.init_slice_bias m_grid_size m_camera
        = IZR (uz m_grid_size))%R
    /\ forall z : R,
         (HostSlices.NearPlane m_camera <= z <= HostSlices.FarPlane m_camera)%R ->
         (0 <= HostSlices.log2f z * HostSlices.init_slice_scale m_grid_size m_camera
               + HostSlices.init_slice_bias m_grid_size m_camera
            <= IZR (uz m_grid_size))%R.
Proof.
  intros g cam Hn Hnf Hg.
  assert (Hlog : (ln (HostSlices.NearPlane cam) < ln (HostSlices.FarPlane cam))%R)
    by (apply ln_increasing; lra).
  assert (HG : (0 <= IZR (uz g))%R) by (apply IZR_le; exact Hg).
  split; [| split].
  - rewrite slice_position by assumption. field. lra.
  - rewrite slice_position by assumption. field. lra.
  - intros z [Hz1 Hz2]. rewrite slice_position by assumption.
    assert (H1 : (ln (HostSlices.NearPlane cam) <= ln z)%R) by (apply ln_le; lra).
    assert (H2 : (ln z <= ln (HostSlices.FarPlane cam))%R) by (apply ln_le; lra).
    set (d := (ln (HostSlices.FarPlane cam) - ln (HostSlices.NearPlane cam))%R).
    assert (Hd : (0 < d)%R) by (unfold d; lra).
    split.
    + apply Rmult_le_reg_r with d; [exact Hd |].
      replace (IZR (uz g) * (ln z - ln (HostSlices.NearPlane cam)) / d * d)%R
        with (IZR (uz g) * (ln z - ln (HostSlices.NearPlane cam)))%R
        by (field; lra).
      rewrite Rmult_0_l. apply Rmult_le_pos; lra.
    + apply Rmult_le_reg_r with d; [exact Hd |].
      replace (IZR (uz g) * (ln z - ln (HostSlices.NearPlane cam)) / d * d)%R
        with (IZR (uz g) * (ln z - ln (HostSlices.NearPlane cam)))%R
        by (field; lra).
      apply Rmult_le_compat_l; [exact HG | unfold d; lra].
Qed.

(** The demo's camera and grid. *)
Lemma X8_init_app_slice_parameters_witness :
  ((0 < HostSlices.NearPlane HostSlices.demo_camera)%R
   /\ (HostSlices.NearPlane HostSlices.demo_camera
       < HostSlices.FarPlane HostSlices.demo_camera)%R
   /\ 0 <= uz HostSlices.demo_grid_size)
  /\ (HostSlices.log2f (HostSlices.FarPlane HostSlices.demo_camera)
        * HostSlices.init_slice_scale HostSlices.demo_grid_size HostSlices.demo_camera
      + HostSlices.init_slice_bias HostSlices.demo_grid_size HostSlices.demo_camera
      = IZR (uz HostSlices.demo_grid_size))%R.
Proof.
  assert (H1 : (0 < HostSlices.NearPlane HostSlices.demo_camera)%R)
    by (simpl; lra).
  assert (H2 : (HostSlices.NearPlane HostSlices.demo_camera
                < HostSlices.FarPlane HostSlices.demo_camera)%R)
    by (simpl; lra).
  assert (H3 : 0 <= uz HostSlices.demo_grid_size) by (simpl; lia).
  split; [split; [exact H1 | split; [exact H2 | exact H3]] |].
  exact (proj1 (proj2 (X8_init_app_slice_parameters HostSlices.demo_grid_size
                         HostSlices.demo_camera H1 H2 H3))).
Defined.

(** ** More on [hsv2rgb] *)

Section HsvMore.
Import Host.
Local Open Scope Q_scope.

(** Truncation toward zero of a negative number. *)
Lemma float_to_int_neg (q : Q) :
  q < 0 -> float_to_int q = (- float_to_int (- q))%Z.
Proof.
  destruct q as [n d]. unfold Qlt, float_to_int. simpl. intros H.
  rewrite Z.quot_opp_l by lia. lia.
Qed.

Lemma float_to_int_small_neg (q : Q) : - (1) < q -> q < 0 -> float_to_int q = 0%Z.
Proof.
  intros H1 H0. rewrite float_to_int_neg by exact H0.
  assert (Hp : 0 <= - q) by lra.
  pose proof (float_to_int_range (- q) 1 Hp) as Hr.
  assert (- q < inject_Z 1) by (change (inject_Z 1) with 1; lra).
  specialize (Hr H). lia.
Qed.

Lemma float_to_int_big_neg (q : Q) : q <= - (1) -> (float_to_int q <= -1)%Z.
Proof.
  intros H1. rewrite float_to_int_neg by lra.
  assert (Hp : 0 <= - q) by lra.
  destruct (float_to_int_bounds (- q) Hp) as [_ Hhi].
  assert (Hz : (0 < float_to_int (- q))%Z).
  { rewrite Zlt_Qlt. change (inject_Z 0) with 0. lra. }
  lia.
Qed.

Lemma float_to_int_big (q : Q) (n : Z) : inject_Z n <= q -> 0 <= q -> (n <= float_to_int q)%Z.
Proof.
  intros Hn H0. destruct (float_to_int_bounds q H0) as [_ Hhi].
  assert (Hz : (n < float_to_int q + 1)%Z).
  { rewrite Zlt_Qlt, inject_Z_plus. change (inject_Z 1) with 1. lra. }
  lia.
Qed.

(** The [switch] assigns [RGB] exactly for the indices 0 to 5. *)
Lemma hsv2rgb_none_iff (H S V : Q) :
  hsv2rgb H S V = None <-> ~ (0 <= float_to_int (H / 60) <= 5)%Z.
Proof.
  unfold hsv2rgb.
  destruct (float_to_int (H / 60)) as [| p | p]; simpl.
  - split; [discriminate | lia].
  - destruct p as [[[p | p |] | [p | p |] |] | [[p | p |] | [p | p |] |] |];
      simpl; (split; [try discriminate; lia | try lia; reflexivity]).
  - split; [lia | reflexivity].
Qed.

Lemma hue_index (H : Q) :
  (0 <= float_to_int (H / 60) <= 5)%Z <-> - (60) < H /\ H < 360.
Proof.
  assert (E : H == H / 60 * 60) by field.
  split.
  - intros Hidx.
    destruct (Qlt_le_dec (- (1)) (H / 60)) as [Hlo | Hlo].
    + destruct (Qlt_le_dec (H / 60) 6) as [Hhi | Hhi]; [split; lra |].
      assert (6 <= float_to_int (H / 60))%Z.
      { apply float_to_int_big; [change (inject_Z 6) with 6; exact Hhi | lra]. }
      lia.
    + pose proof (float_to_int_big_neg _ Hlo). lia.
  - intros [Hlo Hhi].
    destruct (Qlt_le_dec (H / 60) 0) as [Hneg | Hpos].
    + rewrite float_to_int_small_neg; [lia | lra | exact Hneg].
    + assert (Hr : H / 60 < inject_Z 6) by (change (inject_Z 6) with 6; lra).
      pose proof (float_to_int_range _ 6 Hpos Hr). lia.
Qed.

End HsvMore.

(** Value and chroma of the colour [hsv2rgb] returns. *)
Lemma hsv2rgb_value_chroma :
  forall H S V : Q,
    (0 <= H)%Q -> (H < 360)%Q -> (0 <= S <= 1)%Q -> (0 <= V <= 1)%Q ->
    exists rgb,
      Host.hsv2rgb H S V = Some rgb
      /\ (vec_x rgb <= V /\ vec_y rgb <= V /\ vec_z rgb <= V)%Q
      /\ (vec_x rgb == V \/ vec_y rgb == V \/ vec_z rgb == V)%Q
      /\ (V - V * S <= vec_x rgb /\ V - V * S <= vec_y rgb
          /\ V - V * S <= vec_z rgb)%Q
      /\ (vec_x rgb == V - V * S \/ vec_y rgb == V - V * S
          \/ vec_z rgb == V - V * S)%Q.
Proof.
  intros H S V H0 H360 HS HV.
  assert (Hh2 : (0 <= H / 60)%Q) by (apply Qle_shift_div_l; lra).
  assert (Hidx : 0 <= Host.float_to_int (H / 60) <= 5).
  { apply hue_index. split; lra. }
  pose proof (ramp_range (H / 60) Hh2) as Hw.
  unfold Host.hsv2rgb.
  set (w := (1 - Host.fabsf (Host.fmodf (H / 60) 2 - 1))%Q) in *.
  assert (HC : (0 <= V * S <= V)%Q) by (split; nra).
  assert (HX : (0 <= V * S * w <= V * S)%Q) by (split; nra).
  assert (Hcase : Host.float_to_int (H / 60) = 0 \/ Host.float_to_int (H / 60) = 1
                  \/ Host.float_to_int (H / 60) = 2 \/ Host.float_to_int (H / 60) = 3
                  \/ Host.float_to_int (H / 60) = 4 \/ Host.float_to_int (H / 60) = 5)
    by lia.
  destruct Hcase as [E | [E | [E | [E | [E | E]]]]]; rewrite E; simpl;
    eexists; (split; [reflexivity |]); simpl;
    (split; [repeat split; lra |]);
    (split; [first [left; lra | right; left; lra | right; right; lra] |]);
    (split; [repeat split; lra |]);
    first [left; lra | right; left; lra | right; right; lra].
Qed.

(** X9: for a hue in [[0, 360)] and saturation and value in [[0, 1]], the
    colour [hsv2rgb] returns has [V] as its largest component and
    [V - V*S] as its smallest: value and chroma are those asked for. *)
Theorem X9_hsv2rgb_value_and_chroma :
  forall H S V : Q,
    (0 <= H)%Q -> (H < 360)%Q -> (0 <= S <= 1)%Q -> (0 <= V <= 1)%Q ->
    exists rgb,
      Host.hsv2rgb H S V = Some rgb
      /\ (vec_x rgb <= V /\ vec_y rgb <= V /\ vec_z rgb <= V)%Q
      /\ (vec_x rgb == V \/ vec_y rgb == V \/ vec_z rgb == V)%Q
      /\ (V - V * S <= vec_x rgb /\ V - V * S <= vec_y rgb
          /\ V - V * S <= vec_z rgb)%Q
      /\ (vec_x rgb == V - V * S \/ vec_y rgb == V - V * S
          \/ vec_z rgb == V - V * S)%Q.
Proof.
  intros H S V H0 H360 HS HV.
  apply hsv2rgb_value_chroma; assumption.
Qed.

Lemma X9_hsv2rgb_value_and_chroma_witness :
  ((0 <= 200)%Q /\ (200 < 360)%Q /\ (0 <= 1 # 2 <= 1)%Q /\ (0 <= 3 # 4 <= 1)%Q)
  /\ exists rgb,
       Host.hsv2rgb 200 (1 # 2) (3 # 4) = Some rgb
       /\ (vec_x rgb <= 3 # 4 /\ vec_y rgb <= 3 # 4 /\ vec_z rgb <= 3 # 4)%Q
       /\ (vec_x rgb == 3 # 4 \/ vec_y rgb == 3 # 4 \/ vec_z rgb == 3 # 4)%Q
       /\ ((3 # 4) - (3 # 4) * (1 # 2) <= vec_x rgb
           /\ (3 # 4) - (3 # 4) * (1 # 2) <= vec_y rgb
           /\ (3 # 4) - (3 # 4) * (1 # 2) <= vec_z rgb)%Q
       /\ (vec_x rgb == (3 # 4) - (3 # 4) * (1 # 2)
           \/ vec_y rgb == (3 # 4) - (3 # 4) * (1 # 2)
           \/ vec_z rgb == (3 # 4) - (3 # 4) * (1 # 2))%Q.
Proof.
  assert (H1 : (0 <= 200)%Q) by (unfold Qle; simpl; lia).
  assert (H2 : (200 < 360)%Q) by reflexivity.
  assert (H3 : (0 <= 1 # 2 <= 1)%Q) by (split; unfold Qle; simpl; lia).
  assert (H4 : (0 <= 3 # 4 <= 1)%Q) by (split; unfold Qle; simpl; lia).
  split; [split; [exact H1 | split; [exact H2 | split; [exact H3 | exact H4]]] |].
  exact (X9_hsv2rgb_value_and_chroma 200 (1 # 2) (3 # 4) H1 H2 H3 H4).
Defined.

(** X10: [hsv2rgb] leaves [RGB] unassigned exactly for the hues at or
    below -60 and at or above 360: the cast to [int] truncates toward zero,
    so the hues in [(-60, 0)] take the first case of the [switch], and no
    hue from 360 on takes any. *)
Theorem X10_hsv2rgb_unassigned_hues :
  forall H S V : Q,
    Host.hsv2rgb H S V = None <-> (H <= - (60) \/ 360 <= H)%Q.
Proof.
  intros H S V. rewrite hsv2rgb_none_iff, hue_index. split.
  - intros Hn. destruct (Qlt_le_dec (- (60)) H) as [Hlo | Hlo]; [| left; exact Hlo].
    destruct (Qlt_le_dec H 360) as [Hhi | Hhi]; [| right; exact Hhi].
    exfalso. apply Hn. split; assumption.
  - intros [Hlo | Hhi] [H1 H2]; lra.
Qed.

(** ** More on [GeneratePointLights] *)

Section GenerateMore.
Import Host.
Local Open Scope Q_scope.

Variable order : Host.argument_order.
Variable unit_rand : nat -> Q.
Variables cosf sinf : Q -> Q.

Abbreviation generate_one := (Host.generate_one order unit_rand cosf sinf).
Abbreviation generate_loop := (Host.generate_loop order unit_rand cosf sinf).

(** A relation between a light and its ellipse entry that every round
    establishes holds, after the loop, between the two lists entry by
    entry. *)
Lemma generate_loop_pairs (P : PointLight -> vec4 Q -> Prop) :
  (forall intensity_ min_max n,
     P (fst (fst (generate_one intensity_ min_max n)))
       (snd (fst (generate_one intensity_ min_max n)))) ->
  forall (rounds i : nat) (app : App) (n : nat),
    length (m_point_lights app) = (i + rounds)%nat ->
    length (m_ellipses_radii app) = (i + rounds)%nat ->
    Forall2 P (take i (m_point_lights app)) (take i (m_ellipses_radii app)) ->
    Forall2 P (m_point_lights (fst (generate_loop rounds i app n)))
              (m_ellipses_radii (fst (generate_loop rounds i app n))).
Proof.
  intros HP rounds. induction rounds as [| rounds IH]; intros i app n Hl He Hdone.
  - simpl. rewrite Nat.add_0_r in *.
    rewrite <- Hl in Hdone at 1. rewrite <- He in Hdone.
    rewrite !firstn_all in Hdone. exact Hdone.
  - simpl.
    destruct (generate_one (m_point_lights_intensity app)
                (min_max_point_light_radius app) n) as [pe n'] eqn:Hone.
    pose proof (HP (m_point_lights_intensity app)
                  (min_max_point_light_radius app) n) as Hp.
    rewrite Hone in Hp. simpl in Hp.
    set (app1 := mkApp (m_point_lights_count app) (m_point_lights_intensity app)
                   (min_max_point_light_radius app)
                   (<[i := fst pe]> (m_point_lights app))
                   (<[i := snd pe]> (m_ellipses_radii app))).
    assert (Hstep : bind (generate_one (m_point_lights_intensity app)
                            (min_max_point_light_radius app))
                      (fun pe => generate_loop rounds (S i)
                         (mkApp (m_point_lights_count app)
                            (m_point_lights_intensity app)
                            (min_max_point_light_radius app)
                            (<[i := fst pe]> (m_point_lights app))
                            (<[i := snd pe]> (m_ellipses_radii app)))) n
                    = generate_loop rounds (S i) app1 n').
    { unfold bind at 1. rewrite Hone. reflexivity. }
    rewrite Hstep.
    apply IH; unfold app1.
    + simpl. rewrite length_insert. lia.
    + simpl. rewrite length_insert. lia.
    + simpl.
      rewrite (take_S_r _ i (fst pe)) by (apply list_lookup_insert_eq; lia).
      rewrite (take_S_r _ i (snd pe)) by (apply list_lookup_insert_eq; lia).
      rewrite !take_insert_ge by lia.
      apply Forall2_app; [exact Hdone |].
      constructor; [exact Hp | constructor].
Qed.

Lemma GeneratePointLights_pairs (P : PointLight -> vec4 Q -> Prop) :
  (forall intensity_ min_max n,
     P (fst (fst (generate_one intensity_ min_max n)))
       (snd (fst (generate_one intensity_ min_max n)))) ->
  forall (app : App) (n : nat),
    Forall2 P
      (m_point_lights (fst (GeneratePointLights order unit_rand cosf sinf app n)))
      (m_ellipses_radii (fst (GeneratePointLights order unit_rand cosf sinf app n))).
Proof.
  intros HP app n. unfold GeneratePointLights. simpl.
  apply generate_loop_pairs; [exact HP | | |]; simpl.
  - rewrite !length_replicate. reflexivity.
  - rewrite !length_replicate. reflexivity.
  - constructor.
Qed.

Lemma generate_one_on_ellipse :
  (forall k, 0 <= unit_rand k <= 1) ->
  forall intensity_ min_max n,
    HostLights.on_ellipse cosf sinf
      (fst (fst (generate_one intensity_ min_max n)))
      (snd (fst (generate_one intensity_ min_max n))).
Proof.
  intros Hrand intensity_ min_max n.
  pose proof (Hrand n) as H0.
  pose proof (Hrand (S n)) as H1.
  pose proof (Hrand (S (S (S (S (S (S (S n)))))))) as H7.
  unfold HostLights.on_ellipse, Host.generate_one, hsv2rgb_arguments.
  destruct order; unfold bind, ret, linearRand; simpl; repeat split; lra.
Qed.

Lemma generate_one_visible :
  (forall k, 0 <= unit_rand k /\ unit_rand k < 1) ->
  forall intensity_ min_max n,
    HostLights.visible_colour (fst (fst (generate_one intensity_ min_max n))).
Proof.
  intros Hrand intensity_ min_max n.
  pose proof (Hrand (S (S n))) as H2.
  pose proof (Hrand (S (S (S n)))) as H3.
  pose proof (Hrand (S (S (S (S n))))) as H4.
  assert (Hdraws :
    exists h s v,
      fst (hsv2rgb_arguments order unit_rand (S (S n))) = (h, s, v)
      /\ (1 <= h /\ h < 360)
      /\ ((1 # 10) <= s <= 1) /\ ((1 # 10) <= v <= 1)
      /\ Host.color (fst (fst (generate_one intensity_ min_max n)))
         = hsv2rgb h s v).
  { unfold Host.generate_one, hsv2rgb_arguments.
    destruct order; unfold bind, ret, linearRand; simpl;
      do 3 eexists; (split; [reflexivity |]);
      (split; [split; lra |]); (split; [split; lra |]);
      (split; [split; lra | reflexivity]). }
  destruct Hdraws as (h & s & v & _ & Hh & Hs & Hv & Hcolor).
  unfold HostLights.visible_colour. rewrite Hcolor.
  assert (Hh' : 0 <= h /\ h < 360) by (split; lra).
  assert (Hs' : 0 <= s <= 1) by (split; lra).
  assert (Hv' : (1 # 10) <= v <= 1) by exact Hv.
  destruct Hh' as [Hh0 Hh1].
  assert (Hv0 : 0 <= v <= 1) by (split; lra).
  destruct (hsv2rgb_in_range h s v Hh0 Hh1 Hs' Hv0) as (_ & rgb & Hrgb & Hin).
  destruct (hsv2rgb_value_chroma h s v Hh0 Hh1 Hs' Hv0)
    as (rgb' & Hrgb' & _ & Hmax & _).
  rewrite Hrgb in Hrgb'. injection Hrgb' as <-.
  exists rgb. split; [exact Hrgb |]. split; [exact Hin |].
  destruct Hmax as [E | [E | E]]; [left | right; left | right; right]; lra.
Qed.

End GenerateMore.

(** X11: after [GeneratePointLights], the point-light list and the
    ellipse list correspond entry by entry: light [i] stands on the
    ellipse of entry [i], at [x = e.x * cos(0.01 * e.z)] and
    [z = e.y * sin(0.01 * e.z)], and the entry has [e.x] in [[-11, 11]],
    [e.y] in [[-6, 6]], the speed [e.z] in [[0.5, 2]] and [e.w = 0]. *)
Theorem X11_lights_start_on_their_ellipses :
  forall (order : Host.argument_order) (unit_rand : nat -> Q)
      (cosf sinf : Q -> Q) (app : Host.App) (n : nat),
    (forall k, 0 <= unit_rand k <= 1)%Q ->
    Forall2 (HostLights.on_ellipse cosf sinf)
      (Host.m_point_lights
         (fst (Host.GeneratePointLights order unit_rand cosf sinf app n)))
      (Host.m_ellipses_radii
         (fst (Host.GeneratePointLights order unit_rand cosf sinf app n))).
Proof.
  intros order unit_rand cosf sinf app n Hrand.
  apply GeneratePointLights_pairs.
  apply generate_one_on_ellipse. exact Hrand.
Qed.

Lemma X11_lights_start_on_their_ellipses_witness :
  (forall k, 0 <= Scenes.alternating k <= 1)%Q
  /\ forall (order : Host.argument_order) (cosf sinf : Q -> Q),
       Forall2 (HostLights.on_ellipse cosf sinf)
         (Host.m_point_lights
            (fst (Host.GeneratePointLights order Scenes.alternating cosf sinf
                    Host.initial_app 0%nat)))
         (Host.m_ellipses_radii
            (fst (Host.GeneratePointLights order Scenes.alternating cosf sinf
                    Host.initial_app 0%nat))).
Proof.
  assert (H : (forall k, 0 <= Scenes.alternating k <= 1)%Q).
  { intros k. unfold Scenes.alternating. destruct (Nat.even k); split; discriminate. }
  split; [exact H |].
  intros order cosf sinf.
  exact (X11_lights_start_on_their_ellipses order Scenes.alternating cosf sinf
           Host.initial_app 0%nat H).
Defined.

(** X12: when the generator never returns its largest value 1, every
    light [GeneratePointLights] makes has an assigned colour, with its
    three components in [[0, 1]] and one of them at least 0.1 (hue below
    360, saturation and value from 0.1 to 1). *)
Theorem X12_generated_colours_assigned :
  forall (order : Host.argument_order) (unit_rand : nat -> Q)
      (cosf sinf : Q -> Q) (app : Host.App) (n : nat),
    (forall k, 0 <= unit_rand k /\ unit_rand k < 1)%Q ->
    Forall HostLights.visible_colour
      (Host.m_point_lights
         (fst (Host.GeneratePointLights order unit_rand cosf sinf app n))).
Proof.
  intros order unit_rand cosf sinf app n Hrand.
  pose proof (GeneratePointLights_pairs order unit_rand cosf sinf
                (fun p _ => HostLights.visible_colour p)
                (generate_one_visible order unit_rand cosf sinf Hrand) app n) as H.
  induction H; constructor; assumption.
Qed.

(** A generator that always returns its midpoint. *)
Lemma X12_generated_colours_assigned_witness :
  (forall k : nat, 0 <= 1 # 2 /\ 1 # 2 < 1)%Q
  /\ forall (order : Host.argument_order) (cosf sinf : Q -> Q),
       Forall HostLights.visible_colour
         (Host.m_point_lights
            (fst (Host.GeneratePointLights order (fun _ => 1 # 2)%Q cosf sinf
                    Host.initial_app 0%nat))).
Proof.
  assert (H : (forall k : nat, 0 <= 1 # 2 /\ 1 # 2 < 1)%Q).
  { intros k. split; [discriminate | reflexivity]. }
  split; [exact H |].
  intros order cosf sinf.
  exact (X12_generated_colours_assigned order (fun _ => 1 # 2)%Q cosf sinf
           Host.initial_app 0%nat H).
Defined.

(** ** The lights panel keeps the radii from going negative *)

Section PanelProofs.
Import LightsPanel.
Local Open Scope Q_scope.

Variable order : Host.argument_order.
Variable unit_rand : nat -> Q.
Variables cosf sinf : Q -> Q.
Hypothesis unit_rand_range : forall k, 0 <= unit_rand k <= 1.

Lemma input_radius_not_negative (edit : option Q) (r : Q) :
  0 <= r -> 0 <= input_radius edit r.
Proof.
  intros Hr. unfold input_radius, widget. destruct edit as [v |]; simpl.
  - destruct (Qle_bool 0 v) eqn:E; simpl.
    + apply Qle_bool_iff. exact E.
    + discriminate.
  - exact Hr.
Qed.

Lemma generate_loop_bounds (rounds : nat) : forall i a n,
  Host.min_max_point_light_radius
    (fst (Host.generate_loop order unit_rand cosf sinf rounds i a n))
  = Host.min_max_point_light_radius a.
Proof.
  induction rounds as [| rounds IH]; intros i a n; simpl; [reflexivity |].
  unfold Host.bind at 1.
  destruct (Host.generate_one order unit_rand cosf sinf _ _ n) as [pe n'].
  rewrite IH. reflexivity.
Qed.

Lemma GeneratePointLights_bounds (a : Host.App) (n : nat) :
  Host.min_max_point_light_radius
    (fst (Host.GeneratePointLights order unit_rand cosf sinf a n))
  = Host.min_max_point_light_radius a.
Proof. unfold Host.GeneratePointLights. rewrite generate_loop_bounds. reflexivity. Qed.

Lemma lights_generator_keeps (fr : Frame) (m : Members) (n : nat) :
  radii_not_negative m ->
  radii_not_negative (fst (lights_generator order unit_rand cosf sinf fr m n)).
Proof.
  intros (Hx & Hy & Hl). unfold lights_generator.
  destruct (header_open fr); [| simpl; split; [| split]; assumption].
  pose proof (input_radius_not_negative (min_radius fr) _ Hx) as Hx'.
  pose proof (input_radius_not_negative (max_radius fr) _ Hy) as Hy'.
  set (x := input_radius (min_radius fr) _) in *.
  set (y := input_radius (max_radius fr) _) in *.
  set (app1 := Host.mkApp _ _ (x, y) _ _).
  destruct (generate fr).
  - unfold Host.bind, Host.ret.
    pose proof (GeneratePointLights_spec order unit_rand cosf sinf unit_rand_range app1 n)
      as (_ & _ & Hgen).
    destruct (Host.GeneratePointLights order unit_rand cosf sinf app1 n) as [app2 n'] eqn:E.
    simpl in Hgen. simpl.
    assert (Hmm : Host.min_max_point_light_radius app2 = (x, y)).
    { pose proof (GeneratePointLights_bounds app1 n) as Hb.
      rewrite E in Hb. exact Hb. }
    unfold radii_not_negative. simpl. rewrite Hmm. simpl.
    split; [exact Hx' | split; [exact Hy' |]].
    eapply Forall_impl; [exact Hgen |].
    intros p (_ & _ & Hle & Hge). simpl in Hle, Hge.
    destruct (Qlt_le_dec y x) as [Hyx | Hxy].
    + assert (y <= x) by lra. specialize (Hge H). lra.
    + specialize (Hle Hxy). lra.
  - simpl. split; [exact Hx' | split; [exact Hy' | exact Hl]].
Qed.

Lemma frames_keep (frs : list Frame) : forall (m : Members) (n : nat),
  radii_not_negative m ->
  radii_not_negative (fst (frames order unit_rand cosf sinf frs m n)).
Proof.
  induction frs as [| fr rest IH]; intros m n Hm; simpl.
  - exact Hm.
  - unfold Host.bind.
    pose proof (lights_generator_keeps fr m n Hm) as H1.
    destruct (lights_generator order unit_rand cosf sinf fr m n) as [m1 n1].
    apply IH. exact H1.
Qed.

End PanelProofs.

(** X13: the panel of [render_gui] keeps the point lights' radii from
    going negative.  If the two radius bounds and the radii of the lights
    are not negative (as with the initial members), then after any number
    of frames, whatever the user enters (a negative bound is stored as 0)
    and whenever the lights are regenerated, the two bounds and the radius
    of every light are still not negative. *)
Theorem X13_panel_keeps_radii_not_negative :
  forall (order : Host.argument_order) (unit_rand : nat -> Q)
         (cosf sinf : Q -> Q) (frs : list LightsPanel.Frame) (m : LightsPanel.Members) (n : nat),
    (forall k, 0 <= unit_rand k <= 1)%Q ->
    LightsPanel.radii_not_negative m ->
    LightsPanel.radii_not_negative
      (fst (LightsPanel.frames order unit_rand cosf sinf frs m n)).
Proof.
  intros order unit_rand cosf sinf frs m n Hrand Hm.
  apply frames_keep; assumption.
Qed.

(** The user enters a minimum radius of -5 and, in the next frame, presses
    "Generate Lights". *)
Lemma X13_panel_keeps_radii_not_negative_witness :
  ((forall k, 0 <= Scenes.alternating k <= 1)%Q
   /\ LightsPanel.radii_not_negative LightsPanel.initial)
  /\ forall (order : Host.argument_order) (cosf sinf : Q -> Q),
       LightsPanel.radii_not_negative
         (fst (LightsPanel.frames order Scenes.alternating cosf sinf
                 [ LightsPanel.mkFrame true None None None None
                     (Some (- (5))%Q) None None false;
                   LightsPanel.mkFrame true None None None (Some 3%nat)
                     None None None true ]
                 LightsPanel.initial 0%nat)).
Proof.
  assert (H : (forall k, 0 <= Scenes.alternating k <= 1)%Q).
  { intros k. unfold Scenes.alternating. destruct (Nat.even k); split; discriminate. }
  assert (H0 : LightsPanel.radii_not_negative LightsPanel.initial).
  { unfold LightsPanel.radii_not_negative. simpl.
    split; [discriminate | split; [discriminate | constructor]]. }
  split; [split; [exact H | exact H0] |].
  intros order cosf sinf.
  exact (X13_panel_keeps_radii_not_negative order Scenes.alternating cosf sinf _
           LightsPanel.initial 0%nat H H0).
Defined.

(** ** The animation dispatch *)

Section AnimationProofs.
Local Open Scope Q_scope.

Lemma float_to_int_inject (z : Z) : Host.float_to_int (inject_Z z) = z.
Proof. unfold Host.float_to_int. simpl. apply Z.quot_1_r. Qed.

(** The ceiling of [count / 1024], as integers. *)
Lemma groups_cover (count : Z) :
  (count <= 1024 * Qceiling (inject_Z count / 1024)
   /\ 1024 * Qceiling (inject_Z count / 1024) < count + 1024)%Z.
Proof.
  set (x := inject_Z count / 1024).
  pose proof (Qle_ceiling x) as Hle.
  pose proof (Qceiling_lt x) as Hlt.
  assert (E : inject_Z count == x * 1024) by (unfold x; field).
  split.
  - rewrite Zle_Qle, inject_Z_mult. change (inject_Z 1024) with 1024. lra.
  - rewrite Zlt_Qlt, inject_Z_plus, inject_Z_mult.
    change (inject_Z 1024) with 1024.
    assert (Hc : inject_Z (Qceiling x - 1) == inject_Z (Qceiling x) - 1).
    { unfold Z.sub. rewrite inject_Z_plus. reflexivity. }
    rewrite Hc in Hlt. lra.
Qed.

End AnimationProofs.

(** X14: when the lights are animated, [update] dispatches
    [ceil(count / 1024)] work groups of 1024 invocations: for a light count
    up to 2^24 (which a [float] holds exactly) the invocations cover every
    light and fewer than 1024 of them are idle, and the time handed to the
    shader advances by [delta_time * m_animation_speed].  When the lights
    are not animated nothing is dispatched and the time stands still. *)
Theorem X14_update_dispatch_covers_lights :
  forall (m_animation_speed delta_time time_accum : Q) (m_point_lights_count : Z),
    0 <= m_point_lights_count <= 2 ^ 24 ->
    (exists groups,
       Animation.update true m_animation_speed m_point_lights_count
         delta_time time_accum
       = ((time_accum + delta_time * m_animation_speed)%Q,
          Some ((time_accum + delta_time * m_animation_speed)%Q,
                Uvec3 groups 1 1))
       /\ m_point_lights_count <= 1024 * groups < m_point_lights_count + 1024)
    /\ Animation.update false m_animation_speed m_point_lights_count
         delta_time time_accum
       = (time_accum, None).
Proof.
  intros speed dt t count Hcount. split; [| reflexivity].
  exists (Qceiling (inject_Z count / 1024)).
  pose proof (groups_cover count) as [Hlo Hhi].
  split; [| split; assumption].
  unfold Animation.update, Animation.ceilf.
  rewrite float_to_int_inject.
  rewrite wrap_small; [reflexivity |].
  unfold is_uint, uint_modulus. lia.
Qed.

(** The demo's 50 lights: one work group. *)
Lemma X14_update_dispatch_covers_lights_witness :
  (0 <= 50 <= 2 ^ 24)
  /\ exists groups,
       Animation.update true 1 50 (1 # 60) 0
       = ((0 + (1 # 60) * 1)%Q, Some ((0 + (1 # 60) * 1)%Q, Uvec3 groups 1 1))
       /\ 50 <= 1024 * groups < 50 + 1024.
Proof.
  assert (H : 0 <= 50 <= 2 ^ 24) by (split; [lia | vm_compute; discriminate]).
  split; [exact H |].
  exact (proj1 (X14_update_dispatch_covers_lights 1 (1 # 60) 0 50 H)).
Defined.

(** ** The mip chain of a render target *)

Section MipProofs.
Import RenderTarget.

Lemma halve_level (w : Z) (j : Z) : 0 <= j -> w / 2 ^ j / 2 = w / 2 ^ (j + 1).
Proof.
  intros Hj. rewrite Z.div_div by (try apply Z.pow_pos_nonneg; lia).
  rewrite Z.pow_add_r by lia. reflexivity.
Qed.

Lemma printf_d_small (x : Z) : 0 <= x < 2 ^ 31 -> printf_d x = x.
Proof.
  intros Hx. unfold printf_d.
  destruct (Z.ltb_spec x (2 ^ 31)); [reflexivity | lia].
Qed.

(** From level 1 on the sizes of a [GLuint] target are below [2^31]. *)
Lemma printf_d_level (w k : Z) :
  is_uint w -> 1 <= k -> printf_d (w / 2 ^ k) = w / 2 ^ k.
Proof.
  intros Hw Hk. apply printf_d_small. unfold is_uint, uint_modulus in Hw.
  assert (Hpow : 2 <= 2 ^ k).
  { change 2 with (2 ^ 1) at 1. apply Z.pow_le_mono_r; lia. }
  split.
  - apply Z.div_pos; lia.
  - apply Z.le_lt_trans with (w / 2).
    + apply Z.div_le_compat_l; lia.
    + apply Z.div_lt_upper_bound; lia.
Qed.

(** The loop from level [j]: it stops at the last level whose two sizes
    reach the limit, or after its last iteration. *)
Lemma mip_loop_spec (w h : Z) (iterations : nat) :
  is_uint w -> is_uint h ->
  forall (j : Z) (printed : list (Z * Z * Z)),
    1 <= j -> j + Z.of_nat iterations <= 17 ->
    let r := fst (mip_loop iterations (w / 2 ^ j) (h / 2 ^ j) j printed) in
    j <= r <= j + Z.of_nat iterations
    /\ (forall k, j < k <= r -> 10 <= w / 2 ^ k /\ 10 <= h / 2 ^ k)
    /\ (r < j + Z.of_nat iterations ->
        w / 2 ^ (r + 1) < 10 \/ h / 2 ^ (r + 1) < 10)
    /\ snd (mip_loop iterations (w / 2 ^ j) (h / 2 ^ j) j printed)
       = printed
         ++ map (fun k => (k, w / 2 ^ k, h / 2 ^ k))
              (map (fun i => j + 1 + Z.of_nat i) (seq 0 (Z.to_nat (r - j)))).
Proof.
  intros Hw Hh.
  induction iterations as [| n IH]; intros j printed Hj Hn; simpl.
  - split; [lia |]. split; [intros k Hk; lia |]. split; [lia |].
    rewrite Z.sub_diag. simpl. rewrite app_nil_r. reflexivity.
  - rewrite !halve_level by lia. unfold m_downscale_limit.
    rewrite !printf_d_level by (assumption || lia).
    destruct ((w / 2 ^ (j + 1) <? 10) || (h / 2 ^ (j + 1) <? 10)) eqn:Hstop.
    + simpl. split; [lia |]. split; [intros k Hk; lia |].
      split.
      * intros _. apply orb_true_iff in Hstop.
        destruct Hstop as [H | H]; apply Z.ltb_lt in H; [left | right]; exact H.
      * rewrite Z.sub_diag. simpl. rewrite app_nil_r. reflexivity.
    + apply orb_false_iff in Hstop. destruct Hstop as [Hw10 Hh10].
      apply Z.ltb_ge in Hw10. apply Z.ltb_ge in Hh10.
      assert (Hwrap : wrap8 (j + 1) = j + 1).
      { unfold wrap8. apply Z.mod_small. lia. }
      rewrite Hwrap.
      specialize (IH (j + 1) (printed ++ [(j + 1, w / 2 ^ (j + 1), h / 2 ^ (j + 1))])
                    ltac:(lia) ltac:(lia)).
      cbv zeta in IH. destruct IH as (Hr & Hlevels & Hmax & Hlog).
      set (r := fst (mip_loop n (w / 2 ^ (j + 1)) (h / 2 ^ (j + 1)) (j + 1) _)) in *.
      split; [lia |]. split; [| split].
      * intros k Hk. destruct (Z.eq_dec k (j + 1)) as [-> | Hne].
        -- split; assumption.
        -- apply Hlevels. lia.
      * intros Hlt. apply Hmax. lia.
      * rewrite Hlog. rewrite <- app_assoc. f_equal.
        replace (Z.to_nat (r - j)) with (S (Z.to_nat (r - (j + 1)))) by lia.
        simpl. rewrite Z.add_0_r. f_equal.
        rewrite <- seq_shift, !map_map.
        apply map_ext. intros i.
        replace (j + 1 + Z.of_nat (S i)) with (j + 1 + 1 + Z.of_nat i) by lia.
        reflexivity.
Qed.

End MipProofs.

(** A target of 1280 x 720 pixels: seven levels, the last of 20 x 11
    pixels. *)
Example mip_levels_1280_720 :
  RenderTarget.calculateMipmapLevels 1280 720
  = (7, [(0, 1280, 720); (1, 640, 360); (2, 320, 180); (3, 160, 90);
         (4, 80, 45); (5, 40, 22); (6, 20, 11)]).
Proof. reflexivity. Qed.

(** X15: for a target whose sides are [GLuint]s, [calculateMipmapLevels]
    returns between 2 and 18 levels.  Every level of index 2 and above is
    at least 10 pixels wide and high; unless the count is 18, the level
    after the last would have fallen below 10 pixels in width or height.
    The lines printed are the levels in order: level 0 with the sides as
    [%d] shows them (a side of [2^31] or more comes out negative), every
    further level [k] with the size [m_width / 2^k] x [m_height / 2^k]. *)
Theorem X15_mip_levels :
  forall m_width m_height : Z,
    is_uint m_width -> is_uint m_height ->
    let levels := fst (RenderTarget.calculateMipmapLevels m_width m_height) in
    2 <= levels <= 18
    /\ (forall k, 2 <= k < levels ->
          10 <= m_width / 2 ^ k /\ 10 <= m_height / 2 ^ k)
    /\ (levels < 18 ->
          m_width / 2 ^ levels < 10 \/ m_height / 2 ^ levels < 10)
    /\ snd (RenderTarget.calculateMipmapLevels m_width m_height)
       = (0, RenderTarget.printf_d m_width, RenderTarget.printf_d m_height)
         :: map (fun k => (k, m_width / 2 ^ k, m_height / 2 ^ k))
              (map Z.of_nat (seq 1 (Z.to_nat levels - 1)))
    /\ (m_width < 2 ^ 31 -> RenderTarget.printf_d m_width = m_width)
    /\ (2 ^ 31 <= m_width ->
        RenderTarget.printf_d m_width = m_width - 2 ^ 32).
Proof.
  intros w h Hw Hh levels. subst levels.
  unfold RenderTarget.calculateMipmapLevels.
  pose proof (mip_loop_spec w h RenderTarget.m_max_iterations Hw Hh 1
                [(0, RenderTarget.printf_d w, RenderTarget.printf_d h);
                 (1, w / 2, h / 2)] ltac:(lia)
                ltac:(unfold RenderTarget.m_max_iterations; lia)) as H.
  cbv zeta in H. change (2 ^ 1) with 2 in H.
  pose proof (printf_d_level w 1 Hw ltac:(lia)) as Hpw.
  pose proof (printf_d_level h 1 Hh ltac:(lia)) as Hph.
  change (2 ^ 1) with 2 in Hpw, Hph. rewrite Hpw, Hph.
  destruct (RenderTarget.mip_loop RenderTarget.m_max_iterations (w / 2) (h / 2) 1
              [(0, RenderTarget.printf_d w, RenderTarget.printf_d h);
               (1, w / 2, h / 2)]) as [r' printed] eqn:E.
  simpl in H. destruct H as (Hr & Hlevels & Hmax & Hlog).
  unfold RenderTarget.m_max_iterations in Hr, Hmax. simpl in Hr, Hmax.
  assert (Hwrap : RenderTarget.wrap8 (r' + 1) = r' + 1).
  { unfold RenderTarget.wrap8. apply Z.mod_small. lia. }
  simpl. rewrite Hwrap.
  split; [lia |]. split; [| split; [| split; [| split]]].
  - intros k Hk. apply Hlevels. lia.
  - intros Hlt. apply Hmax. lia.
  - rewrite Hlog.
    replace (Z.to_nat (r' + 1) - 1)%nat with (S (Z.to_nat (r' - 1))) by lia.
    cbn [seq map]. change (Z.of_nat 1) with 1.
    change (2 ^ 1) with 2.
    do 2 f_equal.
    rewrite <- !seq_shift, !map_map.
    apply map_ext. intros i.
    replace (1 + 1 + Z.of_nat i) with (Z.of_nat (S (S i))) by lia.
    reflexivity.
  - intros Hlt. apply printf_d_small. unfold is_uint in Hw. lia.
  - intros Hge. unfold RenderTarget.printf_d.
    destruct (Z.ltb_spec w (2 ^ 31)); [lia | reflexivity].
Qed.

(** A target of 1280 x 720 pixels. *)
Lemma X15_mip_levels_witness :
  (is_uint 1280 /\ is_uint 720)
  /\ fst (RenderTarget.calculateMipmapLevels 1280 720) = 7
  /\ 2 <= fst (RenderTarget.calculateMipmapLevels 1280 720) <= 18.
Proof.
  assert (Hw : is_uint 1280) by (unfold is_uint, uint_modulus; lia).
  assert (Hh : is_uint 720) by (unfold is_uint, uint_modulus; lia).
  split; [split; assumption |].
  split; [reflexivity |].
  exact (proj1 (X15_mip_levels 1280 720 Hw Hh)).
Defined.

(** ** The direction of a light *)

Section DirectionProofs.
Local Open Scope R_scope.

Lemma spherical_unit (az el : R) :
  LightDirection.dot
    (LightDirection.neg (Vec3 (sin el * cos az) (cos el) (sin el * sin az)))
    (LightDirection.neg (Vec3 (sin el * cos az) (cos el) (sin el * sin az)))
  = 1.
Proof.
  unfold LightDirection.dot, LightDirection.neg. simpl.
  pose proof (sin2_cos2 az) as Haz. pose proof (sin2_cos2 el) as Hel.
  unfold Rsqr in Haz, Hel. nra.
Qed.

End DirectionProofs.

(** X16: [setDirection] stores a unit vector.  The vector it builds from
    the two angles already has length 1, so the normalisation changes
    nothing: the direction is
    [(-sin(el)*cos(az), -cos(el), -sin(el)*sin(az))] for the angles in
    radians, and its dot product with itself is 1. *)
Theorem X16_setDirection_unit :
  forall azimuth elevation : R,
    let az := LightDirection.radians azimuth in
    let el := LightDirection.radians elevation in
    LightDirection.setDirection azimuth elevation
    = Vec3 (- (sin el * cos az))%R (- cos el)%R (- (sin el * sin az))%R
    /\ LightDirection.dot (LightDirection.setDirection azimuth elevation)
         (LightDirection.setDirection azimuth elevation) = 1%R.
Proof.
  intros azimuth elevation az el.
  assert (E : LightDirection.setDirection azimuth elevation
              = Vec3 (- (sin el * cos az))%R (- cos el)%R (- (sin el * sin az))%R).
  { unfold LightDirection.setDirection, LightDirection.normalize. fold az el.
    cbv zeta. rewrite spherical_unit, sqrt_1, Rinv_1.
    unfold LightDirection.neg. simpl. rewrite !Rmult_1_r. reflexivity. }
  split; [exact E |].
  rewrite E. apply (spherical_unit az el).
Qed.

(** ** Shader sources *)

Section UtilProofs.
Import Util.

Abbreviation no_newline := (fun line : std_string => newline ∉ line).
Abbreviation not_starting phrase :=
  (fun line : std_string => starts_with phrase line = false).

Lemma elem_of_concat {A : Type} (x : A) (l : list A) (ls : list (list A)) :
  x ∈ l -> l ∈ ls -> x ∈ concat ls.
Proof.
  intros Hx Hl. apply list_elem_of_In, in_concat.
  exists l. split; apply list_elem_of_In; assumption.
Qed.

Lemma starts_with_take (phrase line : std_string) :
  starts_with phrase line = true <-> take (length phrase) line = phrase.
Proof.
  unfold starts_with, substr, size. rewrite bool_decide_eq_true.
  destruct (Z.ltb_spec (Z.of_nat (length line)) 0) as [Hneg | _]; [lia |].
  rewrite Z.sub_0_r. change (Z.to_nat 0) with 0%nat. rewrite drop_0.
  replace (Z.to_nat (Z.min (Z.of_nat (length phrase)) (Z.of_nat (length line))))
    with (Nat.min (length phrase) (length line)) by lia.
  assert (E : take (Nat.min (length phrase) (length line)) line
              = take (length phrase) line).
  { destruct (Nat.le_ge_cases (length phrase) (length line)) as [H | H].
    - rewrite Nat.min_l by exact H. reflexivity.
    - rewrite Nat.min_r by exact H. rewrite !take_ge by lia. reflexivity. }
  rewrite E. split; [intros [= H]; exact H | intros H; f_equal; exact H].
Qed.

(** *** [getline] *)

Lemma getline_from_app_newline (a b : std_string) :
  forall line,
    getline_from line (a ++ newline :: b)
    = getline_from line (a ++ [newline]) ++ getline_from [] b.
Proof.
  induction a as [| c a IH]; intros line; simpl.
  - destruct (decide (newline = newline)); [reflexivity | congruence].
  - destruct (decide (c = newline)).
    + rewrite IH. reflexivity.
    + apply IH.
Qed.

Lemma getline_from_one (x : std_string) :
  forall line,
    newline ∉ x -> getline_from line (x ++ [newline]) = [line ++ x].
Proof.
  induction x as [| c x IH]; intros line Hx; simpl.
  - destruct (decide (newline = newline)); [| congruence].
    rewrite app_nil_r. reflexivity.
  - apply not_elem_of_cons in Hx as [Hc Hx].
    destruct (decide (c = newline)); [congruence |].
    rewrite IH by exact Hx. rewrite <- app_assoc. reflexivity.
Qed.

Lemma getline_from_no_newline (stream : std_string) :
  forall line,
    newline ∉ line -> Forall no_newline (getline_from line stream).
Proof.
  induction stream as [| c stream IH]; intros line Hline; simpl.
  - destruct line; constructor; [exact Hline | constructor].
  - destruct (decide (c = newline)).
    + constructor; [exact Hline |]. apply IH. apply not_elem_of_nil.
    + apply IH. rewrite elem_of_app, list_elem_of_singleton.
      intros [H | H]; [exact (Hline H) | congruence].
Qed.

Lemma getlines_no_newline (stream : std_string) :
  Forall no_newline (getlines stream).
Proof. apply getline_from_no_newline, not_elem_of_nil. Qed.

(** The lines of a text built by [append(chunk + "\n")] are the lines of
    its chunks. *)
Lemma getlines_unlines_chunks (chunks : list std_string) :
  getlines (unlines chunks)
  = concat (map (fun chunk => getlines (chunk ++ [newline])) chunks).
Proof.
  unfold getlines, unlines.
  induction chunks as [| chunk chunks IH]; [reflexivity |].
  simpl. rewrite <- app_assoc. simpl.
  rewrite getline_from_app_newline, IH. reflexivity.
Qed.

Lemma getlines_unlines (lines : list std_string) :
  Forall no_newline lines -> getlines (unlines lines) = lines.
Proof.
  intros H. rewrite getlines_unlines_chunks.
  induction H as [| line lines Hline _ IH]; [reflexivity |].
  simpl. rewrite IH. unfold getlines.
  rewrite getline_from_one by exact Hline. reflexivity.
Qed.

Lemma unlines_cons (line : std_string) (lines : list std_string) :
  unlines (line :: lines) = line ++ [newline] ++ unlines lines.
Proof. unfold unlines. simpl. rewrite <- app_assoc. reflexivity. Qed.

Lemma unlines_app (a b : list std_string) :
  unlines (a ++ b) = unlines a ++ unlines b.
Proof. unfold unlines. rewrite map_app, concat_app. reflexivity. Qed.

(** Reading the lines of a text that ends with a newline and writing them
    back gives the text. *)
Lemma unlines_getline_from (stream : std_string) :
  forall line,
    unlines (getline_from line (stream ++ [newline]))
    = line ++ stream ++ [newline].
Proof.
  induction stream as [| c stream IH]; intros line; simpl.
  - destruct (decide (newline = newline)); [| congruence].
    unfold unlines. simpl. rewrite app_nil_r. reflexivity.
  - destruct (decide (c = newline)) as [-> | Hc].
    + change (unlines (line :: ?l)) with ((line ++ [newline]) ++ unlines l).
      rewrite IH. rewrite <- app_assoc. reflexivity.
    + rewrite IH. rewrite <- app_assoc. reflexivity.
Qed.

(** A last line without a newline is read as if it had one. *)
Lemma getline_from_unterminated (stream : std_string) :
  forall line c,
    c <> newline ->
    getline_from line (stream ++ [c])
    = getline_from line ((stream ++ [c]) ++ [newline]).
Proof.
  induction stream as [| d stream IH]; intros line c Hc; simpl.
  - destruct (decide (c = newline)); [congruence |]. simpl.
    destruct (decide (newline = newline)); [| congruence].
    destruct (line ++ [c]) eqn:E; [| reflexivity].
    destruct line; discriminate.
  - destruct (decide (d = newline)); [f_equal |]; apply IH; exact Hc.
Qed.

(** *** [LoadFile] *)

Lemma LoadFile_loop_spec (lines : list std_string) :
  forall skip filetext,
    exists kept,
      LoadFile_loop lines skip filetext = filetext ++ unlines kept
      /\ sublist kept lines
      /\ Forall (not_starting skip_begin_phrase) kept
      /\ (Forall (not_starting skip_begin_phrase) lines ->
          skip = false -> kept = lines).
Proof.
  induction lines as [| line lines IH]; intros skip filetext; simpl.
  - exists []. rewrite app_nil_r.
    split; [reflexivity |]. split; [constructor |]. split; [constructor |].
    reflexivity.
  - destruct (starts_with skip_begin_phrase line) eqn:Hbegin; simpl.
    + destruct (IH (if starts_with skip_end_phrase line then false else true)
                  filetext) as (kept & E & Hsub & Hkept & _).
      exists kept. split; [exact E |]. split; [constructor; exact Hsub |].
      split; [exact Hkept |].
      intros Hall _. apply Forall_cons in Hall as [Hline _]. congruence.
    + destruct skip; simpl.
      * destruct (IH (if starts_with skip_end_phrase line then false else true)
                    filetext) as (kept & E & Hsub & Hkept & _).
        exists kept. split; [exact E |]. split; [constructor; exact Hsub |].
        split; [exact Hkept |]. intros _ [=].
      * destruct (IH false (filetext ++ line ++ [newline]))
          as (kept & E & Hsub & Hkept & Hall).
        exists (line :: kept).
        split.
        { destruct (starts_with skip_end_phrase line);
            rewrite E, unlines_cons, <- !app_assoc; reflexivity. }
        split; [constructor; exact Hsub |].
        split; [constructor; assumption |].
        intros Hlines _. apply Forall_cons in Hlines as [_ Hlines].
        rewrite (Hall Hlines eq_refl). reflexivity.
Qed.

Context `{F : Files}.

Lemma LoadFile_spec (filename : path) :
  exists kept,
    LoadFile filename = unlines kept
    /\ Forall no_newline kept
    /\ Forall (not_starting skip_begin_phrase) kept
    /\ (path_empty filename = true -> kept = [])
    /\ (ifstream (root_path filename) = None -> kept = [])
    /\ (forall inFile,
          ifstream (root_path filename) = Some inFile ->
          sublist kept (getlines inFile)
          /\ (path_empty filename = false ->
              Forall (not_starting skip_begin_phrase) (getlines inFile) ->
              kept = getlines inFile)).
Proof.
  unfold LoadFile.
  destruct (path_empty filename) eqn:Hempty.
  { exists []. repeat split; try constructor; try reflexivity.
    - apply sublist_nil_l.
    - discriminate. }
  destruct (ifstream (root_path filename)) as [inFile |] eqn:Hopen.
  - destruct (LoadFile_loop_spec (getlines inFile) false [])
      as (kept & E & Hsub & Hkept & Hall).
    exists kept. split; [exact E |].
    split.
    { eapply Forall_forall. intros line Hline.
      pose proof (getlines_no_newline inFile) as Hn.
      rewrite Forall_forall in Hn. apply Hn.
      eapply elem_of_sublist; eassumption. }
    split; [exact Hkept |].
    split; [discriminate |]. split; [discriminate |].
    intros inFile' [= <-]. split; [exact Hsub |].
    intros _ Hlines. apply Hall; [exact Hlines | reflexivity].
  - exists []. repeat split; try constructor; try reflexivity; discriminate.
Qed.

(** *** [LoadShaderIncludes] *)

(** What a pass puts in the place of a line. *)
Abbreviation replaced dir :=
  (fun line chunk : std_string =>
     if starts_with include_phrase line then
       exists include_file_name,
         substr line (size include_phrase + 2)
           (size_wrap (size line - size include_phrase - 3))
         = Some include_file_name
         /\ chunk = LoadFile (path_append dir include_file_name)
     else chunk = line).

Lemma LoadShaderIncludes_loop_spec (dir : path) (lines : list std_string) :
  forall new_shader_code included result flag,
    LoadShaderIncludes_loop dir lines new_shader_code included
    = Some (result, flag) ->
    exists chunks,
      result = new_shader_code ++ unlines chunks
      /\ Forall2 (replaced dir) lines chunks
      /\ flag = included
               || negb (forallb (fun line => negb (starts_with include_phrase line))
                          lines).
Proof.
  induction lines as [| line lines IH]; intros code included result flag; simpl.
  - intros [= <- <-]. exists []. rewrite app_nil_r, orb_false_r.
    split; [reflexivity |]. split; [constructor | reflexivity].
  - destruct (starts_with include_phrase line) eqn:Hinc; simpl.
    + destruct (substr line _ _) as [name |] eqn:Hname; [| discriminate].
      intros H. apply IH in H as (chunks & E & Hchunks & Hflag).
      exists (LoadFile (path_append dir name) :: chunks).
      split; [rewrite E, <- app_assoc; reflexivity |].
      split.
      * constructor; [| exact Hchunks].
        rewrite Hinc. exists name. split; [exact Hname | reflexivity].
      * rewrite Hflag, orb_true_r. reflexivity.
    + intros H. apply IH in H as (chunks & E & Hchunks & Hflag).
      exists (line :: chunks).
      split; [rewrite E, <- app_assoc; reflexivity |].
      split; [| exact Hflag].
      constructor; [| exact Hchunks]. rewrite Hinc. reflexivity.
Qed.

Lemma LoadShaderIncludes_loop_plain (dir : path) (lines : list std_string) :
  forall new_shader_code included,
    Forall (not_starting include_phrase) lines ->
    LoadShaderIncludes_loop dir lines new_shader_code included
    = Some (new_shader_code ++ unlines lines, included).
Proof.
  induction lines as [| line lines IH]; intros code included Hlines; simpl.
  - rewrite app_nil_r. reflexivity.
  - apply Forall_cons in Hlines as [Hline Hlines]. rewrite Hline.
    rewrite IH by exact Hlines. rewrite <- app_assoc. reflexivity.
Qed.

Lemma forallb_not_starting (phrase : std_string) (lines : list std_string) :
  forallb (fun line => negb (starts_with phrase line)) lines = true
  <-> Forall (not_starting phrase) lines.
Proof.
  rewrite forallb_forall, Forall_forall. split; intros H line Hline.
  - apply list_elem_of_In in Hline. apply H in Hline.
    apply negb_true_iff in Hline. exact Hline.
  - apply negb_true_iff. apply H. apply list_elem_of_In. exact Hline.
Qed.

(** A pass that replaced nothing has copied the lines. *)
Lemma LoadShaderIncludes_loop_last (dir : path) (lines : list std_string)
    (result : std_string) :
  LoadShaderIncludes_loop dir lines [] false = Some (result, false) ->
  Forall (not_starting include_phrase) lines /\ result = unlines lines.
Proof.
  intros H.
  pose proof (LoadShaderIncludes_loop_spec _ _ _ _ _ _ H) as (_ & _ & _ & Hflag).
  simpl in Hflag. symmetry in Hflag. apply negb_false_iff in Hflag.
  apply forallb_not_starting in Hflag.
  rewrite LoadShaderIncludes_loop_plain in H by exact Hflag.
  injection H as <-. split; [exact Hflag | reflexivity].
Qed.

Lemma LoadShaderIncludes_plain (fuel : nat) (shader_code : std_string)
    (dir : path) :
  Forall (not_starting include_phrase) (getlines shader_code) ->
  LoadShaderIncludes (S fuel) shader_code dir
  = Returned (unlines (getlines shader_code)).
Proof.
  intros H. simpl. rewrite LoadShaderIncludes_loop_plain by exact H.
  reflexivity.
Qed.

Lemma LoadShaderIncludes_loop_app (dir : path) (lines1 lines2 : list std_string) :
  forall new_shader_code included,
    LoadShaderIncludes_loop dir (lines1 ++ lines2) new_shader_code included
    = match LoadShaderIncludes_loop dir lines1 new_shader_code included with
      | Some (new_shader_code', included') =>
          LoadShaderIncludes_loop dir lines2 new_shader_code' included'
      | None => None
      end.
Proof.
  induction lines1 as [| line lines1 IH]; intros code included; simpl;
    [reflexivity |].
  destruct (starts_with include_phrase line); [| apply IH].
  destruct (substr line _ _); [apply IH | reflexivity].
Qed.

(** The name an include line gives: what stands between the two
    characters after [#include] and the last character. *)
Lemma include_file_name_of (a b c : Ascii.ascii) (name : std_string) :
  let line := include_phrase ++ [a; b] ++ name ++ [c] in
  size line < size_modulus ->
  starts_with include_phrase line = true
  /\ substr line (size include_phrase + 2)
       (size_wrap (size line - size include_phrase - 3))
     = Some name.
Proof.
  intros line Hsize. split; [apply starts_with_take; reflexivity |].
  assert (Hlen : size line = Z.of_nat (length name) + 11).
  { unfold line, size. rewrite !length_app. simpl. lia. }
  unfold substr. rewrite Hlen in *.
  change (size include_phrase) with 8.
  destruct (Z.ltb_spec (Z.of_nat (length name) + 11) (8 + 2)) as [H | _]; [lia |].
  unfold size_wrap. rewrite Z.mod_small by lia.
  replace (Z.to_nat (Z.min (Z.of_nat (length name) + 11 - 8 - 3)
                       (Z.of_nat (length name) + 11 - (8 + 2))))
    with (length name) by lia.
  change (Z.to_nat (8 + 2)) with 10%nat.
  change (drop 10 line) with (name ++ [c]).
  rewrite take_app_length. reflexivity.
Qed.

(** An include line too short to hold a name makes the pass throw. *)
Lemma LoadShaderIncludes_loop_throws (dir : path) (line : std_string)
    (lines : list std_string) :
  line ∈ lines ->
  starts_with include_phrase line = true ->
  (length line < 10)%nat ->
  forall new_shader_code included,
    LoadShaderIncludes_loop dir lines new_shader_code included = None.
Proof.
  intros Hin Hinc Hshort.
  induction lines as [| line' lines IH]; intros code included;
    [inversion Hin |].
  simpl. apply elem_of_cons in Hin as [<- | Hin].
  - rewrite Hinc. unfold substr.
    change (size include_phrase) with 8.
    destruct (Z.ltb_spec (size line) (8 + 2)) as [_ | H]; [reflexivity |].
    unfold size in H. lia.
  - destruct (starts_with include_phrase line'); [| apply IH; exact Hin].
    destruct (substr line' _ _); [apply IH; exact Hin | reflexivity].
Qed.

(** A pass over a shader with an include line whose file holds an include
    line of the same kind leaves such a line in its result. *)
Lemma LoadShaderIncludes_loop_cycle (on_cycle : std_string -> Prop)
    (dir : path) (lines : list std_string) (result : std_string)
    (flag : bool) :
  (forall line,
      on_cycle line ->
      starts_with include_phrase line = true
      /\ forall include_file_name,
           substr line (size include_phrase + 2)
             (size_wrap (size line - size include_phrase - 3))
           = Some include_file_name ->
           exists line',
             line' ∈ getlines (LoadFile (path_append dir include_file_name))
             /\ on_cycle line') ->
  (exists line, line ∈ lines /\ on_cycle line) ->
  LoadShaderIncludes_loop dir lines [] false = Some (result, flag) ->
  flag = true /\ exists line, line ∈ getlines result /\ on_cycle line.
Proof.
  intros Hcycle (line & Hin & Hline) Hpass.
  apply LoadShaderIncludes_loop_spec in Hpass as (chunks & -> & Hchunks & ->).
  destruct (Hcycle line Hline) as [Hinc Hfile].
  split.
  - simpl. apply negb_true_iff.
    destruct (forallb _ lines) eqn:Hall; [| reflexivity].
    apply forallb_not_starting in Hall. rewrite Forall_forall in Hall.
    specialize (Hall line Hin). simpl in Hall. congruence.
  - simpl. rewrite getlines_unlines_chunks.
    apply list_elem_of_lookup_1 in Hin as [i Hi].
    destruct (Forall2_lookup_l _ _ _ _ _ Hchunks Hi) as (chunk & Hchunk & Hr).
    rewrite Hinc in Hr. destruct Hr as (name & Hname & ->).
    destruct (Hfile name Hname) as (line' & Hin' & Hline').
    exists line'. split; [| exact Hline'].
    apply elem_of_concat
      with (l := getlines (LoadFile (path_append dir name) ++ [newline])).
    + destruct (LoadFile_spec (path_append dir name)) as (kept & E & Hk & _).
      rewrite E in Hin' |- *. rewrite getlines_unlines in Hin' by exact Hk.
      change (unlines kept ++ [newline]) with (unlines kept ++ unlines [[]]).
      rewrite <- unlines_app, getlines_unlines.
      * apply elem_of_app. left. exact Hin'.
      * apply Forall_app. split; [exact Hk |].
        constructor; [apply not_elem_of_nil | constructor].
    + apply list_elem_of_In.
      apply (in_map (fun chunk => getlines (chunk ++ [newline]))).
      apply list_elem_of_In. eapply list_elem_of_lookup_2. exact Hchunk.
Qed.

End UtilProofs.

(** X17: [LoadFile] never returns a line that starts with
    [#ifdef __cplusplus]: the lines of its result are lines of the file, in
    the file's order, each one ended by a newline.  For an empty file name
    and for a file that cannot be opened the result is the empty string. *)
Theorem X17_LoadFile_drops_cplusplus_lines :
  forall (F : Util.Files) (filename : Util.path),
    Forall (fun line => Util.starts_with Util.skip_begin_phrase line = false)
      (Util.getlines (Util.LoadFile filename))
    /\ Util.LoadFile filename
       = Util.unlines (Util.getlines (Util.LoadFile filename))
    /\ (Util.path_empty filename = true -> Util.LoadFile filename = [])
    /\ (Util.ifstream (Util.root_path filename) = None ->
        Util.LoadFile filename = [])
    /\ (forall inFile,
          Util.ifstream (Util.root_path filename) = Some inFile ->
          sublist (Util.getlines (Util.LoadFile filename))
            (Util.getlines inFile)).
Proof.
  intros F filename.
  destruct (LoadFile_spec filename)
    as (kept & E & Hn & Hkept & Hempty & Hnone & Hfile).
  rewrite E, getlines_unlines by exact Hn.
  split; [exact Hkept |]. split; [reflexivity |].
  split; [intros H; rewrite (Hempty H); reflexivity |].
  split; [intros H; rewrite (Hnone H); reflexivity |].
  intros inFile H. apply (Hfile inFile H).
Qed.

(** X18: a file none of whose lines starts with [#ifdef __cplusplus] is
    loaded line by line: [LoadFile] returns it unchanged when it is empty
    or ends with a newline, and with a newline added after its last line
    otherwise. *)
Theorem X18_LoadFile_plain_file :
  forall (F : Util.Files) (filename : Util.path) (inFile : Util.std_string),
    Util.path_empty filename = false ->
    Util.ifstream (Util.root_path filename) = Some inFile ->
    Forall (fun line => Util.starts_with Util.skip_begin_phrase line = false)
      (Util.getlines inFile) ->
    Util.getlines (Util.LoadFile filename) = Util.getlines inFile
    /\ (inFile = [] -> Util.LoadFile filename = [])
    /\ (forall text, inFile = text ++ [Util.newline] ->
          Util.LoadFile filename = inFile)
    /\ (forall text c, inFile = text ++ [c] -> c <> Util.newline ->
          Util.LoadFile filename = inFile ++ [Util.newline]).
Proof.
  intros F filename inFile Hempty Hopen Hlines.
  destruct (LoadFile_spec filename) as (kept & E & Hn & _ & _ & _ & Hfile).
  destruct (Hfile inFile Hopen) as [_ Hkept].
  specialize (Hkept Hempty Hlines). subst kept. rewrite E.
  split; [apply getlines_unlines; exact Hn |].
  split; [intros ->; reflexivity |].
  split.
  - intros text ->. unfold Util.getlines.
    rewrite unlines_getline_from. reflexivity.
  - intros text c -> Hc. unfold Util.getlines.
    rewrite getline_from_unterminated by exact Hc.
    rewrite unlines_getline_from. reflexivity.
Qed.

(** The header [pbr_lighting.glh] of the shader directory has no newline
    after its last line. *)
Lemma X18_LoadFile_plain_file_witness :
  Util.getlines (Util.LoadFile (F := ShaderFiles.files) ShaderFiles.pbr_lighting_glh)
  = Util.getlines ShaderFiles.pbr_lighting
  /\ Util.LoadFile (F := ShaderFiles.files) ShaderFiles.pbr_lighting_glh
     = ShaderFiles.pbr_lighting ++ [Util.newline].
Proof.
  assert (H : Forall (fun line => Util.starts_with Util.skip_begin_phrase line = false)
                (Util.getlines ShaderFiles.pbr_lighting)).
  { vm_compute. repeat constructor. }
  pose proof (X18_LoadFile_plain_file ShaderFiles.files
                ShaderFiles.pbr_lighting_glh ShaderFiles.pbr_lighting
                eq_refl eq_refl H) as (Hlines & _ & _ & Hlast).
  split; [exact Hlines |].
  apply (Hlast (removelast ShaderFiles.pbr_lighting)
           (List.last ShaderFiles.pbr_lighting Util.newline));
    [vm_compute; reflexivity | vm_compute; discriminate].
Defined.

(** X19: when [LoadShaderIncludes] returns, no line of the shader code it
    returns starts with [#include], and every line ends with a newline. *)
Theorem X19_expanded_shader_has_no_include_line :
  forall (F : Util.Files) (fuel : nat) (shader_code : Util.std_string)
      (dir : Util.path) (result : Util.std_string),
    Util.LoadShaderIncludes fuel shader_code dir = Util.Returned result ->
    Forall (fun line => Util.starts_with Util.include_phrase line = false)
      (Util.getlines result)
    /\ result = Util.unlines (Util.getlines result).
Proof.
  intros F fuel. induction fuel as [| fuel IH]; intros code dir result; simpl;
    [discriminate |].
  destruct (Util.LoadShaderIncludes_loop dir (Util.getlines code) [] false)
    as [[new_code included] |] eqn:Hpass; [| discriminate].
  destruct included.
  - apply IH.
  - intros [= <-].
    apply LoadShaderIncludes_loop_last in Hpass as [Hlines ->].
    rewrite getlines_unlines by apply getlines_no_newline.
    split; [exact Hlines | reflexivity].
Qed.

(** A fragment shader that includes [pbr_lighting.glh], which includes
    [shared-structs.glh]: three passes. *)
Lemma X19_expanded_shader_has_no_include_line_witness :
  exists result,
    Util.LoadShaderIncludes (F := ShaderFiles.files) 3
      ShaderFiles.fragment_shader ShaderFiles.shaders
    = Util.Returned result
    /\ Forall (fun line => Util.starts_with Util.include_phrase line = false)
         (Util.getlines result).
Proof.
  eexists. split; [vm_compute; reflexivity |].
  apply (X19_expanded_shader_has_no_include_line ShaderFiles.files 3
           ShaderFiles.fragment_shader ShaderFiles.shaders).
  vm_compute. reflexivity.
Defined.

(** X20: a shader none of whose lines starts with [#include] (an indented
    include directive is such a line) is returned after one pass, whatever
    the files: unchanged when it is empty or ends with a newline, with a
    newline added after its last line otherwise. *)
Theorem X20_shader_without_include_lines :
  forall (F : Util.Files) (fuel : nat) (shader_code : Util.std_string)
      (dir : Util.path),
    Forall (fun line => Util.starts_with Util.include_phrase line = false)
      (Util.getlines shader_code) ->
    Util.LoadShaderIncludes (S fuel) shader_code dir
    = Util.Returned (Util.unlines (Util.getlines shader_code))
    /\ (shader_code = [] ->
        Util.LoadShaderIncludes (S fuel) shader_code dir = Util.Returned [])
    /\ (forall text, shader_code = text ++ [Util.newline] ->
          Util.LoadShaderIncludes (S fuel) shader_code dir
          = Util.Returned shader_code)
    /\ (forall text c, shader_code = text ++ [c] -> c <> Util.newline ->
          Util.LoadShaderIncludes (S fuel) shader_code dir
          = Util.Returned (shader_code ++ [Util.newline])).
Proof.
  intros F fuel shader_code dir Hlines.
  rewrite (LoadShaderIncludes_plain fuel shader_code dir Hlines).
  split; [reflexivity |].
  split; [intros ->; reflexivity |].
  split.
  - intros text ->. unfold Util.getlines.
    rewrite unlines_getline_from. reflexivity.
  - intros text c -> Hc. unfold Util.getlines.
    rewrite getline_from_unterminated by exact Hc.
    rewrite unlines_getline_from. reflexivity.
Qed.

Lemma X20_shader_without_include_lines_witness :
  Util.LoadShaderIncludes (F := ShaderFiles.files) 1
    ShaderFiles.plain_shader ShaderFiles.shaders
  = Util.Returned (ShaderFiles.plain_shader ++ [Util.newline]).
Proof.
  assert (H : Forall (fun line => Util.starts_with Util.include_phrase line = false)
                (Util.getlines ShaderFiles.plain_shader)).
  { vm_compute. repeat constructor. }
  pose proof (X20_shader_without_include_lines ShaderFiles.files 0
                ShaderFiles.plain_shader ShaderFiles.shaders H)
    as (_ & _ & _ & Hlast).
  apply (Hlast (removelast ShaderFiles.plain_shader)
           (List.last ShaderFiles.plain_shader Util.newline));
    [vm_compute; reflexivity | vm_compute; discriminate].
Defined.

(** X21: one include line, [#include] followed by two characters, a file
    name and one more character, in a shader whose other lines are not
    include lines, naming a file without include lines: after two passes
    [LoadShaderIncludes] returns the shader with the include line replaced
    by the lines of [LoadFile] of that file in [dir], followed by one empty
    line.  A file that cannot be opened leaves the empty line alone. *)
Theorem X21_include_line_replaced_by_file :
  forall (F : Util.Files) (fuel : nat) (shader_code : Util.std_string)
      (dir : Util.path) (before after : list Util.std_string)
      (a b c : Ascii.ascii) (include_file_name : Util.std_string),
    Util.getlines shader_code
    = before
      ++ [Util.include_phrase ++ [a; b] ++ include_file_name ++ [c]]
      ++ after ->
    Forall (fun line => Util.starts_with Util.include_phrase line = false)
      before ->
    Forall (fun line => Util.starts_with Util.include_phrase line = false)
      after ->
    Forall (fun line => Util.starts_with Util.include_phrase line = false)
      (Util.getlines (Util.LoadFile (Util.path_append dir include_file_name))) ->
    Util.size include_file_name + 11 < Util.size_modulus ->
    Util.LoadShaderIncludes (S (S fuel)) shader_code dir
    = Util.Returned
        (Util.unlines
           (before
            ++ Util.getlines
                 (Util.LoadFile (Util.path_append dir include_file_name))
            ++ [[]] ++ after)).
Proof.
  intros F fuel shader_code dir before after a b c name
    Hcode Hbefore Hafter Hfile Hsize.
  destruct (include_file_name_of a b c name) as [Hinc Hname].
  { unfold Util.size in *. rewrite !length_app. simpl. lia. }
  set (line := Util.include_phrase ++ [a; b] ++ name ++ [c]) in *.
  set (file := Util.LoadFile (Util.path_append dir name)) in *.
  pose proof (getlines_no_newline shader_code) as Hn. rewrite Hcode in Hn.
  apply Forall_app in Hn as [Hn_before Hn].
  apply Forall_app in Hn as [_ Hn_after].
  assert (Hpass : Util.LoadShaderIncludes_loop dir (Util.getlines shader_code)
                    [] false
                  = Some (Util.unlines (before ++ [file] ++ after), true)).
  { rewrite Hcode, LoadShaderIncludes_loop_app.
    rewrite LoadShaderIncludes_loop_plain by exact Hbefore.
    simpl. rewrite Hinc, Hname. fold file.
    rewrite LoadShaderIncludes_loop_plain by exact Hafter.
    rewrite !unlines_app, unlines_cons, <- !app_assoc. reflexivity. }
  assert (Hlines : Util.getlines (Util.unlines (before ++ [file] ++ after))
                   = before ++ Util.getlines file ++ [[]] ++ after).
  { rewrite !unlines_app, <- unlines_app.
    destruct (LoadFile_spec (Util.path_append dir name)) as (kept & E & Hk & _).
    fold file in E. rewrite E at 2. rewrite getlines_unlines by exact Hk.
    assert (E' : Util.unlines [file] = Util.unlines (kept ++ [[]])).
    { rewrite unlines_app, <- E. unfold Util.unlines. simpl.
      rewrite app_nil_r. reflexivity. }
    rewrite unlines_app, E', <- !unlines_app.
    rewrite <- app_assoc. apply getlines_unlines.
    repeat (apply Forall_app; split); try assumption.
    constructor; [apply not_elem_of_nil | constructor]. }
  change (Util.LoadShaderIncludes (S (S fuel)) shader_code dir)
    with (match Util.LoadShaderIncludes_loop dir (Util.getlines shader_code)
                  [] false with
          | None => Util.OutOfRange
          | Some (new_shader_code, included) =>
              if included
              then Util.LoadShaderIncludes (S fuel) new_shader_code dir
              else Util.Returned new_shader_code
          end).
  rewrite Hpass.
  rewrite LoadShaderIncludes_plain; rewrite Hlines; [reflexivity |].
  repeat (apply Forall_app; split); try assumption.
  constructor; [reflexivity | constructor].
Qed.

(** A shader that includes [shared-structs.glh], the header whose first
    three lines are for the C++ side. *)
Lemma X21_include_line_replaced_by_file_witness :
  Util.LoadShaderIncludes (F := ShaderFiles.files) 2
    ShaderFiles.structs_shader ShaderFiles.shaders
  = Util.Returned
      (Util.unlines
         ([ShaderFiles.version_line]
          ++ Util.getlines
               (Util.LoadFile (F := ShaderFiles.files)
                  (Util.path_append (Files := ShaderFiles.files)
                     ShaderFiles.shaders ShaderFiles.shared_structs_name))
          ++ [[]] ++ [ShaderFiles.main_line])).
Proof.
  apply (X21_include_line_replaced_by_file ShaderFiles.files 0
           ShaderFiles.structs_shader ShaderFiles.shaders
           [ShaderFiles.version_line] [ShaderFiles.main_line]
           ShaderFiles.space ShaderFiles.quote ShaderFiles.quote
           ShaderFiles.shared_structs_name).
  - vm_compute. reflexivity.
  - vm_compute. repeat constructor.
  - vm_compute. repeat constructor.
  - vm_compute. repeat constructor.
  - vm_compute. reflexivity.
Defined.

(** X22: a line that starts with [#include] and has fewer than ten
    characters makes [LoadShaderIncludes] throw [std::out_of_range] in its
    first pass. *)
Theorem X22_short_include_line_throws :
  forall (F : Util.Files) (fuel : nat) (shader_code : Util.std_string)
      (dir : Util.path) (line : Util.std_string),
    line ∈ Util.getlines shader_code ->
    Util.starts_with Util.include_phrase line = true ->
    (length line < 10)%nat ->
    Util.LoadShaderIncludes (S fuel) shader_code dir = Util.OutOfRange.
Proof.
  intros F fuel shader_code dir line Hin Hinc Hshort. simpl.
  rewrite (LoadShaderIncludes_loop_throws dir line _ Hin Hinc Hshort).
  reflexivity.
Qed.

Lemma X22_short_include_line_throws_witness :
  Util.LoadShaderIncludes (F := ShaderFiles.files) 1
    ShaderFiles.truncated_shader ShaderFiles.shaders
  = Util.OutOfRange.
Proof.
  apply (X22_short_include_line_throws ShaderFiles.files 0
           ShaderFiles.truncated_shader ShaderFiles.shaders
           Util.include_phrase).
  - apply list_elem_of_In. vm_compute. tauto.
  - vm_compute. reflexivity.
  - vm_compute. lia.
Defined.

(** X23: [LoadShaderIncludes] has no guard against a cycle of includes.
    Given a set of include lines such that the file each of them names
    holds, after [LoadFile], a line of the set again, a shader with a line
    of the set is never returned: every number of passes ends in another
    pass (or in [std::out_of_range]). *)
Theorem X23_include_cycle_never_returns :
  forall (F : Util.Files) (on_cycle : Util.std_string -> Prop) (fuel : nat)
      (shader_code : Util.std_string) (dir : Util.path),
    (forall line,
        on_cycle line ->
        Util.starts_with Util.include_phrase line = true
        /\ forall include_file_name,
             Util.substr line (Util.size Util.include_phrase + 2)
               (Util.size_wrap
                  (Util.size line - Util.size Util.include_phrase - 3))
             = Some include_file_name ->
             exists line',
               line' ∈ Util.getlines
                         (Util.LoadFile (Util.path_append dir include_file_name))
               /\ on_cycle line') ->
    (exists line, line ∈ Util.getlines shader_code /\ on_cycle line) ->
    Util.LoadShaderIncludes fuel shader_code dir = Util.OutOfFuel
    \/ Util.LoadShaderIncludes fuel shader_code dir = Util.OutOfRange.
Proof.
  intros F on_cycle fuel shader_code dir Hcycle.
  revert shader_code.
  induction fuel as [| fuel IH]; intros shader_code Hstart; simpl;
    [left; reflexivity |].
  destruct (Util.LoadShaderIncludes_loop dir (Util.getlines shader_code) [] false)
    as [[new_shader_code included] |] eqn:Hpass; [| right; reflexivity].
  destruct (LoadShaderIncludes_loop_cycle on_cycle dir _ _ _ Hcycle Hstart Hpass)
    as [-> Hnext].
  apply IH. exact Hnext.
Qed.

(** [loop.glh] includes itself. *)
Lemma X23_include_cycle_never_returns_witness :
  Util.LoadShaderIncludes (F := ShaderFiles.files) 1000
    ShaderFiles.looping_shader ShaderFiles.shaders = Util.OutOfFuel
  \/ Util.LoadShaderIncludes (F := ShaderFiles.files) 1000
       ShaderFiles.looping_shader ShaderFiles.shaders = Util.OutOfRange.
Proof.
  apply (X23_include_cycle_never_returns ShaderFiles.files
           (fun line => line = ShaderFiles.include_loop)).
  - intros line ->. split; [vm_compute; reflexivity |].
    intros name Hname. vm_compute in Hname. injection Hname as <-.
    exists ShaderFiles.include_loop. split; [| reflexivity].
    apply list_elem_of_In. vm_compute. tauto.
  - exists ShaderFiles.include_loop. split; [| reflexivity].
    apply list_elem_of_In. vm_compute. tauto.
Defined.

(** ** The bloom passes *)

Section BloomProofs.
Import Bloom.

Lemma groups_cover_8 (size : Z) :
  0 <= size < uint_modulus ->
  size <= 8 * groups size < size + 8.
Proof.
  intros Hsize. unfold groups, Animation.ceilf.
  rewrite float_to_int_inject.
  set (x := (inject_Z size / 8)%Q).
  pose proof (Qle_ceiling x) as Hle.
  pose proof (Qceiling_lt x) as Hlt.
  assert (E : (inject_Z size == x * 8)%Q) by (unfold x; field).
  assert (Hc : (inject_Z (Qceiling x - 1) == inject_Z (Qceiling x) - 1)%Q).
  { unfold Z.sub. rewrite inject_Z_plus. reflexivity. }
  rewrite Hc in Hlt.
  assert (Hlo : size <= 8 * Qceiling x).
  { rewrite Zle_Qle, inject_Z_mult. change (inject_Z 8) with 8%Q. lra. }
  assert (Hhi : 8 * Qceiling x < size + 8).
  { rewrite Zlt_Qlt, inject_Z_plus, inject_Z_mult.
    change (inject_Z 8) with 8%Q. lra. }
  rewrite wrap_small; [lia |].
  unfold is_uint, uint_modulus in *. lia.
Qed.

Lemma Qfloor_div (a b : Z) :
  0 < b -> Qfloor (inject_Z a / inject_Z b) = a / b.
Proof.
  intros Hb. destruct b as [| p | p]; try lia.
  unfold Qdiv, Qinv, Qmult, inject_Z, Qfloor. simpl.
  rewrite Z.mul_1_r. reflexivity.
Qed.

Lemma upscale_size_spec (size i : Z) :
  0 <= size < uint_modulus -> 1 <= i ->
  upscale_size size i = Z.max 1 (size / 2 ^ (i - 1)).
Proof.
  intros Hsize Hi. unfold upscale_size.
  assert (Hpow : 0 < 2 ^ (i - 1)) by (apply Z.pow_pos_nonneg; lia).
  rewrite Qfloor_div by exact Hpow.
  assert (Hq : 0 <= size / 2 ^ (i - 1) <= size).
  { split; [apply Z.div_pos; lia |].
    apply Z.div_le_upper_bound; [lia |]. nia. }
  destruct (Qle_bool (inject_Z (size / 2 ^ (i - 1))) 1) eqn:Hle; simpl.
  - apply Qle_bool_iff in Hle. change 1%Q with (inject_Z 1) in Hle.
    rewrite <- Zle_Qle in Hle.
    change (Host.float_to_int 1) with 1. rewrite wrap_small.
    + lia.
    + unfold is_uint, uint_modulus. lia.
  - assert (Hgt : 1 < size / 2 ^ (i - 1)).
    { destruct (Z.lt_ge_cases 1 (size / 2 ^ (i - 1))) as [H | H]; [exact H |].
      rewrite Zle_Qle in H. change (inject_Z 1) with 1%Q in H.
      apply Qle_bool_iff in H. congruence. }
    rewrite float_to_int_inject, wrap_small.
    + lia.
    + unfold is_uint, uint_modulus in *. lia.
Qed.

Lemma downscale_loop_spec (w h m_mip_levels : Z) (fuel : nat) :
  forall i,
    0 <= i -> m_mip_levels <= 256 ->
    m_mip_levels - 1 - i <= Z.of_nat fuel ->
    downscale_loop fuel m_mip_levels i
      (Uvec2 (w / 2 ^ (i + 1)) (h / 2 ^ (i + 1)))
    = map (fun i => Pass i (Uvec2 (w / 2 ^ (i + 1)) (h / 2 ^ (i + 1))) (i + 1)
                      (groups (w / 2 ^ (i + 1))) (groups (h / 2 ^ (i + 1))))
        (seqZ i (m_mip_levels - 1 - i)).
Proof.
  induction fuel as [| fuel IH]; intros i Hi Hlevels Hfuel.
  - rewrite seqZ_nil by lia. reflexivity.
  - simpl downscale_loop.
    destruct (Z.ltb_spec i (m_mip_levels - 1)) as [Hlt | Hge].
    + rewrite seqZ_cons by lia. simpl. f_equal.
      assert (Hwrap : RenderTarget.wrap8 (i + 1) = i + 1).
      { unfold RenderTarget.wrap8. apply Z.mod_small. lia. }
      rewrite Hwrap, !halve_level by lia.
      rewrite IH by lia. f_equal. f_equal. lia.
    + rewrite seqZ_nil by lia. reflexivity.
Qed.

Lemma upscale_loop_spec (w h : Z) (fuel : nat) :
  forall i,
    0 <= i < 256 -> i <= Z.of_nat fuel ->
    upscale_loop fuel w h i
    = map (fun i => Pass i (Uvec2 (upscale_size w i) (upscale_size h i)) (i - 1)
                      (groups (upscale_size w i)) (groups (upscale_size h i)))
        (reverse (seqZ 1 i)).
Proof.
  induction fuel as [| fuel IH]; intros i Hi Hfuel.
  - replace i with 0 by lia. reflexivity.
  - simpl upscale_loop.
    destruct (Z.leb_spec 1 i) as [Hle | Hgt].
    + assert (Hwrap : RenderTarget.wrap8 (i - 1) = i - 1).
      { unfold RenderTarget.wrap8. apply Z.mod_small. lia. }
      rewrite Hwrap, IH by lia.
      replace (seqZ 1 i) with (seqZ 1 (i - 1) ++ [i]).
      * rewrite reverse_app. reflexivity.
      * replace i with ((i - 1) + 1) at 3 by lia.
        rewrite seqZ_app by lia.
        replace (1 + (i - 1)) with i by lia. reflexivity.
    + rewrite seqZ_nil by lia. reflexivity.
Qed.

End BloomProofs.

(** X24: the bloom of [render], for a target of at most 2^24 pixels a
    side (sizes a [float] holds exactly) and a level count from 1 to 255.
    The downscale passes read the levels 0, 1, ..., [m_mip_levels - 2] in
    this order, pass [i] writing level [i + 1] with [mip_size] the size
    [m_width / 2^(i+1)] x [m_height / 2^(i+1)] of that level; then the
    upscale passes read the levels [m_mip_levels - 1], ..., 1, pass [i]
    writing level [i - 1] with [mip_size] the size of that level, never
    less than 1.  Every dispatch has just enough groups of 8 x 8
    invocations for its [mip_size].  With the bloom disabled there is no
    pass. *)
Theorem X24_bloom_passes :
  forall m_width m_height m_mip_levels : Z,
    0 <= m_width <= 2 ^ 24 ->
    0 <= m_height <= 2 ^ 24 ->
    1 <= m_mip_levels <= 255 ->
    Bloom.render true m_width m_height m_mip_levels
    = map (fun i =>
             let w := m_width / 2 ^ (i + 1) in
             let h := m_height / 2 ^ (i + 1) in
             Bloom.Pass i (Uvec2 w h) (i + 1) (Bloom.groups w) (Bloom.groups h))
        (seqZ 0 (m_mip_levels - 1))
      ++ map (fun i =>
                let w := Z.max 1 (m_width / 2 ^ (i - 1)) in
                let h := Z.max 1 (m_height / 2 ^ (i - 1)) in
                Bloom.Pass i (Uvec2 w h) (i - 1) (Bloom.groups w) (Bloom.groups h))
           (reverse (seqZ 1 (m_mip_levels - 1)))
    /\ (forall size, 0 <= size <= 2 ^ 24 ->
          size <= 8 * Bloom.groups size < size + 8)
    /\ Bloom.render false m_width m_height m_mip_levels = [].
Proof.
  intros w h levels Hw Hh Hlevels.
  split; [| split; [| reflexivity]].
  2: { intros size Hsize. apply groups_cover_8. unfold uint_modulus. lia. }
  unfold Bloom.render.
  assert (Hwrap : RenderTarget.wrap8 (levels - 1) = levels - 1).
  { unfold RenderTarget.wrap8. apply Z.mod_small. lia. }
  rewrite Hwrap. f_equal.
  - pose proof (downscale_loop_spec w h levels 256 0) as H.
    change (2 ^ (0 + 1)) with 2 in H. rewrite Z.sub_0_r in H.
    apply H; lia.
  - rewrite upscale_loop_spec by lia.
    apply map_ext_in. intros i Hi.
    apply list_elem_of_In, elem_of_reverse, elem_of_seqZ in Hi.
    rewrite !upscale_size_spec by (unfold uint_modulus; lia). reflexivity.
Qed.

(** A target of 1280 x 720 pixels, with its seven levels. *)
Lemma X24_bloom_passes_witness :
  map (fun p => (Bloom.u_mip_level p, Bloom.image_level p, Bloom.mip_size p,
                 Bloom.num_groups_x p, Bloom.num_groups_y p))
    (Bloom.render true 1280 720 7)
  = [ (0, 1, Uvec2 640 360, 80, 45); (1, 2, Uvec2 320 180, 40, 23);
      (2, 3, Uvec2 160 90, 20, 12); (3, 4, Uvec2 80 45, 10, 6);
      (4, 5, Uvec2 40 22, 5, 3); (5, 6, Uvec2 20 11, 3, 2);
      (6, 5, Uvec2 40 22, 5, 3); (5, 4, Uvec2 80 45, 10, 6);
      (4, 3, Uvec2 160 90, 20, 12); (3, 2, Uvec2 320 180, 40, 23);
      (2, 1, Uvec2 640 360, 80, 45); (1, 0, Uvec2 1280 720, 160, 90) ].
Proof.
  assert (Hw : 0 <= 1280 <= 2 ^ 24) by lia.
  assert (Hh : 0 <= 720 <= 2 ^ 24) by lia.
  assert (Hl : 1 <= 7 <= 255) by lia.
  rewrite (proj1 (X24_bloom_passes 1280 720 7 Hw Hh Hl)).
  vm_compute. reflexivity.
Defined.
